(** * River: time arithmetic, the Flow segment ledger and the Timeline engine

    A shallow embedding of [src/models/timestamp.ts] (TimestampUtils),
    the FlowModel class and [src/timeline/timeline.ts] (TimelineManager),
    followed by the properties of these programs.

    Conventions.
    - A JavaScript [number] holding an integer is a [Z]; the development
      stays inside the range where doubles are exact integers.
    - Methods that mutate objects are written in a state-and-exception
      monad [M]; an exception carries the store as it was when thrown.
    - [uuidv4()] and [new Date()] read an external [World]; the world is
      threaded next to the store and is not part of it.
    - [EventEmitter.emit] and [logger.debug] are calls into collaborators
      with no registered listener; they are not represented. *)

From Stdlib Require Import ZArith QArith List String Ascii Bool Lia DecimalString.
From Stdlib Require Import DecimalZ DecimalPos.
From Stdlib Require Import Sorting.Sorted Sorting.Permutation.
Import ListNotations.
Local Open Scope Z_scope.

(* ================================================================== *)
(** * Fragments of the JavaScript runtime used by the sources          *)
(* ================================================================== *)

Module JS.

Section Arrays.
Context {A : Type}.

Definition len (l : list A) : Z := Z.of_nat (List.length l).

(** How [splice] and [slice] read a start or end argument: a negative
    value counts from the end, and the result is clamped to
    [0 .. length]. *)
Definition relIndex (k : Z) (l : list A) : Z :=
  if k <? 0 then Z.max (len l + k) 0 else Z.min k (len l).

(** [l.splice(start, deleteCount, ...items)]: the array afterwards. *)
Definition splice (start deleteCount : Z) (items l : list A) : list A :=
  let from := relIndex start l in
  let del := Z.min (Z.max deleteCount 0) (len l - from) in
  firstn (Z.to_nat from) l ++ items ++ skipn (Z.to_nat (from + del)) l.

(** [l.slice(b, e)] and [l.slice(b)]. *)
Definition slice (b e : Z) (l : list A) : list A :=
  let k := relIndex b l in
  let final := relIndex e l in
  firstn (Z.to_nat (final - k)) (skipn (Z.to_nat k) l).

Definition sliceFrom (b : Z) (l : list A) : list A :=
  skipn (Z.to_nat (relIndex b l)) l.

Fixpoint findIndexFrom (p : A -> bool) (i : Z) (l : list A) : Z :=
  match l with
  | [] => -1
  | x :: r => if p x then i else findIndexFrom p (i + 1) r
  end.

(** [l.findIndex(p)]: the first index satisfying [p], or [-1]. *)
Definition findIndex (p : A -> bool) (l : list A) : Z := findIndexFrom p 0 l.

(** [l[i]] for an integer [i]: [None] stands for [undefined]. *)
Definition at_ (l : list A) (i : Z) : option A :=
  if i <? 0 then None else nth_error l (Z.to_nat i).

Definition push (x : A) (l : list A) : list A := l ++ [x].

(** [l.sort(cmp)].  The language fixes the sort as stable; for a
    comparator that is a total preorder the stable sorted permutation
    is unique, and insertion computes it. *)
Fixpoint insertSorted (cmp : A -> A -> Z) (x : A) (l : list A) : list A :=
  match l with
  | [] => [x]
  | y :: r => if cmp x y <=? 0 then x :: y :: r else y :: insertSorted cmp x r
  end.

Fixpoint sort (cmp : A -> A -> Z) (l : list A) : list A :=
  match l with
  | [] => []
  | x :: r => insertSorted cmp x (sort cmp r)
  end.
End Arrays.

(** [s.split(c)] for a one-character separator. *)
Fixpoint split (c : ascii) (s : string) : list string :=
  match s with
  | EmptyString => [EmptyString]
  | String x r =>
      if Ascii.eqb x c then EmptyString :: split c r
      else match split c r with
           | h :: t => String x h :: t
           | [] => [String x EmptyString]
           end
  end.

(** [s.split(sep)] for a separator of one or more characters: the
    leftmost occurrences, not overlapping.  [skip] counts the characters
    of a matched separator still to pass over. *)
Fixpoint splitOnFrom (sep : string) (skip : nat) (s : string) : list string :=
  match s with
  | EmptyString => [EmptyString]
  | String x r =>
      match skip with
      | S k => splitOnFrom sep k r
      | O =>
          if String.prefix sep s then
            EmptyString :: splitOnFrom sep (Nat.pred (String.length sep)) r
          else match splitOnFrom sep O r with
               | h :: t => String x h :: t
               | [] => [String x EmptyString]
               end
      end
  end.

Definition splitOn (sep : string) (s : string) : list string := splitOnFrom sep O s.

(** The truthy reading of an optional string, as the left operand of
    [||]: [undefined] and the empty string are falsy. *)
Definition truthy (a : option string) : option string :=
  match a with
  | Some (String _ _ as s) => Some s
  | _ => None
  end.

Definition digitValue (c : ascii) : option Z :=
  let n := Z.of_nat (nat_of_ascii c) in
  if (48 <=? n) && (n <=? 57) then Some (n - 48) else None.

Fixpoint digits (acc : Z) (s : string) : option Z :=
  match s with
  | EmptyString => Some acc
  | String c r =>
      match digitValue c with
      | Some d => digits (10 * acc + d) r
      | None => None
      end
  end.

Definition unsignedInteger (s : string) : option Z :=
  match s with
  | EmptyString => None
  | _ => digits 0 s
  end.

(** [Number(s)] on the integer fragment of its grammar: the empty string
    is [0], an optionally signed run of decimal digits is that integer.
    [None] is [NaN].  Numerals outside the fragment (surrounding white
    space, fractions, exponents, radix prefixes, [Infinity]) are not
    integers of the model and are not used below; they read as [None]. *)
Definition Number (s : string) : option Z :=
  match s with
  | EmptyString => Some 0
  | String "-"%char r => option_map Z.opp (unsignedInteger r)
  | String "+"%char r => unsignedInteger r
  | _ => unsignedInteger s
  end.

(** [isNaN(v)] where [v] may be [undefined] ([None]): [undefined]
    converts to [NaN]. *)
Definition isNaN (v : option (option Z)) : bool :=
  match v with
  | Some (Some _) => false
  | _ => true
  end.

(** Template-literal rendering of an integer. *)
Definition showInt (z : Z) : string := NilZero.string_of_int (Z.to_int z).

End JS.

(* ================================================================== *)
(** * Effects: an external world, a store, and thrown errors           *)
(* ================================================================== *)

Definition Date := Z.

(** The sources of identifiers and of wall-clock readings, with the
    number of values already drawn from each. *)
Record World := mkWorld {
  uuidSource : nat -> string;
  clockSource : nat -> Date;
  uuidCount : nat;
  clockCount : nat
}.

Inductive Completion (A : Type) : Type :=
| Normal (a : A)
| Throw (message : string).
Arguments Normal {A} a.
Arguments Throw {A} message.

Definition M (S A : Type) : Type := World -> S -> World * S * Completion A.

Definition ret {S A} (a : A) : M S A := fun w s => (w, s, Normal a).

Definition bind {S A B} (m : M S A) (k : A -> M S B) : M S B :=
  fun w s =>
    match m w s with
    | (w', s', Normal a) => k a w' s'
    | (w', s', Throw e) => (w', s', Throw e)
    end.

Definition throw {S A} (message : string) : M S A := fun w s => (w, s, Throw message).
Definition get {S} : M S S := fun w s => (w, s, Normal s).
Definition put {S} (s : S) : M S unit := fun w _ => (w, s, Normal tt).
Definition modify {S} (f : S -> S) : M S unit := fun w s => (w, f s, Normal tt).
Definition liftC {S A} (c : Completion A) : M S A := fun w s => (w, s, c).

(** [uuidv4()] *)
Definition uuidv4 {S} : M S string :=
  fun w s =>
    (mkWorld (uuidSource w) (clockSource w) (Datatypes.S (uuidCount w)) (clockCount w),
     s, Normal (uuidSource w (uuidCount w))).

(** [new Date()] *)
Definition newDate {S} : M S Date :=
  fun w s =>
    (mkWorld (uuidSource w) (clockSource w) (uuidCount w) (Datatypes.S (clockCount w)),
     s, Normal (clockSource w (clockCount w))).

Declare Scope js_scope.
Delimit Scope js_scope with js.
Notation "x <- c ;; k" := (bind c (fun x => k))
  (at level 100, c at next level, right associativity) : js_scope.
Notation "c ;;; k" := (bind c (fun _ => k))
  (at level 100, right associativity) : js_scope.

(** [for (const x of l) body(x)] *)
Fixpoint forOf {S A} (l : list A) (body : A -> M S unit) : M S unit :=
  match l with
  | [] => ret tt
  | x :: r => bind (body x) (fun _ => forOf r body)
  end.

Definition storeOf {S A} (r : World * S * Completion A) : S := snd (fst r).
Definition worldOf {S A} (r : World * S * Completion A) : World := fst (fst r).
Definition completionOf {S A} (r : World * S * Completion A) : Completion A := snd r.

Definition isThrow {A} (c : Completion A) : bool :=
  match c with Throw _ => true | Normal _ => false end.

(* ================================================================== *)
(** * TimestampUtils                                                   *)
(* ================================================================== *)

Record Timestamp := mkTimestamp { seconds : Z; nanoseconds : Z }.
Record TimeRange := mkTimeRange { start : Timestamp; end_ : Timestamp }.

Module TimestampUtils.

Definition NANOSECONDS_PER_SECOND : Z := 1000000000.

(** [Math.floor(x / y)] is [Z.div] for a positive divisor; [%] keeps the
    sign of the dividend, which is [Z.rem]. *)
Definition create (seconds nanoseconds : Z) : Timestamp :=
  let extraSeconds := nanoseconds / NANOSECONDS_PER_SECOND in
  {| seconds := seconds + extraSeconds;
     nanoseconds := Z.rem nanoseconds NANOSECONDS_PER_SECOND |}.

Definition toString (ts : Timestamp) : string :=
  (JS.showInt (seconds ts) ++ ":" ++ JS.showInt (nanoseconds ts))%string.

Definition fromString (str : string) : Completion Timestamp :=
  let parts := map JS.Number (JS.split ":"%char str) in
  let seconds := nth_error parts 0 in
  let nanoseconds := nth_error parts 1 in
  if JS.isNaN seconds || JS.isNaN nanoseconds then
    Throw ("Invalid timestamp string: " ++ str)%string
  else
    match seconds, nanoseconds with
    | Some (Some s), Some (Some ns) => Normal (create s ns)
    | _, _ => Throw ("Invalid timestamp string: " ++ str)%string
    end.

Definition add (a b : Timestamp) : Timestamp :=
  create (seconds a + seconds b) (nanoseconds a + nanoseconds b).

Definition subtract (a b : Timestamp) : Timestamp :=
  let seconds0 := seconds a - seconds b in
  let nanoseconds0 := nanoseconds a - nanoseconds b in
  if nanoseconds0 <? 0 then
    {| seconds := seconds0 - 1;
       nanoseconds := nanoseconds0 + NANOSECONDS_PER_SECOND |}
  else
    {| seconds := seconds0; nanoseconds := nanoseconds0 |}.

Definition compare (a b : Timestamp) : Z :=
  if seconds a <? seconds b then -1
  else if seconds a >? seconds b then 1
  else if nanoseconds a <? nanoseconds b then -1
  else if nanoseconds a >? nanoseconds b then 1
  else 0.

Definition isWithinRange (ts : Timestamp) (range : TimeRange) : bool :=
  (compare ts (start range) >=? 0) && (compare ts (end_ range) <? 0).

Definition duration (range : TimeRange) : Timestamp :=
  subtract (end_ range) (start range).

Definition timeRangeToString (range : TimeRange) : string :=
  (toString (start range) ++ "..." ++ toString (end_ range))%string.

Definition fromMilliseconds (ms : Z) : Timestamp :=
  let seconds := ms / 1000 in
  let nanoseconds := Z.rem ms 1000 * 1000000 in
  create seconds nanoseconds.

Definition toMilliseconds (ts : Timestamp) : Z :=
  seconds ts * 1000 + nanoseconds ts / 1000000.

Definition timeRangeFromString (str : string) : Completion TimeRange :=
  let parts := JS.splitOn "..." str in
  if negb (JS.len parts =? 2) then
    Throw ("Invalid timerange string: " ++ str)%string
  else
    match fromString (nth 0 parts EmptyString) with
    | Throw e => Throw e
    | Normal start0 =>
        match fromString (nth 1 parts EmptyString) with
        | Throw e => Throw e
        | Normal end0 => Normal (mkTimeRange start0 end0)
        end
    end.

(** [Date.now()]: a reading of the clock, in milliseconds. *)
Definition Date_now {S} : M S Z := newDate.

Definition now {S} : M S Timestamp :=
  bind Date_now (fun now0 => ret (fromMilliseconds now0)).

Definition nowTAI {S} : M S Timestamp :=
  let TAI_OFFSET_SECONDS := 37 in
  bind now (fun now0 => ret (add now0 (create TAI_OFFSET_SECONDS 0))).

End TimestampUtils.

(** The half-open overlap test written out in [validateSegmentTimeRange],
    [getSegmentsInRange] and [hasOverlap]:
    [a.start < b.end && a.end > b.start]. *)
Definition overlaps (a b : TimeRange) : bool :=
  (TimestampUtils.compare (start a) (end_ b) <? 0) &&
  (TimestampUtils.compare (end_ a) (start b) >? 0).

(** [l.map(f)] for an effectful [f], left to right. *)
Fixpoint mapM {S A B} (f : A -> M S B) (l : list A) : M S (list B) :=
  match l with
  | [] => ret []
  | x :: r => bind (f x) (fun y => bind (mapM f r) (fun ys => ret (y :: ys)))
  end.

(* ================================================================== *)
(** * The Flow segment ledger (class FlowModel)                        *)
(* ================================================================== *)

Module FlowType.
Inductive t := video | audio | data.
End FlowType.

(** [FlowFormat]: the kind of essence and its descriptive fields.  The
    ledger copies a format and never reads inside it, so the optional
    descriptive fields are kept as one list of name and text. *)
Record FlowFormat := mkFlowFormat {
  type : FlowType.t;
  descriptive : list (string * string)
}.

Module FlowSegment.
Record t := mk {
  id : string;
  flowId : string;
  timerange : TimeRange;
  objectIds : list string;
  tsOffset : option Timestamp;
  duration : option Timestamp;
  mediaTimerange : option TimeRange;
  created : Date;
  updated : Date
}.
End FlowSegment.

(** [Omit<FlowSegment, 'flowId' | 'created' | 'updated'>] *)
Module SegmentInput.
Record t := mk {
  id : string;
  timerange : TimeRange;
  objectIds : list string;
  tsOffset : option Timestamp;
  duration : option Timestamp;
  mediaTimerange : option TimeRange
}.
End SegmentInput.

(** [Partial<Flow>]: every field may be absent. *)
Module FlowData.
Record t := mk {
  id : option string;
  sourceId : option string;
  label : option string;
  description : option string;
  format : option FlowFormat;
  tags : option (list (string * string));
  created : option Date;
  updated : option Date;
  generation : option Z;
  segments : option (list FlowSegment.t)
}.
Definition empty : t := mk None None None None None None None None None None.
End FlowData.

Module FlowModel.

(** The fields of one FlowModel object. *)
Record t := mk {
  id : string;
  sourceId : option string;
  label : option string;
  description : option string;
  format : FlowFormat;
  tags : list (string * string);
  created : Date;
  updated : Date;
  generation : Z;
  segments : list FlowSegment.t
}.

(** The store: FlowModel objects by reference.  References below
    [allocated] are live; [new] hands out [allocated]. *)
Record Heap := mkHeap {
  objects : nat -> t;
  allocated : nat
}.

Definition Ref := nat.

Definition read (this : Ref) : M Heap t :=
  fun w h => (w, h, Normal (objects h this)).

Definition write (this : Ref) (f : t -> t) : M Heap unit :=
  modify (fun h =>
    mkHeap (fun r => if Nat.eqb r this then f (objects h this) else objects h r)
           (allocated h)).

Definition alloc (o : t) : M Heap Ref :=
  fun w h =>
    (w,
     mkHeap (fun r => if Nat.eqb r (allocated h) then o else objects h r)
            (S (allocated h)),
     Normal (allocated h)).

Definition set_segments (l : list FlowSegment.t) (o : t) : t :=
  mk (id o) (sourceId o) (label o) (description o) (format o) (tags o)
     (created o) (updated o) (generation o) l.

Definition set_updated (d : Date) (o : t) : t :=
  mk (id o) (sourceId o) (label o) (description o) (format o) (tags o)
     (created o) d (generation o) (segments o).

Definition set_generation (g : Z) (o : t) : t :=
  mk (id o) (sourceId o) (label o) (description o) (format o) (tags o)
     (created o) (updated o) g (segments o).

(** [{...this}]: the own properties of the object. *)
Definition spread (o : t) : FlowData.t :=
  FlowData.mk (Some (id o)) (sourceId o) (label o) (description o)
    (Some (format o)) (Some (tags o)) (Some (created o)) (Some (updated o))
    (Some (generation o)) (Some (segments o)).

(** [new FlowModel(data)].  A Date object and an array are always
    truthy; a string is falsy when empty and a number when zero. *)
Definition constructor (d : FlowData.t) : M Heap Ref :=
  (id0 <- match JS.truthy (FlowData.id d) with
          | Some s => ret s
          | None => uuidv4
          end ;;
   let format0 := match FlowData.format d with
                  | Some f => f
                  | None => mkFlowFormat FlowType.video []
                  end in
   let tags0 := match FlowData.tags d with Some g => g | None => [] end in
   created0 <- match FlowData.created d with
               | Some c => ret c
               | None => newDate
               end ;;
   updated0 <- match FlowData.updated d with
               | Some u => ret u
               | None => newDate
               end ;;
   let generation0 := match FlowData.generation d with
                      | Some g => g
                      | None => 0
                      end in
   let segments0 := match FlowData.segments d with
                    | Some l => l
                    | None => []
                    end in
   alloc (mk id0 (FlowData.sourceId d) (FlowData.label d)
             (FlowData.description d) format0 tags0 created0 updated0
             generation0 segments0))%js.

Definition overlapMessage (range existing : TimeRange) : string :=
  ("Segment timerange " ++ TimestampUtils.timeRangeToString range ++ " " ++
   "overlaps with existing segment " ++
   TimestampUtils.timeRangeToString existing)%string.

Definition validateSegmentTimeRange (this : Ref) (range : TimeRange) : M Heap unit :=
  (self <- read this ;;
   forOf (segments self) (fun segment =>
     let overlaps :=
       (TimestampUtils.compare (start range) (end_ (FlowSegment.timerange segment)) <? 0) &&
       (TimestampUtils.compare (end_ range) (start (FlowSegment.timerange segment)) >? 0) in
     if overlaps then throw (overlapMessage range (FlowSegment.timerange segment))
     else ret tt))%js.

Definition byStart (a b : FlowSegment.t) : Z :=
  TimestampUtils.compare (start (FlowSegment.timerange a))
                         (start (FlowSegment.timerange b)).

Definition addSegment (this : Ref) (segment : SegmentInput.t) : M Heap FlowSegment.t :=
  (self <- read this ;;
   created0 <- newDate ;;
   updated0 <- newDate ;;
   let newSegment :=
     FlowSegment.mk (SegmentInput.id segment) (id self)
       (SegmentInput.timerange segment) (SegmentInput.objectIds segment)
       (SegmentInput.tsOffset segment) (SegmentInput.duration segment)
       (SegmentInput.mediaTimerange segment) created0 updated0 in
   validateSegmentTimeRange this (FlowSegment.timerange newSegment) ;;;
   write this (fun o => set_segments (JS.push newSegment (segments o)) o) ;;;
   write this (fun o => set_segments (JS.sort byStart (segments o)) o) ;;;
   now0 <- newDate ;;
   write this (set_updated now0) ;;;
   write this (fun o => set_generation (generation o + 1) o) ;;;
   ret newSegment)%js.

Definition getSegmentsInRange (this : Ref) (range : TimeRange) : M Heap (list FlowSegment.t) :=
  (self <- read this ;;
   ret (filter (fun segment =>
          let segmentStart := start (FlowSegment.timerange segment) in
          let segmentEnd := end_ (FlowSegment.timerange segment) in
          let rangeStart := start range in
          let rangeEnd := end_ range in
          (TimestampUtils.compare segmentStart rangeEnd <? 0) &&
          (TimestampUtils.compare segmentEnd rangeStart >? 0))
        (segments self)))%js.

Definition clone (this : Ref) (newId : option string) : M Heap Ref :=
  (cloneId <- match JS.truthy newId with
              | Some s => ret s
              | None => uuidv4
              end ;;
   self <- read this ;;
   created0 <- newDate ;;
   updated0 <- newDate ;;
   segments0 <- mapM (fun segment =>
       id0 <- uuidv4 ;;
       c <- newDate ;;
       u <- newDate ;;
       ret (FlowSegment.mk id0 cloneId
              (FlowSegment.timerange segment) (FlowSegment.objectIds segment)
              (FlowSegment.tsOffset segment) (FlowSegment.duration segment)
              (FlowSegment.mediaTimerange segment) c u))
     (segments self) ;;
   let d := spread self in
   constructor
     (FlowData.mk (Some cloneId) (FlowData.sourceId d) (FlowData.label d)
        (FlowData.description d) (FlowData.format d) (FlowData.tags d)
        (Some created0) (Some updated0) (Some 0) (Some segments0)))%js.

Definition extractRange (this : Ref) (range : TimeRange) (newId : option string) : M Heap Ref :=
  (self <- read this ;;
   let d := spread self in
   id0 <- match JS.truthy newId with
          | Some s => ret s
          | None => uuidv4
          end ;;
   created0 <- newDate ;;
   updated0 <- newDate ;;
   newFlow <- constructor
     (FlowData.mk (Some id0) (FlowData.sourceId d) (FlowData.label d)
        (FlowData.description d) (FlowData.format d) (FlowData.tags d)
        (Some created0) (Some updated0) (Some 0) (Some [])) ;;
   relevantSegments <- getSegmentsInRange this range ;;
   forOf relevantSegments (fun segment =>
     let start0 :=
       if TimestampUtils.compare (start (FlowSegment.timerange segment)) (start range) >? 0
       then start (FlowSegment.timerange segment)
       else start range in
     let end0 :=
       if TimestampUtils.compare (end_ (FlowSegment.timerange segment)) (end_ range) <? 0
       then end_ (FlowSegment.timerange segment)
       else end_ range in
     let mediaTimerange0 :=
       match FlowSegment.mediaTimerange segment with
       | Some mediaTimerange =>
           if negb (TimestampUtils.compare start0 (start (FlowSegment.timerange segment)) =? 0) ||
              negb (TimestampUtils.compare end0 (end_ (FlowSegment.timerange segment)) =? 0)
           then
             let startOffset :=
               TimestampUtils.subtract start0 (start (FlowSegment.timerange segment)) in
             let duration := TimestampUtils.subtract end0 start0 in
             let newMediaStart := TimestampUtils.add (start mediaTimerange) startOffset in
             Some (mkTimeRange newMediaStart (TimestampUtils.add newMediaStart duration))
           else Some mediaTimerange
       | None => None
       end in
     id1 <- uuidv4 ;;
     _ <- addSegment newFlow
            (SegmentInput.mk id1 (mkTimeRange start0 end0)
               (FlowSegment.objectIds segment) (FlowSegment.tsOffset segment)
               (FlowSegment.duration segment) mediaTimerange0) ;;
     ret tt) ;;;
   ret newFlow)%js.

Definition getSegmentAtTimestamp (this : Ref) (timestamp : Timestamp)
    : M Heap (option FlowSegment.t) :=
  (self <- read this ;;
   ret (find (fun segment =>
               TimestampUtils.isWithinRange timestamp (FlowSegment.timerange segment))
             (segments self)))%js.

(** [segments[length - 1]] of a non-empty array. *)
Definition getTotalDuration (this : Ref) : M Heap (option Timestamp) :=
  (self <- read this ;;
   if JS.len (segments self) =? 0 then ret None
   else
     match JS.at_ (segments self) 0, JS.at_ (segments self) (JS.len (segments self) - 1) with
     | Some firstSegment, Some lastSegment =>
         ret (Some (TimestampUtils.subtract
                      (end_ (FlowSegment.timerange lastSegment))
                      (start (FlowSegment.timerange firstSegment))))
     | _, _ => throw "TypeError: Cannot read properties of undefined (reading 'timerange')"
     end)%js.

(** The loop [for (i = 1; i < length; i++)] over [segments[i - 1]] and
    [segments[i]]: it returns [false] at the first pair whose ends do
    not meet. *)
Fixpoint coverageFrom (l : list FlowSegment.t) : bool :=
  match l with
  | prev :: (curr :: _) as rest =>
      let prevEnd := end_ (FlowSegment.timerange prev) in
      let currStart := start (FlowSegment.timerange curr) in
      if negb (TimestampUtils.compare prevEnd currStart =? 0) then false
      else coverageFrom rest
  | _ => true
  end.

Definition hasContinuousCoverage (this : Ref) : M Heap bool :=
  (self <- read this ;;
   if JS.len (segments self) <=? 1 then ret true
   else ret (coverageFrom (segments self)))%js.

(** The same loop, pushing a gap for each pair that leaves one. *)
Fixpoint gapsFrom (l : list FlowSegment.t) : list TimeRange :=
  match l with
  | prev :: (curr :: _) as rest =>
      let prevEnd := end_ (FlowSegment.timerange prev) in
      let currStart := start (FlowSegment.timerange curr) in
      if TimestampUtils.compare prevEnd currStart <? 0
      then mkTimeRange prevEnd currStart :: gapsFrom rest
      else gapsFrom rest
  | _ => []
  end.

Definition getGaps (this : Ref) : M Heap (list TimeRange) :=
  (self <- read this ;;
   ret (gapsFrom (segments self)))%js.

End FlowModel.

(* ================================================================== *)
(** * The Timeline engine: data ([src/timeline/types.ts])              *)
(* ================================================================== *)

(** [Record<string, any>] values are carried and never read by the
    engine; they are kept as lists of name and text. *)
Definition Parameters := list (string * string).

Module Transition.
Inductive kind := cut | dissolve | wipe | fade.
Record t := mk {
  id : string;
  type : kind;
  duration : Timestamp;
  parameters : option Parameters
}.
End Transition.

Module Transitions.
Record t := mk { in_ : option Transition.t; out : option Transition.t }.
End Transitions.

Module Effect.
Record t := mk {
  id : string;
  type : string;
  enabled : bool;
  parameters : Parameters
}.
End Effect.

Module ClipMetadata.
Record t := mk { label : option string; color : option string; notes : option string }.
End ClipMetadata.

Module Clip.
Record t := mk {
  id : string;
  sourceId : string;
  flowId : string;
  trackId : string;
  timelineRange : TimeRange;
  sourceRange : TimeRange;
  speed : Q;
  transitions : option Transitions.t;
  effects : list Effect.t;
  metadata : option ClipMetadata.t
}.

Definition set_trackId (v : string) (c : t) : t :=
  mk (id c) (sourceId c) (flowId c) v (timelineRange c) (sourceRange c)
     (speed c) (transitions c) (effects c) (metadata c).

Definition set_timelineRange (v : TimeRange) (c : t) : t :=
  mk (id c) (sourceId c) (flowId c) (trackId c) v (sourceRange c)
     (speed c) (transitions c) (effects c) (metadata c).

Definition set_sourceRange (v : TimeRange) (c : t) : t :=
  mk (id c) (sourceId c) (flowId c) (trackId c) (timelineRange c) v
     (speed c) (transitions c) (effects c) (metadata c).
End Clip.

(** [Omit<Clip, 'id' | 'trackId'>] *)
Module ClipInput.
Record t := mk {
  sourceId : string;
  flowId : string;
  timelineRange : TimeRange;
  sourceRange : TimeRange;
  speed : Q;
  transitions : option Transitions.t;
  effects : list Effect.t;
  metadata : option ClipMetadata.t
}.
End ClipInput.

(** A Clip object is mutated in place by [moveClip] and [trimClip] and
    may be reached from more than one array, so tracks hold references
    to clips and the clip objects live in the manager's store. *)
Definition ClipRef := nat.

Module TrackType.
Inductive t := video | audio | subtitle | effect.
End TrackType.

Module TrackMetadata.
Record t := mk { height : option Z; channels : option Z; effectType : option string }.
End TrackMetadata.

Module Track.
Record t := mk {
  id : string;
  name : string;
  type : TrackType.t;
  index : Z;
  clips : list ClipRef;
  muted : bool;
  locked : bool;
  visible : bool;
  metadata : option TrackMetadata.t
}.

Definition set_index (v : Z) (x : t) : t :=
  mk (id x) (name x) (type x) v (clips x) (muted x) (locked x) (visible x) (metadata x).

Definition set_clips (v : list ClipRef) (x : t) : t :=
  mk (id x) (name x) (type x) (index x) v (muted x) (locked x) (visible x) (metadata x).

(** Stands for no track; positions handed out by [getTrack] are in
    range, so reads never reach it. *)
Definition absent : t :=
  mk EmptyString EmptyString TrackType.video 0 [] false false false None.
End Track.

(** [Omit<Track, 'id' | 'clips'>] *)
Module TrackInput.
Record t := mk {
  name : string;
  type : TrackType.t;
  index : Z;
  muted : bool;
  locked : bool;
  visible : bool;
  metadata : option TrackMetadata.t
}.
End TrackInput.

Module MarkerType.
Inductive t := chapter | comment | todo | sync.
End MarkerType.

Module Marker.
Record t := mk {
  id : string;
  timestamp : Timestamp;
  type : MarkerType.t;
  label : string;
  description : option string;
  color : option string;
  userId : option string
}.
End Marker.

(** [Omit<Marker, 'id'>] *)
Module MarkerInput.
Record t := mk {
  timestamp : Timestamp;
  type : MarkerType.t;
  label : string;
  description : option string;
  color : option string;
  userId : option string
}.
End MarkerInput.

Inductive EditCommandType :=
| add_clip | remove_clip | move_clip | trim_clip | split_clip
| add_track | remove_track | reorder_tracks
| add_transition | remove_transition
| add_effect | remove_effect | update_effect
| add_marker | remove_marker.

(** The [data] and [undoData] payloads the modelled mutators record.  A
    track or marker stored in a payload is the object itself in the
    source; [applyUndo] and [applyRedo] never read a payload, so its
    value at recording time is kept. *)
Inductive CommandData :=
| AddTrackData (track : Track.t)
| AddClipData (clip : ClipRef)
| RemoveClipData (clipId : string)
| MoveClipData (clipId newTrackId : string) (newTimelineStart : Timestamp)
| TrimClipData (clipId : string) (newSourceRange newTimelineRange : option TimeRange)
| SplitClipData (originalClipId : string) (splitPoint : Timestamp)
                (firstClipId secondClipId : string)
| AddMarkerData (marker : Marker.t).

Inductive UndoData :=
| AddTrackUndo (trackId : string)
| AddClipUndo (clipId : string)
| RemoveClipUndo (clip : option ClipRef) (trackId : string) (index : Z)
| MoveClipUndo (clipId oldTrackId : string) (oldTimelineRange : TimeRange)
| TrimClipUndo (clipId : string) (oldSourceRange oldTimelineRange : TimeRange)
| SplitClipUndo (originalClip : ClipRef) (trackId : string) (index : Z)
| AddMarkerUndo (markerId : string).

Module EditCommand.
Record t := mk {
  id : string;
  type : EditCommandType;
  timestamp : Date;
  data : CommandData;
  undoData : option UndoData
}.
End EditCommand.

Module Timeline.
Record t := mk {
  id : string;
  projectId : string;
  duration : Timestamp;
  tracks : list Track.t;
  markers : list Marker.t;
  created : Date;
  updated : Date
}.

Definition set_duration (v : Timestamp) (x : t) : t :=
  mk (id x) (projectId x) v (tracks x) (markers x) (created x) (updated x).
Definition set_tracks (v : list Track.t) (x : t) : t :=
  mk (id x) (projectId x) (duration x) v (markers x) (created x) (updated x).
Definition set_markers (v : list Marker.t) (x : t) : t :=
  mk (id x) (projectId x) (duration x) (tracks x) v (created x) (updated x).
Definition set_updated (v : Date) (x : t) : t :=
  mk (id x) (projectId x) (duration x) (tracks x) (markers x) (created x) v.
End Timeline.

Module ClipSelection.
Record t := mk { clipId : string; trackId : string }.
End ClipSelection.

Module TimelineState.
Record t := mk {
  playhead : Timestamp;
  selection : list ClipSelection.t;
  zoomLevel : Z;
  scrollPosition : Z
}.
End TimelineState.

(* ================================================================== *)
(** * The Timeline engine: class TimelineManager                       *)
(* ================================================================== *)

Module TimelineManager.

(** The manager's private fields, together with the clip objects its
    timeline refers to.  A track is referred to by its position in
    [timeline.tracks]: the array holds each track object once (tracks
    enter it only as fresh objects in [addTrack]). *)
Record t := mk {
  timeline : Timeline.t;
  state : TimelineState.t;
  history : list EditCommand.t;
  historyIndex : Z;
  maxHistorySize : Z;
  clipObjects : ClipRef -> Clip.t;
  allocated : nat
}.

Definition TrackRef := nat.

Definition set_timeline (v : Timeline.t) (s : t) : t :=
  mk v (state s) (history s) (historyIndex s) (maxHistorySize s)
     (clipObjects s) (allocated s).
Definition set_history (v : list EditCommand.t) (s : t) : t :=
  mk (timeline s) (state s) v (historyIndex s) (maxHistorySize s)
     (clipObjects s) (allocated s).
Definition set_historyIndex (v : Z) (s : t) : t :=
  mk (timeline s) (state s) (history s) v (maxHistorySize s)
     (clipObjects s) (allocated s).

(** [new TimelineManager(timeline)], over the clip objects the given
    timeline refers to. *)
Definition constructor (timeline0 : Timeline.t)
    (clipObjects0 : ClipRef -> Clip.t) (allocated0 : nat) : t :=
  mk timeline0
     (TimelineState.mk (TimestampUtils.create 0 0) [] 100 0)
     [] (-1) 100 clipObjects0 allocated0.

(** ** Access to tracks and clip objects *)

Definition tracks (s : t) : list Track.t := Timeline.tracks (timeline s).

Definition trackAt (s : t) (r : TrackRef) : Track.t := nth r (tracks s) Track.absent.

Fixpoint updateAt {A} (r : nat) (f : A -> A) (l : list A) : list A :=
  match l, r with
  | [], _ => []
  | x :: l', O => f x :: l'
  | x :: l', S r' => x :: updateAt r' f l'
  end.

Definition modifyTrack (r : TrackRef) (f : Track.t -> Track.t) : M t unit :=
  modify (fun s => set_timeline (Timeline.set_tracks (updateAt r f (tracks s)) (timeline s)) s).

Definition modifyClip (c : ClipRef) (f : Clip.t -> Clip.t) : M t unit :=
  modify (fun s =>
    mk (timeline s) (state s) (history s) (historyIndex s) (maxHistorySize s)
       (fun r => if Nat.eqb r c then f (clipObjects s c) else clipObjects s r)
       (allocated s)).

(** A fresh clip object. *)
Definition newClip (o : Clip.t) : M t ClipRef :=
  fun w s =>
    (w,
     mk (timeline s) (state s) (history s) (historyIndex s) (maxHistorySize s)
        (fun r => if Nat.eqb r (allocated s) then o else clipObjects s r)
        (S (allocated s)),
     Normal (allocated s)).

(** ** Getters *)

Definition getTrackIn (s : t) (trackId : string) : option TrackRef :=
  let i := JS.findIndex (fun x => String.eqb (Track.id x) trackId) (tracks s) in
  if i <? 0 then None else Some (Z.to_nat i).

Definition getTrack (trackId : string) : M t (option TrackRef) :=
  bind get (fun s => ret (getTrackIn s trackId)).

Fixpoint getClipFrom (s : t) (clipId : string) (l : list Track.t) : option ClipRef :=
  match l with
  | [] => None
  | track :: rest =>
      match find (fun c => String.eqb (Clip.id (clipObjects s c)) clipId) (Track.clips track) with
      | Some clip => Some clip
      | None => getClipFrom s clipId rest
      end
  end.

Definition getClipIn (s : t) (clipId : string) : option ClipRef :=
  getClipFrom s clipId (tracks s).

Definition getClip (clipId : string) : M t (option ClipRef) :=
  bind get (fun s => ret (getClipIn s clipId)).

Definition getDuration (s : t) : Timestamp := Timeline.duration (timeline s).

(** ** Helper methods *)

Definition hasOverlap (s : t) (track : Track.t) (timerange : TimeRange)
    (excludeClipId : option string) : bool :=
  existsb (fun c =>
      let clip := clipObjects s c in
      if match excludeClipId with
         | Some e => String.eqb (Clip.id clip) e
         | None => false
         end
      then false
      else (TimestampUtils.compare (start timerange) (end_ (Clip.timelineRange clip)) <? 0) &&
           (TimestampUtils.compare (end_ timerange) (start (Clip.timelineRange clip)) >? 0))
    (Track.clips track).

Definition findClipInsertIndex (s : t) (track : Track.t) (timestamp : Timestamp) : Z :=
  JS.findIndex (fun c =>
      TimestampUtils.compare (start (Clip.timelineRange (clipObjects s c))) timestamp >? 0)
    (Track.clips track).

Definition executeCommand (command : EditCommand.t) : M t unit :=
  (modify (fun s => set_history (JS.slice 0 (historyIndex s + 1) (history s)) s) ;;;
   modify (fun s => set_history (JS.push command (history s)) s) ;;;
   modify (fun s => set_historyIndex (historyIndex s + 1) s) ;;;
   s <- get ;;
   if JS.len (history s) >? maxHistorySize s then
     modify (fun s => set_history (JS.sliceFrom (- maxHistorySize s) (history s)) s) ;;;
     modify (fun s => set_historyIndex (JS.len (history s) - 1) s)
   else ret tt)%js.

Definition maxEndOf (s : t) : Timestamp :=
  fold_left (fun maxEnd track =>
      fold_left (fun maxEnd c =>
          let clip := clipObjects s c in
          if TimestampUtils.compare (end_ (Clip.timelineRange clip)) maxEnd >? 0
          then end_ (Clip.timelineRange clip)
          else maxEnd)
        (Track.clips track) maxEnd)
    (tracks s) (TimestampUtils.create 0 0).

Definition updateTimeline : M t unit :=
  (s <- get ;;
   let maxEnd := maxEndOf s in
   modify (fun s => set_timeline (Timeline.set_duration maxEnd (timeline s)) s) ;;;
   now0 <- newDate ;;
   modify (fun s => set_timeline (Timeline.set_updated now0 (timeline s)) s))%js.

Definition applyUndo (command : EditCommand.t) : M t unit := ret tt.
Definition applyRedo (command : EditCommand.t) : M t unit := ret tt.

(** ** Track operations *)

(** [tracks[i].index = i] for [i] from [k] to the end. *)
Fixpoint reindexFrom (k : Z) (i : Z) (l : list Track.t) : list Track.t :=
  match l with
  | [] => []
  | x :: r => (if k <=? i then Track.set_index i x else x) :: reindexFrom k (i + 1) r
  end.

Definition addTrack (track : TrackInput.t) : M t Track.t :=
  (id0 <- uuidv4 ;;
   let newTrack :=
     Track.mk id0 (TrackInput.name track) (TrackInput.type track)
       (TrackInput.index track) [] (TrackInput.muted track)
       (TrackInput.locked track) (TrackInput.visible track)
       (TrackInput.metadata track) in
   modify (fun s => set_timeline
     (Timeline.set_tracks (JS.splice (TrackInput.index track) 0 [newTrack] (tracks s))
                          (timeline s)) s) ;;;
   (* the loop starts at [index + 1]; below zero its first read of
      [tracks[i]] is [undefined] and the assignment throws *)
   (if TrackInput.index track + 1 <? 0 then
      throw "TypeError: Cannot set properties of undefined (setting 'index')"
    else
      modify (fun s => set_timeline
        (Timeline.set_tracks (reindexFrom (TrackInput.index track + 1) 0 (tracks s))
                             (timeline s)) s)) ;;;
   id1 <- uuidv4 ;;
   now0 <- newDate ;;
   executeCommand
     (EditCommand.mk id1 add_track now0 (AddTrackData newTrack)
        (Some (AddTrackUndo (Track.id newTrack)))) ;;;
   updateTimeline ;;;
   ret newTrack)%js.

(** ** Clip operations *)

Definition addClip (trackId : string) (clip : ClipInput.t) : M t (option ClipRef) :=
  (track <- getTrack trackId ;;
   match track with
   | None => ret None
   | Some track =>
       s <- get ;;
       if hasOverlap s (trackAt s track) (ClipInput.timelineRange clip) None then
         throw "Clip overlaps with existing clips"
       else
         id0 <- uuidv4 ;;
         newClip0 <- newClip
           (Clip.mk id0 (ClipInput.sourceId clip) (ClipInput.flowId clip) trackId
              (ClipInput.timelineRange clip) (ClipInput.sourceRange clip)
              (ClipInput.speed clip) (ClipInput.transitions clip)
              (ClipInput.effects clip) (ClipInput.metadata clip)) ;;
         s <- get ;;
         let insertIndex :=
           findClipInsertIndex s (trackAt s track)
             (start (Clip.timelineRange (clipObjects s newClip0))) in
         modifyTrack track (fun x =>
           Track.set_clips (JS.splice insertIndex 0 [newClip0] (Track.clips x)) x) ;;;
         id1 <- uuidv4 ;;
         now0 <- newDate ;;
         executeCommand
           (EditCommand.mk id1 add_clip now0 (AddClipData newClip0)
              (Some (AddClipUndo id0))) ;;;
         updateTimeline ;;;
         ret (Some newClip0)
   end)%js.

(** The first track, in order, holding a clip with the given id, with
    the clip's position in it. *)
Fixpoint removeClipSearch (s : t) (clipId : string) (r : TrackRef)
    (l : list Track.t) : option (TrackRef * Z) :=
  match l with
  | [] => None
  | track :: rest =>
      let clipIndex :=
        JS.findIndex (fun c => String.eqb (Clip.id (clipObjects s c)) clipId)
                     (Track.clips track) in
      if negb (clipIndex =? -1) then Some (r, clipIndex)
      else removeClipSearch s clipId (S r) rest
  end.

Definition removeClip (clipId : string) : M t bool :=
  (s <- get ;;
   match removeClipSearch s clipId O (tracks s) with
   | None => ret false
   | Some (track, clipIndex) =>
       let clip := JS.at_ (Track.clips (trackAt s track)) clipIndex in
       modifyTrack track (fun x =>
         Track.set_clips (JS.splice clipIndex 1 [] (Track.clips x)) x) ;;;
       id1 <- uuidv4 ;;
       now0 <- newDate ;;
       executeCommand
         (EditCommand.mk id1 remove_clip now0 (RemoveClipData clipId)
            (Some (RemoveClipUndo clip (Track.id (trackAt s track)) clipIndex))) ;;;
       updateTimeline ;;;
       ret true
   end)%js.

Definition moveClip (clipId newTrackId : string) (newTimelineStart : Timestamp) : M t bool :=
  (clip <- getClip clipId ;;
   match clip with
   | None => ret false
   | Some clip =>
       s <- get ;;
       sourceTrack <- getTrack (Clip.trackId (clipObjects s clip)) ;;
       targetTrack <- getTrack newTrackId ;;
       match sourceTrack, targetTrack with
       | Some sourceTrack, Some targetTrack =>
           let duration := TimestampUtils.duration (Clip.timelineRange (clipObjects s clip)) in
           let newTimelineRange :=
             mkTimeRange newTimelineStart (TimestampUtils.add newTimelineStart duration) in
           if hasOverlap s (trackAt s targetTrack) newTimelineRange (Some clipId) then
             throw "Cannot move clip: overlaps with existing clips"
           else
             let oldTrackId := Clip.trackId (clipObjects s clip) in
             let oldTimelineRange := Clip.timelineRange (clipObjects s clip) in
             s1 <- get ;;
             modifyTrack sourceTrack (fun x =>
               Track.set_clips
                 (filter (fun c => negb (String.eqb (Clip.id (clipObjects s1 c)) clipId))
                         (Track.clips x)) x) ;;;
             modifyClip clip (Clip.set_trackId newTrackId) ;;;
             modifyClip clip (Clip.set_timelineRange newTimelineRange) ;;;
             s2 <- get ;;
             let insertIndex := findClipInsertIndex s2 (trackAt s2 targetTrack) newTimelineStart in
             modifyTrack targetTrack (fun x =>
               Track.set_clips (JS.splice insertIndex 0 [clip] (Track.clips x)) x) ;;;
             id1 <- uuidv4 ;;
             now0 <- newDate ;;
             executeCommand
               (EditCommand.mk id1 move_clip now0
                  (MoveClipData clipId newTrackId newTimelineStart)
                  (Some (MoveClipUndo clipId oldTrackId oldTimelineRange))) ;;;
             updateTimeline ;;;
             ret true
       | _, _ => ret false
       end
   end)%js.

Definition byTimelineStart (s : t) (a b : ClipRef) : Z :=
  TimestampUtils.compare (start (Clip.timelineRange (clipObjects s a)))
                         (start (Clip.timelineRange (clipObjects s b))).

Definition trimClip (clipId : string)
    (newSourceRange newTimelineRange : option TimeRange) : M t bool :=
  (clip <- getClip clipId ;;
   match clip with
   | None => ret false
   | Some clip =>
       s <- get ;;
       track <- getTrack (Clip.trackId (clipObjects s clip)) ;;
       match track with
       | None => ret false
       | Some track =>
           let oldSourceRange := Clip.sourceRange (clipObjects s clip) in
           let oldTimelineRange := Clip.timelineRange (clipObjects s clip) in
           if match newTimelineRange with
              | Some r => hasOverlap s (trackAt s track) r (Some clipId)
              | None => false
              end
           then throw "Cannot trim clip: overlaps with existing clips"
           else
             match newSourceRange with
             | Some r => modifyClip clip (Clip.set_sourceRange r)
             | None => ret tt
             end ;;;
             match newTimelineRange with
             | Some r =>
                 modifyClip clip (Clip.set_timelineRange r) ;;;
                 s1 <- get ;;
                 modifyTrack track (fun x =>
                   Track.set_clips (JS.sort (byTimelineStart s1) (Track.clips x)) x)
             | None => ret tt
             end ;;;
             id1 <- uuidv4 ;;
             now0 <- newDate ;;
             executeCommand
               (EditCommand.mk id1 trim_clip now0
                  (TrimClipData clipId newSourceRange newTimelineRange)
                  (Some (TrimClipUndo clipId oldSourceRange oldTimelineRange))) ;;;
             updateTimeline ;;;
             ret true
       end
   end)%js.

Definition splitClip (clipId : string) (splitPoint : Timestamp) : M t (option (list ClipRef)) :=
  (clip <- getClip clipId ;;
   match clip with
   | None => ret None
   | Some clip =>
       s <- get ;;
       let original := clipObjects s clip in
       track <- getTrack (Clip.trackId original) ;;
       match track with
       | None => ret None
       | Some track =>
           if negb (TimestampUtils.isWithinRange splitPoint (Clip.timelineRange original)) then
             throw "Split point must be within clip timeline range"
           else
             let firstDuration :=
               TimestampUtils.subtract splitPoint (start (Clip.timelineRange original)) in
             let secondDuration :=
               TimestampUtils.subtract (end_ (Clip.timelineRange original)) splitPoint in
             id0 <- uuidv4 ;;
             firstClip <- newClip
               (Clip.mk id0 (Clip.sourceId original) (Clip.flowId original)
                  (Clip.trackId original)
                  (mkTimeRange (start (Clip.timelineRange original)) splitPoint)
                  (mkTimeRange (start (Clip.sourceRange original))
                     (TimestampUtils.add (start (Clip.sourceRange original)) firstDuration))
                  (Clip.speed original)
                  (Some (Transitions.mk
                     (match Clip.transitions original with
                      | Some x => Transitions.in_ x
                      | None => None
                      end)
                     None))
                  (Clip.effects original) (Clip.metadata original)) ;;
             id1 <- uuidv4 ;;
             secondClip <- newClip
               (Clip.mk id1 (Clip.sourceId original) (Clip.flowId original)
                  (Clip.trackId original)
                  (mkTimeRange splitPoint (end_ (Clip.timelineRange original)))
                  (mkTimeRange
                     (TimestampUtils.add (start (Clip.sourceRange original)) firstDuration)
                     (end_ (Clip.sourceRange original)))
                  (Clip.speed original)
                  (Some (Transitions.mk None
                     (match Clip.transitions original with
                      | Some x => Transitions.out x
                      | None => None
                      end)))
                  (Clip.effects original) (Clip.metadata original)) ;;
             s1 <- get ;;
             let clipIndex :=
               JS.findIndex (fun c => String.eqb (Clip.id (clipObjects s1 c)) clipId)
                            (Track.clips (trackAt s1 track)) in
             modifyTrack track (fun x =>
               Track.set_clips
                 (JS.splice clipIndex 1 [firstClip; secondClip] (Track.clips x)) x) ;;;
             id2 <- uuidv4 ;;
             now0 <- newDate ;;
             executeCommand
               (EditCommand.mk id2 split_clip now0
                  (SplitClipData clipId splitPoint id0 id1)
                  (Some (SplitClipUndo clip (Track.id (trackAt s1 track)) clipIndex))) ;;;
             updateTimeline ;;;
             ret (Some [firstClip; secondClip])
       end
   end)%js.

(** ** Marker operations *)

Definition addMarker (marker : MarkerInput.t) : M t Marker.t :=
  (id0 <- uuidv4 ;;
   let newMarker :=
     Marker.mk id0 (MarkerInput.timestamp marker) (MarkerInput.type marker)
       (MarkerInput.label marker) (MarkerInput.description marker)
       (MarkerInput.color marker) (MarkerInput.userId marker) in
   s <- get ;;
   let insertIndex :=
     JS.findIndex (fun m =>
         TimestampUtils.compare (Marker.timestamp m) (MarkerInput.timestamp marker) >? 0)
       (Timeline.markers (timeline s)) in
   (if insertIndex =? -1 then
      modify (fun s => set_timeline
        (Timeline.set_markers (JS.push newMarker (Timeline.markers (timeline s)))
                              (timeline s)) s)
    else
      modify (fun s => set_timeline
        (Timeline.set_markers
           (JS.splice insertIndex 0 [newMarker] (Timeline.markers (timeline s)))
           (timeline s)) s)) ;;;
   id1 <- uuidv4 ;;
   now0 <- newDate ;;
   executeCommand
     (EditCommand.mk id1 add_marker now0 (AddMarkerData newMarker)
        (Some (AddMarkerUndo id0))) ;;;
   ret newMarker)%js.

(** ** Undo and redo *)

Definition canUndo (s : t) : bool := historyIndex s >=? 0.
Definition canRedo (s : t) : bool := historyIndex s <? JS.len (history s) - 1.

(** [this.history[this.historyIndex]] read for [applyUndo]/[applyRedo],
    which evaluate [command.type]: on [undefined] that read throws. *)
Definition commandAt (s : t) : M t EditCommand.t :=
  match JS.at_ (history s) (historyIndex s) with
  | Some command => ret command
  | None => throw "TypeError: Cannot read properties of undefined (reading 'type')"
  end.

Definition undo : M t bool :=
  (s <- get ;;
   if negb (canUndo s) then ret false
   else
     command <- commandAt s ;;
     applyUndo command ;;;
     modify (fun s => set_historyIndex (historyIndex s - 1) s) ;;;
     updateTimeline ;;;
     ret true)%js.

Definition redo : M t bool :=
  (s <- get ;;
   if negb (canRedo s) then ret false
   else
     modify (fun s => set_historyIndex (historyIndex s + 1) s) ;;;
     s1 <- get ;;
     command <- commandAt s1 ;;
     applyRedo command ;;;
     updateTimeline ;;;
     ret true)%js.

End TimelineManager.

(* ================================================================== *)
(** * Properties of computations                                       *)
(* ================================================================== *)

Section Computations.
Context {S : Type}.

(** [m] keeps the invariant [P] of the store, however it completes. *)
Definition preserves (P : S -> Prop) {A} (m : M S A) : Prop :=
  forall w s, P s -> P (storeOf (m w s)).

(** [m] never writes to the store. *)
Definition readonly {A} (m : M S A) : Prop :=
  forall w s, storeOf (m w s) = s.

(** [m] always completes normally. *)
Definition nothrow {A} (m : M S A) : Prop :=
  forall w s, isThrow (completionOf (m w s)) = false.

(** Whenever [m] throws, the store is what it was before the call. *)
Definition atomic {A} (m : M S A) : Prop :=
  forall w s, isThrow (completionOf (m w s)) = true -> storeOf (m w s) = s.

(** From a store satisfying [P], [m] either returns [a] in a store
    satisfying [Q a] or throws in a store satisfying [E]. *)
Definition hoare (P : S -> Prop) {A} (m : M S A) (Q : A -> S -> Prop) (E : S -> Prop) : Prop :=
  forall w s, P s ->
    match completionOf (m w s) with
    | Normal a => Q a (storeOf (m w s))
    | Throw _ => E (storeOf (m w s))
    end.

End Computations.

(** Running a call and keeping the world and store it leaves behind,
    as a caller that catches a thrown error would. *)
Definition after {S A} (m : M S A) (ws : World * S) : World * S :=
  (worldOf (m (fst ws) (snd ws)), storeOf (m (fst ws) (snd ws))).

Definition resultOf {S A} (m : M S A) (ws : World * S) : Completion A :=
  completionOf (m (fst ws) (snd ws)).

(* ================================================================== *)
(** * Orderings on timestamps and ranges                               *)
(* ================================================================== *)

(** [a] is not later than [b], and [a] is strictly earlier than [b],
    as [compare] decides them. *)
Definition notAfter (a b : Timestamp) : Prop := TimestampUtils.compare a b <= 0.
Definition earlier (a b : Timestamp) : Prop := TimestampUtils.compare a b < 0.

(** The nanoseconds field is normalized. *)
Definition normalized (ts : Timestamp) : Prop :=
  0 <= nanoseconds ts < TimestampUtils.NANOSECONDS_PER_SECOND.


(* ================================================================== *)
(** * The invariant of a segment ledger                                *)
(* ================================================================== *)

(** Ascending by [timerange.start]: every segment starts no later than
    each segment after it. *)
Definition segmentsSorted (l : list FlowSegment.t) : Prop :=
  StronglySorted
    (fun a b => notAfter (start (FlowSegment.timerange a)) (start (FlowSegment.timerange b))) l.

(** No two segments at different positions overlap under the
    half-open test. *)
Definition segmentsDisjoint (l : list FlowSegment.t) : Prop :=
  ForallOrdPairs
    (fun a b => overlaps (FlowSegment.timerange a) (FlowSegment.timerange b) = false) l.

Definition ledgerInvariant (l : list FlowSegment.t) : Prop :=
  segmentsSorted l /\ segmentsDisjoint l.

(** [addSegment] called on each input in turn, stopping at the first
    call that throws: it completes normally exactly when every call
    succeeded. *)
Definition addSegments (this : FlowModel.Ref) (inputs : list SegmentInput.t)
    : M FlowModel.Heap unit :=
  forOf inputs (fun segment => bind (FlowModel.addSegment this segment) (fun _ => ret tt)).

(** The object behind a live reference [this] is [o]. *)
Definition holds (this : FlowModel.Ref) (o : FlowModel.t) (h : FlowModel.Heap) : Prop :=
  (this < FlowModel.allocated h)%nat /\ FlowModel.objects h this = o.

(* ================================================================== *)
(** * Ranges inside a ledger                                           *)
(* ================================================================== *)

(** A range that holds at least one instant. *)
Definition nonEmpty (r : TimeRange) : Prop := earlier (start r) (end_ r).

(** The part of a segment's range that [extractRange] keeps: from the
    later of the two starts to the earlier of the two ends. *)
Definition intersection (segmentRange range : TimeRange) : TimeRange :=
  mkTimeRange
    (if TimestampUtils.compare (start segmentRange) (start range) >? 0
     then start segmentRange else start range)
    (if TimestampUtils.compare (end_ segmentRange) (end_ range) <? 0
     then end_ segmentRange else end_ range).

(** [inner] lies within [outer]. *)
Definition within (inner outer : TimeRange) : Prop :=
  notAfter (start outer) (start inner) /\ notAfter (end_ inner) (end_ outer).



(* ================================================================== *)
(** * Sequences of calls on a TimelineManager                          *)
(* ================================================================== *)

(** One call of a public method of the manager.  Every mutator of the
    class reaches the history only through [executeCommand]; the calls
    listed are the methods modelled above. *)
Inductive Call :=
| CallAddTrack (track : TrackInput.t)
| CallAddClip (trackId : string) (clip : ClipInput.t)
| CallRemoveClip (clipId : string)
| CallMoveClip (clipId newTrackId : string) (newTimelineStart : Timestamp)
| CallTrimClip (clipId : string) (newSourceRange newTimelineRange : option TimeRange)
| CallSplitClip (clipId : string) (splitPoint : Timestamp)
| CallAddMarker (marker : MarkerInput.t)
| CallUndo
| CallRedo.

Definition discard {S A} (m : M S A) : M S unit := bind m (fun _ => ret tt).

Definition perform (c : Call) : M TimelineManager.t unit :=
  match c with
  | CallAddTrack track => discard (TimelineManager.addTrack track)
  | CallAddClip trackId clip => discard (TimelineManager.addClip trackId clip)
  | CallRemoveClip clipId => discard (TimelineManager.removeClip clipId)
  | CallMoveClip clipId newTrackId newTimelineStart =>
      discard (TimelineManager.moveClip clipId newTrackId newTimelineStart)
  | CallTrimClip clipId newSourceRange newTimelineRange =>
      discard (TimelineManager.trimClip clipId newSourceRange newTimelineRange)
  | CallSplitClip clipId splitPoint => discard (TimelineManager.splitClip clipId splitPoint)
  | CallAddMarker marker => discard (TimelineManager.addMarker marker)
  | CallUndo => discard TimelineManager.undo
  | CallRedo => discard TimelineManager.redo
  end.

(** The calls in order; a call that throws leaves its store to the next. *)
Fixpoint performAll (cs : list Call) (ws : World * TimelineManager.t) : World * TimelineManager.t :=
  match cs with
  | [] => ws
  | c :: r => performAll r (after (perform c) ws)
  end.

(** The number of consecutive [undo()] calls that return [true], at
    most [fuel] of them: the undo steps available. *)
Fixpoint undoSteps (fuel : nat) (ws : World * TimelineManager.t) : nat :=
  match fuel with
  | O => O
  | Datatypes.S f =>
      match resultOf TimelineManager.undo ws with
      | Normal true => Datatypes.S (undoSteps f (after TimelineManager.undo ws))
      | _ => O
      end
  end.

(** The cursor points at a recorded command or just before the first,
    and the list respects the cap [cap] the manager was built with. *)
Definition historyInvariant (cap : Z) (s : TimelineManager.t) : Prop :=
  -1 <= TimelineManager.historyIndex s < JS.len (TimelineManager.history s) /\
  JS.len (TimelineManager.history s) <= cap /\
  0 < cap /\
  TimelineManager.maxHistorySize s = cap.

(* ================================================================== *)
(** * Observations of a timeline                                       *)
(* ================================================================== *)

(** The clips of a track, read through the store, and their starts. *)
Definition clipsOf (s : TimelineManager.t) (r : TimelineManager.TrackRef) : list Clip.t :=
  map (TimelineManager.clipObjects s) (Track.clips (TimelineManager.trackAt s r)).

Definition timelineStarts (s : TimelineManager.t) (r : TimelineManager.TrackRef) : list Timestamp :=
  map (fun c => start (Clip.timelineRange c)) (clipsOf s r).

(** Ascending order of a list of timestamps, as [compare] decides it. *)
Fixpoint ascending (l : list Timestamp) : bool :=
  match l with
  | a :: (b :: _) as r => (TimestampUtils.compare a b <=? 0) && ascending r
  | _ => true
  end.

(** What a user of the manager can observe of the timeline: every
    track with its clips, the markers, and the derived duration. *)
Definition observable (s : TimelineManager.t)
    : list (Track.t * list Clip.t) * list Marker.t * Timestamp :=
  (map (fun x => (x, map (TimelineManager.clipObjects s) (Track.clips x)))
       (TimelineManager.tracks s),
   Timeline.markers (TimelineManager.timeline s),
   TimelineManager.getDuration s).

(* ================================================================== *)
(** * Invariants of a timeline                                         *)
(* ================================================================== *)

(** Markers ascending by timestamp: every marker is no later than each
    marker after it. *)
Definition markersSorted (l : list Marker.t) : Prop :=
  StronglySorted (fun a b => notAfter (Marker.timestamp a) (Marker.timestamp b)) l.

(** Every clip reference held by a track is a clip object of the store. *)
Definition clipsLive (s : TimelineManager.t) : Prop :=
  forall track c, In track (TimelineManager.tracks s) -> In c (Track.clips track) ->
    (c < TimelineManager.allocated s)%nat.

(** No two clips of one track overlap under the half-open test. *)
Definition clipsDisjoint (s : TimelineManager.t) : Prop :=
  forall track, In track (TimelineManager.tracks s) ->
    ForallOrdPairs
      (fun a b =>
         overlaps (Clip.timelineRange (TimelineManager.clipObjects s a))
                  (Clip.timelineRange (TimelineManager.clipObjects s b)) = false)
      (Track.clips track).

(** Every track's [index] is its position in [timeline.tracks]. *)
Definition tracksIndexed (l : list Track.t) : Prop :=
  forall i track, nth_error l i = Some track -> Track.index track = Z.of_nat i.

(* ================================================================== *)
(** * Concrete worlds and stores                                       *)
(* ================================================================== *)

Module Examples.

Definition uuidOf (n : nat) : string := ("uuid-" ++ JS.showInt (Z.of_nat n))%string.

Definition world : World := mkWorld uuidOf (fun n => Z.of_nat n) 0 0.

Definition at_s (n : Z) : Timestamp := TimestampUtils.create n 0.

Definition range (a b : Z) : TimeRange := mkTimeRange (at_s a) (at_s b).

(** An empty timeline and the manager built on it. *)
Definition emptyTimeline : Timeline.t :=
  Timeline.mk "timeline-1" "project-1" (at_s 0) [] [] 0 0.

Definition noClip : Clip.t :=
  Clip.mk "" "" "" "" (range 0 0) (range 0 0) 1 None [] None.

Definition manager0 : World * TimelineManager.t :=
  (world, TimelineManager.constructor emptyTimeline (fun _ => noClip) 0).

(** One video track, added by [addTrack]; its id is the first uuid. *)
Definition videoTrack : TrackInput.t :=
  TrackInput.mk "Video 1" TrackType.video 0 false false true None.

Definition withTrack : World * TimelineManager.t :=
  after (TimelineManager.addTrack videoTrack) manager0.

Definition clipInput (timelineRange sourceRange : TimeRange) : ClipInput.t :=
  ClipInput.mk "source-1" "flow-1" timelineRange sourceRange 1 None [] None.

(** A clip on [0 s, 5 s), then a later one on [5 s, 10 s). *)
Definition withClipA : World * TimelineManager.t :=
  after (TimelineManager.addClip "uuid-0" (clipInput (range 0 5) (range 0 5))) withTrack.

Definition withClipsAB : World * TimelineManager.t :=
  after (TimelineManager.addClip "uuid-0" (clipInput (range 5 10) (range 0 5))) withClipA.

(** The clip of the split example: timeline [0 s, 10 s), source
    [5 s, 15 s); its id is the third uuid drawn. *)
Definition withClip10 : World * TimelineManager.t :=
  after (TimelineManager.addClip "uuid-0" (clipInput (range 0 10) (range 5 15))) withTrack.


(** A store of flows holding one new, empty Flow at reference 0. *)
Definition noFlow : FlowModel.t :=
  FlowModel.mk "" None None None (mkFlowFormat FlowType.video []) [] 0 0 0 [].

Definition flows0 : World * FlowModel.Heap := (world, FlowModel.mkHeap (fun _ => noFlow) 0).

Definition withFlow : World * FlowModel.Heap :=
  after (FlowModel.constructor FlowData.empty) flows0.

Definition segmentInput (id : string) (timerange : TimeRange) : SegmentInput.t :=
  SegmentInput.mk id timerange ["cid-1"%string] None None (Some timerange).

(** Segments on [0 s, 10 s) and then on [10 s, 15 s). *)
Definition withSegment : World * FlowModel.Heap :=
  after (FlowModel.addSegment 0%nat (segmentInput "seg-1" (range 0 10))) withFlow.

Definition withSegments : World * FlowModel.Heap :=
  after (FlowModel.addSegment 0%nat (segmentInput "seg-2" (range 10 15))) withSegment.

Definition markerAt (i : nat) : MarkerInput.t :=
  MarkerInput.mk (at_s (Z.of_nat i)) MarkerType.comment "Marker" None None None.

Definition after150Markers : World * TimelineManager.t :=
  performAll (map (fun i => CallAddMarker (markerAt i)) (seq 0 150)) manager0.

End Examples.

(* ================================================================== *)
(** * Facts about the runtime fragments                                *)
(* ================================================================== *)

(** ** The ordering decided by [compare] *)

Ltac compare_cases :=
  unfold notAfter, earlier, TimestampUtils.compare in *;
  repeat match goal with
         | |- context [?a <? ?b] => destruct (Z.ltb_spec a b)
         | |- context [?a >? ?b] => rewrite (Z.gtb_ltb a b)
         | H : context [?a <? ?b] |- _ => destruct (Z.ltb_spec a b)
         | H : context [?a >? ?b] |- _ => rewrite (Z.gtb_ltb a b) in H
         end.

Lemma compare_range a b :
  TimestampUtils.compare a b = -1 \/ TimestampUtils.compare a b = 0 \/
  TimestampUtils.compare a b = 1.
Proof. compare_cases; lia. Qed.

Lemma compare_refl a : TimestampUtils.compare a a = 0.
Proof. compare_cases; lia. Qed.

Lemma compare_antisym a b :
  TimestampUtils.compare a b = - TimestampUtils.compare b a.
Proof. compare_cases; lia. Qed.

Lemma compare_eq a b : TimestampUtils.compare a b = 0 -> a = b.
Proof.
  destruct a as [sa na], b as [sb nb]; simpl.
  intros H. compare_cases; simpl in *; try lia.
  f_equal; lia.
Qed.

Lemma notAfter_trans a b c : notAfter a b -> notAfter b c -> notAfter a c.
Proof. intros H1 H2. compare_cases; lia. Qed.

Lemma notAfter_total a b : TimestampUtils.compare a b > 0 -> notAfter b a.
Proof. intros H. compare_cases; lia. Qed.

Lemma earlier_notAfter_trans a b c : earlier a b -> notAfter b c -> earlier a c.
Proof. intros H1 H2. compare_cases; lia. Qed.

Lemma isWithinRange_spec ts r :
  TimestampUtils.isWithinRange ts r = true <->
  notAfter (start r) ts /\ earlier ts (end_ r).
Proof.
  unfold TimestampUtils.isWithinRange, notAfter, earlier.
  rewrite andb_true_iff, Z.geb_le, Z.ltb_lt.
  rewrite (compare_antisym (start r) ts). lia.
Qed.

(** The overlap test does not depend on the order of its arguments. *)
Lemma overlaps_sym a b : overlaps a b = overlaps b a.
Proof.
  unfold overlaps.
  rewrite (compare_antisym (start a) (end_ b)), (compare_antisym (end_ a) (start b)).
  rewrite !Z.gtb_ltb.
  destruct (Z.ltb_spec (- TimestampUtils.compare (end_ b) (start a)) 0),
           (Z.ltb_spec 0 (- TimestampUtils.compare (start b) (end_ a))),
           (Z.ltb_spec (TimestampUtils.compare (start b) (end_ a)) 0),
           (Z.ltb_spec 0 (TimestampUtils.compare (end_ b) (start a)));
    simpl; try reflexivity; lia.
Qed.

(** ** [create] *)

(** For a nanoseconds argument that is not negative, [create]
    normalizes, and folding the overflow by floor division first gives
    the same timestamp. *)
Lemma create_normalized_of_nonneg s ns :
  0 <= ns ->
  normalized (TimestampUtils.create s ns) /\
  TimestampUtils.create s ns =
  TimestampUtils.create (s + ns / TimestampUtils.NANOSECONDS_PER_SECOND)
                        (ns mod TimestampUtils.NANOSECONDS_PER_SECOND).
Proof.
  intros Hns. unfold normalized, TimestampUtils.create, TimestampUtils.NANOSECONDS_PER_SECOND.
  simpl. rewrite Z.rem_mod_nonneg by lia.
  pose proof (Z.mod_pos_bound ns 1000000000 ltac:(lia)) as Hb.
  split; [exact Hb|].
  rewrite (Z.rem_mod_nonneg (ns mod 1000000000)) by lia.
  rewrite Z.mod_mod by lia.
  rewrite (Z.div_small (ns mod 1000000000)) by lia.
  f_equal. lia.
Qed.

(** C6 (the code departs from the claim).  [create] folds whole seconds
    out of the nanoseconds by floor division but takes the remainder
    with the sign of the dividend: for the arguments [(0, -1)] it
    returns seconds [-1] and nanoseconds [-1], a nanoseconds field
    outside [0, 1e9), and a value different from
    [create (0 + (-1) div 1e9) ((-1) mod 1e9)], whose nanoseconds are
    [999999999].  The concrete instance of the claim, with a positive
    overflow, holds: [create 10 1500000000] is [11 s, 500000000 ns]. *)
Theorem create_negative_nanoseconds_not_normalized :
  TimestampUtils.create 0 (-1) = {| seconds := -1; nanoseconds := -1 |} /\
  (nanoseconds (TimestampUtils.create 0 (-1)) <? 0) = true /\
  TimestampUtils.create (0 + (-1) / TimestampUtils.NANOSECONDS_PER_SECOND)
                        ((-1) mod TimestampUtils.NANOSECONDS_PER_SECOND)
    = {| seconds := -1; nanoseconds := 999999999 |} /\
  TimestampUtils.create 10 1500000000 = {| seconds := 11; nanoseconds := 500000000 |}.
Proof. repeat split. Qed.

(** ** [add] and [subtract] on normalized timestamps *)

Lemma normalized_create_small s ns :
  0 <= ns < TimestampUtils.NANOSECONDS_PER_SECOND ->
  TimestampUtils.create s ns = mkTimestamp s ns.
Proof.
  unfold TimestampUtils.create, TimestampUtils.NANOSECONDS_PER_SECOND. intros H.
  rewrite Z.div_small, Z.rem_small by lia. f_equal. lia.
Qed.

Lemma add_run a b :
  normalized a -> normalized b ->
  TimestampUtils.add a b =
  if nanoseconds a + nanoseconds b <? TimestampUtils.NANOSECONDS_PER_SECOND
  then mkTimestamp (seconds a + seconds b) (nanoseconds a + nanoseconds b)
  else mkTimestamp (seconds a + seconds b + 1)
         (nanoseconds a + nanoseconds b - TimestampUtils.NANOSECONDS_PER_SECOND).
Proof.
  unfold normalized, TimestampUtils.add, TimestampUtils.create,
    TimestampUtils.NANOSECONDS_PER_SECOND.
  intros Ha Hb.
  destruct (Z.ltb_spec (nanoseconds a + nanoseconds b) 1000000000) as [Hlt|Hge].
  - rewrite Z.div_small, Z.rem_small by lia. f_equal. lia.
  - rewrite Z.rem_mod_nonneg by lia.
    assert (Hq : (nanoseconds a + nanoseconds b) / 1000000000 = 1).
    { symmetry. apply (Z.div_unique _ _ 1 (nanoseconds a + nanoseconds b - 1000000000)); lia. }
    assert (Hr : (nanoseconds a + nanoseconds b) mod 1000000000
                 = nanoseconds a + nanoseconds b - 1000000000).
    { symmetry. apply (Z.mod_unique _ _ 1); lia. }
    rewrite Hq, Hr. reflexivity.
Qed.

Lemma subtract_run a b :
  TimestampUtils.subtract a b =
  if nanoseconds a - nanoseconds b <? 0
  then mkTimestamp (seconds a - seconds b - 1)
         (nanoseconds a - nanoseconds b + TimestampUtils.NANOSECONDS_PER_SECOND)
  else mkTimestamp (seconds a - seconds b) (nanoseconds a - nanoseconds b).
Proof. reflexivity. Qed.

Lemma subtract_normalized a b :
  normalized a -> normalized b -> normalized (TimestampUtils.subtract a b).
Proof.
  intros Ha Hb. rewrite subtract_run.
  unfold normalized, TimestampUtils.NANOSECONDS_PER_SECOND in *.
  destruct (Z.ltb_spec (nanoseconds a - nanoseconds b) 0); simpl; lia.
Qed.

Lemma subtract_add_cancel_l a b :
  normalized a -> normalized b ->
  TimestampUtils.subtract (TimestampUtils.add a b) a = b.
Proof.
  intros Ha Hb. rewrite (add_run a b Ha Hb). rewrite subtract_run.
  destruct a as [sa na], b as [sb nb].
  unfold normalized, TimestampUtils.NANOSECONDS_PER_SECOND in *; simpl in *.
  destruct (Z.ltb_spec (na + nb) 1000000000); simpl.
  - destruct (Z.ltb_spec (na + nb - na) 0); [lia|]. f_equal; lia.
  - destruct (Z.ltb_spec (na + nb - 1000000000 - na) 0); [|lia]. f_equal; lia.
Qed.

(** ** [fromString] *)

(** [fromString] reads only the first two components of the split
    string: whatever follows a second colon is ignored. *)
Lemma fromString_reads_two_components str :
  TimestampUtils.fromString str =
  match JS.split ":"%char str with
  | a :: b :: _ =>
      match JS.Number a, JS.Number b with
      | Some s, Some ns => Normal (TimestampUtils.create s ns)
      | _, _ => Throw ("Invalid timestamp string: " ++ str)%string
      end
  | _ => Throw ("Invalid timestamp string: " ++ str)%string
  end.
Proof.
  unfold TimestampUtils.fromString.
  destruct (JS.split ":"%char str) as [|a [|b rest]]; simpl; try reflexivity.
  - destruct (JS.Number a); reflexivity.
  - destruct (JS.Number a), (JS.Number b); reflexivity.
Qed.

(** C7 (the code departs from the claim).  [fromString] destructures the
    first two components of [str.split(':')] and never looks at the
    number of components: on ["1:2:3"] it returns the timestamp
    [1 s, 2 ns] instead of throwing.  Strings with one component, or with
    a component that is not a number, do throw. *)
Theorem fromString_accepts_three_components :
  TimestampUtils.fromString "1:2:3" = Normal {| seconds := 1; nanoseconds := 2 |} /\
  TimestampUtils.fromString "1:2" = Normal {| seconds := 1; nanoseconds := 2 |} /\
  TimestampUtils.fromString "invalid" = Throw "Invalid timestamp string: invalid" /\
  TimestampUtils.fromString "123:abc" = Throw "Invalid timestamp string: 123:abc".
Proof. repeat split. Qed.

(* ================================================================== *)
(** * Rules for the properties of computations                         *)
(* ================================================================== *)

Section Rules.
Context {S : Type}.

Lemma bind_run {A B} (m : M S A) (k : A -> M S B) w s :
  bind m k w s =
  match completionOf (m w s) with
  | Normal a => k a (worldOf (m w s)) (storeOf (m w s))
  | Throw e => (worldOf (m w s), storeOf (m w s), Throw e)
  end.
Proof.
  unfold bind, completionOf, worldOf, storeOf.
  destruct (m w s) as [[w' s'] [a|e]]; reflexivity.
Qed.

Lemma preserves_bind (P : S -> Prop) {A B} (m : M S A) (k : A -> M S B) :
  preserves P m -> (forall a, preserves P (k a)) -> preserves P (bind m k).
Proof.
  intros Hm Hk w s Hs. rewrite bind_run.
  specialize (Hm w s Hs).
  destruct (completionOf (m w s)); [apply Hk; exact Hm | exact Hm].
Qed.

Lemma preserves_ret (P : S -> Prop) {A} (a : A) : preserves P (ret a).
Proof. intros w s Hs; exact Hs. Qed.

Lemma preserves_throw (P : S -> Prop) {A} e : preserves P (@throw S A e).
Proof. intros w s Hs; exact Hs. Qed.

Lemma preserves_get (P : S -> Prop) : preserves P get.
Proof. intros w s Hs; exact Hs. Qed.

Lemma preserves_uuidv4 (P : S -> Prop) : preserves P uuidv4.
Proof. intros w s Hs; exact Hs. Qed.

Lemma preserves_newDate (P : S -> Prop) : preserves P newDate.
Proof. intros w s Hs; exact Hs. Qed.

Lemma preserves_modify (P : S -> Prop) (f : S -> S) :
  (forall s, P s -> P (f s)) -> preserves P (modify f).
Proof. intros Hf w s Hs; apply Hf; exact Hs. Qed.

Lemma preserves_forOf (P : S -> Prop) {A} (l : list A) (body : A -> M S unit) :
  (forall x, preserves P (body x)) -> preserves P (forOf l body).
Proof.
  intros Hb. induction l as [|x r IH]; simpl.
  - apply preserves_ret.
  - apply preserves_bind; [apply Hb | intros _; exact IH].
Qed.

Lemma preserves_mapM (P : S -> Prop) {A B} (f : A -> M S B) (l : list A) :
  (forall x, preserves P (f x)) -> preserves P (mapM f l).
Proof.
  intros Hf. induction l as [|x r IH]; simpl.
  - apply preserves_ret.
  - apply preserves_bind; [apply Hf | intros y].
    apply preserves_bind; [exact IH | intros ys; apply preserves_ret].
Qed.

Lemma readonly_preserves {A} (m : M S A) (P : S -> Prop) :
  readonly m -> preserves P m.
Proof. intros Hm w s Hs. rewrite Hm. exact Hs. Qed.

Lemma readonly_ret {A} (a : A) : readonly (@ret S A a).
Proof. intros w s; reflexivity. Qed.

Lemma readonly_get : readonly (@get S).
Proof. intros w s; reflexivity. Qed.

Lemma readonly_uuidv4 : readonly (@uuidv4 S).
Proof. intros w s; reflexivity. Qed.

Lemma readonly_newDate : readonly (@newDate S).
Proof. intros w s; reflexivity. Qed.

Lemma readonly_bind {A B} (m : M S A) (k : A -> M S B) :
  readonly m -> (forall a, readonly (k a)) -> readonly (bind m k).
Proof.
  intros Hm Hk w s. rewrite bind_run.
  destruct (completionOf (m w s)) eqn:E.
  - rewrite Hk. apply Hm.
  - apply Hm.
Qed.

Lemma nothrow_ret {A} (a : A) : nothrow (@ret S A a).
Proof. intros w s; reflexivity. Qed.

Lemma nothrow_get : nothrow (@get S).
Proof. intros w s; reflexivity. Qed.

Lemma nothrow_modify (f : S -> S) : nothrow (modify f).
Proof. intros w s; reflexivity. Qed.

Lemma nothrow_uuidv4 : nothrow (@uuidv4 S).
Proof. intros w s; reflexivity. Qed.

Lemma nothrow_newDate : nothrow (@newDate S).
Proof. intros w s; reflexivity. Qed.

Lemma nothrow_bind {A B} (m : M S A) (k : A -> M S B) :
  nothrow m -> (forall a, nothrow (k a)) -> nothrow (bind m k).
Proof.
  intros Hm Hk w s. rewrite bind_run.
  specialize (Hm w s).
  destruct (completionOf (m w s)); [apply Hk | discriminate Hm].
Qed.

Lemma atomic_of_nothrow {A} (m : M S A) : nothrow m -> atomic m.
Proof. intros Hm w s H. rewrite Hm in H. discriminate H. Qed.

Lemma atomic_of_readonly {A} (m : M S A) : readonly m -> atomic m.
Proof. intros Hm w s _. apply Hm. Qed.

Lemma atomic_throw {A} e : atomic (@throw S A e).
Proof. intros w s _; reflexivity. Qed.

Lemma atomic_ret {A} (a : A) : atomic (@ret S A a).
Proof. intros w s _; reflexivity. Qed.

(** A read-only prefix keeps a computation atomic: this is
    validation before mutation. *)
Lemma atomic_bind {A B} (m : M S A) (k : A -> M S B) :
  readonly m -> (forall a, atomic (k a)) -> atomic (bind m k).
Proof.
  intros Hm Hk w s. rewrite bind_run.
  pose proof (Hm w s) as Es.
  destruct (completionOf (m w s)) eqn:E.
  - rewrite Es. apply Hk.
  - intros _. exact Es.
Qed.

End Rules.

(* ================================================================== *)
(** * The command history                                              *)
(* ================================================================== *)

(** ** Arrays: lengths of slices *)

Lemma len_nonneg {A} (l : list A) : 0 <= JS.len l.
Proof. unfold JS.len. lia. Qed.

Lemma len_push {A} (x : A) (l : list A) : JS.len (JS.push x l) = JS.len l + 1.
Proof. unfold JS.len, JS.push. rewrite length_app. simpl. lia. Qed.

Lemma slice_prefix {A} (e : Z) (l : list A) :
  0 <= e <= JS.len l -> JS.slice 0 e l = firstn (Z.to_nat e) l.
Proof.
  intros He. unfold JS.slice, JS.relIndex.
  pose proof (len_nonneg l).
  replace (0 <? 0) with false by reflexivity.
  destruct (Z.ltb_spec e 0); [lia|].
  rewrite Z.min_l by lia. rewrite Z.min_l by lia.
  simpl. f_equal. lia.
Qed.

Lemma len_firstn {A} (e : Z) (l : list A) :
  0 <= e <= JS.len l -> JS.len (firstn (Z.to_nat e) l) = e.
Proof.
  intros He. unfold JS.len in *. rewrite length_firstn. lia.
Qed.

Lemma sliceFrom_last {A} (m : Z) (l : list A) :
  0 < m <= JS.len l -> JS.sliceFrom (- m) l = skipn (Z.to_nat (JS.len l - m)) l.
Proof.
  intros Hm. unfold JS.sliceFrom, JS.relIndex.
  destruct (Z.ltb_spec (- m) 0); [|lia].
  rewrite Z.max_l by lia. reflexivity.
Qed.

Lemma len_skipn {A} (k : Z) (l : list A) :
  0 <= k <= JS.len l -> JS.len (skipn (Z.to_nat k) l) = JS.len l - k.
Proof.
  intros Hk. unfold JS.len in *. rewrite length_skipn. lia.
Qed.

(** ** [executeCommand] *)

(** The history and cursor [executeCommand] leaves. *)
Lemma executeCommand_run command w s :
  TimelineManager.executeCommand command w s =
  (w,
   let kept := JS.push command
       (JS.slice 0 (TimelineManager.historyIndex s + 1) (TimelineManager.history s)) in
   let over := JS.len kept >? TimelineManager.maxHistorySize s in
   let history' :=
     if over then JS.sliceFrom (- TimelineManager.maxHistorySize s) kept else kept in
   TimelineManager.mk (TimelineManager.timeline s) (TimelineManager.state s)
     history'
     (if over then JS.len history' - 1 else TimelineManager.historyIndex s + 1)
     (TimelineManager.maxHistorySize s)
     (TimelineManager.clipObjects s) (TimelineManager.allocated s),
   Normal tt).
Proof.
  unfold TimelineManager.executeCommand.
  cbv [bind modify get ret TimelineManager.set_history TimelineManager.set_historyIndex
       TimelineManager.history TimelineManager.historyIndex TimelineManager.maxHistorySize
       TimelineManager.timeline TimelineManager.state TimelineManager.clipObjects
       TimelineManager.allocated].
  destruct s as [tl st h i m co al].
  match goal with |- context [JS.len ?k >? m] => destruct (JS.len k >? m) end; reflexivity.
Qed.

(** Recording a command keeps the history within its cap, leaves the
    cursor on the new last command, and keeps nothing of what was
    after the cursor: the new list is a suffix of the commands up to
    the cursor followed by the new one. *)
Lemma executeCommand_history cap command w s :
  historyInvariant cap s ->
  let s' := storeOf (TimelineManager.executeCommand command w s) in
  historyInvariant cap s' /\
  TimelineManager.historyIndex s' = JS.len (TimelineManager.history s') - 1 /\
  exists dropped,
    firstn (Z.to_nat (TimelineManager.historyIndex s + 1)) (TimelineManager.history s)
      ++ [command]
    = dropped ++ TimelineManager.history s'.
Proof.
  intros (Hi & Hl & Hm & Hc). subst cap. rewrite executeCommand_run. unfold storeOf; simpl.
  rewrite slice_prefix by lia.
  set (kept := firstn (Z.to_nat (TimelineManager.historyIndex s + 1)) (TimelineManager.history s)).
  assert (Hk : JS.len kept = TimelineManager.historyIndex s + 1)
    by (apply len_firstn; lia).
  assert (Hp : JS.len (JS.push command kept) = TimelineManager.historyIndex s + 2)
    by (rewrite len_push; lia).
  rewrite Z.gtb_ltb.
  destruct (Z.ltb_spec (TimelineManager.maxHistorySize s) (JS.len (JS.push command kept))) as [Hgt|Hle].
  - rewrite sliceFrom_last by lia.
    unfold historyInvariant; simpl.
    rewrite len_skipn by (pose proof (len_nonneg (JS.push command kept)); lia).
    repeat split; try lia.
    exists (firstn (Z.to_nat (JS.len (JS.push command kept) - TimelineManager.maxHistorySize s))
                   (JS.push command kept)).
    unfold JS.push. symmetry. apply firstn_skipn.
  - unfold historyInvariant; simpl. rewrite Hp.
    repeat split; try lia.
    exists []. reflexivity.
Qed.

Lemma historyInvariant_same cap s s' :
  TimelineManager.history s' = TimelineManager.history s ->
  TimelineManager.historyIndex s' = TimelineManager.historyIndex s ->
  TimelineManager.maxHistorySize s' = TimelineManager.maxHistorySize s ->
  historyInvariant cap s -> historyInvariant cap s'.
Proof. unfold historyInvariant. intros -> -> ->. trivial. Qed.

Ltac history_frame :=
  intros; eapply historyInvariant_same; [reflexivity | reflexivity | reflexivity | assumption].

Lemma executeCommand_preserves cap command :
  preserves (historyInvariant cap) (TimelineManager.executeCommand command).
Proof. intros w s Hs. apply (executeCommand_history cap command w s Hs). Qed.

Lemma updateTimeline_preserves cap : preserves (historyInvariant cap) TimelineManager.updateTimeline.
Proof.
  unfold TimelineManager.updateTimeline.
  apply preserves_bind; [apply preserves_get | intros s0].
  cbv zeta.
  apply preserves_bind; [apply preserves_modify; history_frame | intros _].
  apply preserves_bind; [apply preserves_newDate | intros d].
  apply preserves_modify; history_frame.
Qed.

Lemma modifyTrack_preserves cap r f : preserves (historyInvariant cap) (TimelineManager.modifyTrack r f).
Proof. apply preserves_modify; history_frame. Qed.

Lemma modifyClip_preserves cap c f : preserves (historyInvariant cap) (TimelineManager.modifyClip c f).
Proof. apply preserves_modify; history_frame. Qed.

Lemma newClip_preserves cap o : preserves (historyInvariant cap) (TimelineManager.newClip o).
Proof. intros w s Hs. unfold TimelineManager.newClip, storeOf; simpl. revert Hs. history_frame. Qed.

Ltac preserves_step :=
  first
    [ apply preserves_ret | apply preserves_throw | apply preserves_get
    | apply preserves_uuidv4 | apply preserves_newDate
    | apply executeCommand_preserves | apply updateTimeline_preserves
    | apply modifyTrack_preserves | apply modifyClip_preserves | apply newClip_preserves
    | apply preserves_modify; history_frame
    | apply preserves_bind; [| intros ?]
    | match goal with
      | |- preserves _ (match ?x with _ => _ end) => destruct x
      | |- preserves _ (let _ := _ in _) => cbv zeta
      end ].

Ltac preserves_all := repeat preserves_step.

Lemma addTrack_preserves cap track : preserves (historyInvariant cap) (TimelineManager.addTrack track).
Proof. unfold TimelineManager.addTrack. preserves_all. Qed.

Lemma addClip_preserves cap trackId clip :
  preserves (historyInvariant cap) (TimelineManager.addClip trackId clip).
Proof. unfold TimelineManager.addClip, TimelineManager.getTrack. preserves_all. Qed.

Lemma removeClip_preserves cap clipId : preserves (historyInvariant cap) (TimelineManager.removeClip clipId).
Proof. unfold TimelineManager.removeClip. preserves_all. Qed.

Lemma moveClip_preserves cap clipId newTrackId newTimelineStart :
  preserves (historyInvariant cap) (TimelineManager.moveClip clipId newTrackId newTimelineStart).
Proof.
  unfold TimelineManager.moveClip, TimelineManager.getTrack, TimelineManager.getClip.
  preserves_all.
Qed.

Lemma trimClip_preserves cap clipId newSourceRange newTimelineRange :
  preserves (historyInvariant cap) (TimelineManager.trimClip clipId newSourceRange newTimelineRange).
Proof.
  unfold TimelineManager.trimClip, TimelineManager.getTrack, TimelineManager.getClip.
  preserves_all.
Qed.

Lemma splitClip_preserves cap clipId splitPoint :
  preserves (historyInvariant cap) (TimelineManager.splitClip clipId splitPoint).
Proof.
  unfold TimelineManager.splitClip, TimelineManager.getTrack, TimelineManager.getClip.
  preserves_all.
Qed.

Lemma addMarker_preserves cap marker : preserves (historyInvariant cap) (TimelineManager.addMarker marker).
Proof. unfold TimelineManager.addMarker. preserves_all. Qed.

Lemma updateTimeline_run w s :
  TimelineManager.updateTimeline w s =
  (mkWorld (uuidSource w) (clockSource w) (uuidCount w) (S (clockCount w)),
   TimelineManager.set_timeline
     (Timeline.set_updated (clockSource w (clockCount w))
        (Timeline.set_duration (TimelineManager.maxEndOf s) (TimelineManager.timeline s)))
     s,
   Normal tt).
Proof. reflexivity. Qed.

(** [undo] either reports [false], or moves the cursor one step back and
    refreshes the derived fields. *)
Lemma undo_run w s :
  TimelineManager.undo w s =
  if TimelineManager.canUndo s then
    match JS.at_ (TimelineManager.history s) (TimelineManager.historyIndex s) with
    | Some _ =>
        (worldOf (TimelineManager.updateTimeline w s),
         storeOf (TimelineManager.updateTimeline w
                    (TimelineManager.set_historyIndex (TimelineManager.historyIndex s - 1) s)),
         Normal true)
    | None => (w, s, Throw "TypeError: Cannot read properties of undefined (reading 'type')")
    end
  else (w, s, Normal false).
Proof.
  unfold TimelineManager.undo, TimelineManager.commandAt, TimelineManager.applyUndo.
  cbv [bind get ret].
  destruct (TimelineManager.canUndo s); simpl; [|reflexivity].
  destruct (JS.at_ (TimelineManager.history s) (TimelineManager.historyIndex s)); reflexivity.
Qed.

Lemma redo_run w s :
  TimelineManager.redo w s =
  if TimelineManager.canRedo s then
    match JS.at_ (TimelineManager.history s) (TimelineManager.historyIndex s + 1) with
    | Some _ =>
        (worldOf (TimelineManager.updateTimeline w s),
         storeOf (TimelineManager.updateTimeline w
                    (TimelineManager.set_historyIndex (TimelineManager.historyIndex s + 1) s)),
         Normal true)
    | None =>
        (w, TimelineManager.set_historyIndex (TimelineManager.historyIndex s + 1) s,
         Throw "TypeError: Cannot read properties of undefined (reading 'type')")
    end
  else (w, s, Normal false).
Proof.
  unfold TimelineManager.redo, TimelineManager.commandAt, TimelineManager.applyRedo.
  cbv [bind get ret modify].
  destruct (TimelineManager.canRedo s); simpl; [|reflexivity].
  destruct (JS.at_ (TimelineManager.history s) (TimelineManager.historyIndex s + 1)); reflexivity.
Qed.

Lemma undo_preserves cap : preserves (historyInvariant cap) TimelineManager.undo.
Proof.
  intros w s Hs. rewrite undo_run. unfold TimelineManager.canUndo.
  destruct (Z.geb_spec (TimelineManager.historyIndex s) 0) as [Hge|Hlt]; [|exact Hs].
  destruct (JS.at_ _ _); [|exact Hs].
  unfold storeOf at 1; simpl.
  destruct Hs as (Hi & Hl & Hm & Hc).
  unfold historyInvariant; simpl. repeat split; try assumption; lia.
Qed.

Lemma redo_preserves cap : preserves (historyInvariant cap) TimelineManager.redo.
Proof.
  intros w s Hs. rewrite redo_run. unfold TimelineManager.canRedo.
  destruct (Z.ltb_spec (TimelineManager.historyIndex s) (JS.len (TimelineManager.history s) - 1))
    as [Hlt|Hge]; [|exact Hs].
  destruct Hs as (Hi & Hl & Hm & Hc).
  destruct (JS.at_ _ _); unfold storeOf; simpl;
    unfold historyInvariant; simpl; repeat split; try assumption; lia.
Qed.

Lemma discard_preserves {S A} (P : S -> Prop) (m : M S A) :
  preserves P m -> preserves P (discard m).
Proof. intros Hm. apply preserves_bind; [exact Hm | intros a; apply preserves_ret]. Qed.

Lemma perform_preserves cap c : preserves (historyInvariant cap) (perform c).
Proof.
  destruct c; simpl; apply discard_preserves.
  - apply addTrack_preserves.
  - apply addClip_preserves.
  - apply removeClip_preserves.
  - apply moveClip_preserves.
  - apply trimClip_preserves.
  - apply splitClip_preserves.
  - apply addMarker_preserves.
  - apply undo_preserves.
  - apply redo_preserves.
Qed.

Lemma performAll_preserves cap cs ws :
  historyInvariant cap (snd ws) -> historyInvariant cap (snd (performAll cs ws)).
Proof.
  revert ws. induction cs as [|c r IH]; intros ws Hs; simpl; [exact Hs|].
  apply IH. unfold after; simpl. apply perform_preserves. exact Hs.
Qed.

Lemma constructor_history timeline0 clipObjects0 allocated0 :
  historyInvariant 100 (TimelineManager.constructor timeline0 clipObjects0 allocated0).
Proof. unfold historyInvariant; simpl. unfold JS.len; simpl. lia. Qed.

(** Each successful [undo()] uses up one position of the cursor. *)
Lemma undoSteps_bound fuel : forall ws,
  -1 <= TimelineManager.historyIndex (snd ws) ->
  Z.of_nat (undoSteps fuel ws) <= TimelineManager.historyIndex (snd ws) + 1.
Proof.
  induction fuel as [|f IH]; intros [w s] Hi; simpl in *; [lia|].
  unfold resultOf, after; simpl. rewrite undo_run.
  unfold TimelineManager.canUndo.
  destruct (Z.geb_spec (TimelineManager.historyIndex s) 0) as [Hge|Hlt];
    [|unfold completionOf; simpl; lia].
  destruct (JS.at_ _ _); [|unfold completionOf; simpl; lia].
  rewrite !updateTimeline_run.
  unfold completionOf, worldOf, storeOf; simpl.
  match goal with |- Z.pos (Pos.of_succ_nat (undoSteps f ?x)) <= _ => specialize (IH x) end.
  simpl in IH. lia.
Qed.

(** C9.  From a new TimelineManager (cap 100), after any sequence of
    calls of its mutators, [undo] and [redo] -- however long -- the
    history holds at most [maxHistorySize] = 100 commands, at most that
    many consecutive [undo()] calls succeed, and recording one more
    command leaves nothing to redo: the new history is a suffix of the
    commands up to the cursor followed by the new command, so every
    command that stood after the cursor is gone. *)
Theorem history_capped_at_maxHistorySize timeline0 clipObjects0 allocated0 cs w :
  let s := snd (performAll cs
                  (w, TimelineManager.constructor timeline0 clipObjects0 allocated0)) in
  TimelineManager.maxHistorySize s = 100 /\
  JS.len (TimelineManager.history s) <= TimelineManager.maxHistorySize s /\
  (forall fuel w', Z.of_nat (undoSteps fuel (w', s)) <= TimelineManager.maxHistorySize s) /\
  (forall command w',
     let s' := storeOf (TimelineManager.executeCommand command w' s) in
     TimelineManager.canRedo s' = false /\
     JS.len (TimelineManager.history s') <= TimelineManager.maxHistorySize s' /\
     exists dropped,
       firstn (Z.to_nat (TimelineManager.historyIndex s + 1)) (TimelineManager.history s)
         ++ [command]
       = dropped ++ TimelineManager.history s').
Proof.
  intros s.
  assert (Hs : historyInvariant 100 s).
  { apply performAll_preserves. apply constructor_history. }
  pose proof Hs as (Hi & Hl & Hm & Hc).
  repeat split.
  - exact Hc.
  - lia.
  - intros fuel w'.
    pose proof (undoSteps_bound fuel (w', s)) as Hu. simpl in Hu. lia.
  - destruct (executeCommand_history 100 command w' s Hs) as (_ & Hidx & _).
    unfold TimelineManager.canRedo. rewrite Hidx. apply Z.ltb_irrefl.
  - destruct (executeCommand_history 100 command w' s Hs) as ((_ & Hl' & _ & Hc') & _).
    lia.
  - destruct (executeCommand_history 100 command w' s Hs) as (_ & _ & Hd). exact Hd.
Qed.

(** A run past the cap: 150 [addMarker] calls leave exactly 100
    commands, and exactly 100 [undo()] calls succeed. *)
Example history_after_150_markers :
  JS.len (TimelineManager.history (snd Examples.after150Markers)) = 100 /\
  undoSteps 200 Examples.after150Markers = 100%nat.
Proof. vm_compute. split; reflexivity. Qed.

(* ================================================================== *)
(** * Undo and redo                                                    *)
(* ================================================================== *)

(** [undo] and [redo] write nothing but the cursor and the derived
    fields [duration] and [updated]: tracks, clips and markers are what
    they were. *)
Lemma undo_keeps_tracks w s :
  TimelineManager.tracks (storeOf (TimelineManager.undo w s)) = TimelineManager.tracks s /\
  Timeline.markers (TimelineManager.timeline (storeOf (TimelineManager.undo w s)))
    = Timeline.markers (TimelineManager.timeline s) /\
  TimelineManager.clipObjects (storeOf (TimelineManager.undo w s))
    = TimelineManager.clipObjects s.
Proof.
  rewrite undo_run.
  destruct (TimelineManager.canUndo s); [|repeat split].
  destruct (JS.at_ _ _); repeat split.
Qed.

Lemma redo_keeps_tracks w s :
  TimelineManager.tracks (storeOf (TimelineManager.redo w s)) = TimelineManager.tracks s /\
  Timeline.markers (TimelineManager.timeline (storeOf (TimelineManager.redo w s)))
    = Timeline.markers (TimelineManager.timeline s) /\
  TimelineManager.clipObjects (storeOf (TimelineManager.redo w s))
    = TimelineManager.clipObjects s.
Proof.
  rewrite redo_run.
  destruct (TimelineManager.canRedo s); [|repeat split].
  destruct (JS.at_ _ _); repeat split.
Qed.

(** C1 (the code departs from the claim).  [applyUndo] and [applyRedo]
    only log: [undo()] returns [true] and moves the cursor, and the
    tracks, clips, markers and duration stay as the mutator left them.
    On a manager with one empty track, [addClip] of a clip on
    [0 s, 5 s) followed by [undo()] leaves the clip on the track and
    the duration at 5 s, where before the [addClip] the track was empty
    and the duration 0 s. *)
Theorem undo_after_addClip_keeps_the_clip :
  Track.clips (TimelineManager.trackAt (snd Examples.withTrack) 0%nat) = [] /\
  TimelineManager.getDuration (snd Examples.withTrack) = Examples.at_s 0 /\
  resultOf TimelineManager.undo Examples.withClipA = Normal true /\
  Track.clips (TimelineManager.trackAt (snd (after TimelineManager.undo Examples.withClipA)) 0%nat)
    = [0%nat] /\
  TimelineManager.getDuration (snd (after TimelineManager.undo Examples.withClipA))
    = Examples.at_s 5 /\
  observable (snd (after TimelineManager.undo Examples.withClipA))
    = observable (snd Examples.withClipA) /\
  TimelineManager.canUndo (snd (after TimelineManager.undo Examples.withClipA)) = true.
Proof. vm_compute. repeat split. Qed.

(* ================================================================== *)
(** * Placement of clips on a track                                    *)
(* ================================================================== *)

(** C2 (the code departs from the claim).  [findClipInsertIndex]
    returns [-1] when no clip of the track starts later than the new
    one, and [splice(-1, 0, clip)] inserts before the last element.  On
    a track holding a clip on [0 s, 5 s), a successful [addClip] of a
    clip on [5 s, 10 s) leaves the clips in the order [5 s, 0 s]: the
    list is not ascending by start. *)
Theorem addClip_after_last_breaks_order :
  resultOf (TimelineManager.addClip "uuid-0"
              (Examples.clipInput (Examples.range 0 5) (Examples.range 0 5)))
           Examples.withTrack = Normal (Some 0%nat) /\
  resultOf (TimelineManager.addClip "uuid-0"
              (Examples.clipInput (Examples.range 5 10) (Examples.range 0 5)))
           Examples.withClipA = Normal (Some 1%nat) /\
  TimelineManager.findClipInsertIndex (snd Examples.withClipA)
    (TimelineManager.trackAt (snd Examples.withClipA) 0%nat) (Examples.at_s 5) = -1 /\
  timelineStarts (snd Examples.withClipsAB) 0%nat = [Examples.at_s 5; Examples.at_s 0] /\
  ascending (timelineStarts (snd Examples.withClipsAB) 0%nat) = false.
Proof. vm_compute. repeat split. Qed.

(* ================================================================== *)
(** * Splitting a clip                                                 *)
(* ================================================================== *)

Opaque TimestampUtils.add TimestampUtils.subtract JS.splice JS.findIndex JS.slice
       JS.sliceFrom TimelineManager.maxEndOf JS.len JS.push Z.gtb.

(** Outside the half-open range of the clip, [splitClip] throws and the
    store is the one it was given. *)
Lemma splitClip_outside clipId splitPoint w s clip track :
  TimelineManager.getClipIn s clipId = Some clip ->
  TimelineManager.getTrackIn s (Clip.trackId (TimelineManager.clipObjects s clip)) = Some track ->
  TimestampUtils.isWithinRange splitPoint
    (Clip.timelineRange (TimelineManager.clipObjects s clip)) = false ->
  TimelineManager.splitClip clipId splitPoint w s =
  (w, s, Throw "Split point must be within clip timeline range").
Proof.
  intros Hc Ht Hw.
  unfold TimelineManager.splitClip, TimelineManager.getClip, TimelineManager.getTrack.
  cbv [bind get ret]. rewrite Hc. cbv beta iota. rewrite Ht. cbv beta iota.
  rewrite Hw. reflexivity.
Qed.

(** Inside it, [splitClip] returns two fresh clips that share the
    original's fields except for the ranges. *)
Lemma splitClip_inside clipId splitPoint w s clip track :
  TimelineManager.getClipIn s clipId = Some clip ->
  TimelineManager.getTrackIn s (Clip.trackId (TimelineManager.clipObjects s clip)) = Some track ->
  TimestampUtils.isWithinRange splitPoint
    (Clip.timelineRange (TimelineManager.clipObjects s clip)) = true ->
  let original := TimelineManager.clipObjects s clip in
  let offset := TimestampUtils.subtract splitPoint (start (Clip.timelineRange original)) in
  let first := TimelineManager.allocated s in
  let second := S (TimelineManager.allocated s) in
  let s' := storeOf (TimelineManager.splitClip clipId splitPoint w s) in
  completionOf (TimelineManager.splitClip clipId splitPoint w s)
    = Normal (Some [first; second]) /\
  Clip.timelineRange (TimelineManager.clipObjects s' first)
    = mkTimeRange (start (Clip.timelineRange original)) splitPoint /\
  Clip.timelineRange (TimelineManager.clipObjects s' second)
    = mkTimeRange splitPoint (end_ (Clip.timelineRange original)) /\
  Clip.sourceRange (TimelineManager.clipObjects s' first)
    = mkTimeRange (start (Clip.sourceRange original))
                  (TimestampUtils.add (start (Clip.sourceRange original)) offset) /\
  Clip.sourceRange (TimelineManager.clipObjects s' second)
    = mkTimeRange (TimestampUtils.add (start (Clip.sourceRange original)) offset)
                  (end_ (Clip.sourceRange original)).
Proof.
  intros Hc Ht Hw.
  unfold TimelineManager.splitClip, TimelineManager.getClip, TimelineManager.getTrack.
  cbv [bind get ret]. rewrite Hc. cbv beta iota. rewrite Ht. cbv beta iota.
  rewrite Hw. cbv beta iota zeta. simpl negb. cbv iota.
  simpl. rewrite executeCommand_run. simpl.
  unfold completionOf, storeOf. simpl.
  rewrite !Nat.eqb_refl.
  replace (TimelineManager.allocated s =? S (TimelineManager.allocated s))%nat with false
    by (symmetry; apply Nat.eqb_neq; lia).
  repeat split.
Qed.

Transparent TimestampUtils.add TimestampUtils.subtract JS.splice JS.findIndex JS.slice
       JS.sliceFrom TimelineManager.maxEndOf JS.len JS.push Z.gtb.

(** C3, as the code has it.  For a clip of the timeline whose track is
    found, [splitClip] throws exactly when the split point is outside
    the half-open range [start <= splitPoint < end] that
    [isWithinRange] tests; whenever it throws the store is unchanged;
    and a split point equal to the clip's end throws. *)
Theorem splitClip_throws_unless_within_half_open clipId splitPoint w s clip track :
  TimelineManager.getClipIn s clipId = Some clip ->
  TimelineManager.getTrackIn s (Clip.trackId (TimelineManager.clipObjects s clip)) = Some track ->
  let range := Clip.timelineRange (TimelineManager.clipObjects s clip) in
  (completionOf (TimelineManager.splitClip clipId splitPoint w s)
     = Throw "Split point must be within clip timeline range"
   <-> ~ (notAfter (start range) splitPoint /\ earlier splitPoint (end_ range))) /\
  (isThrow (completionOf (TimelineManager.splitClip clipId splitPoint w s)) = true ->
   storeOf (TimelineManager.splitClip clipId splitPoint w s) = s) /\
  (splitPoint = end_ range ->
   completionOf (TimelineManager.splitClip clipId splitPoint w s)
     = Throw "Split point must be within clip timeline range" /\
   storeOf (TimelineManager.splitClip clipId splitPoint w s) = s).
Proof.
  intros Hc Ht range.
  destruct (TimestampUtils.isWithinRange splitPoint range) eqn:Hw.
  - pose proof (splitClip_inside clipId splitPoint w s clip track Hc Ht Hw) as (Hr & _).
    pose proof (proj1 (isWithinRange_spec splitPoint range) Hw) as Hin.
    rewrite Hr. split; [split|split].
    + discriminate.
    + intros Hn. contradiction.
    + simpl. discriminate.
    + intros ->. exfalso. destruct Hin as [_ He].
      unfold earlier in He. rewrite compare_refl in He. lia.
  - rewrite (splitClip_outside clipId splitPoint w s clip track Hc Ht Hw).
    unfold completionOf, storeOf; simpl.
    split; [split|split].
    + intros _ Hin. apply (proj2 (isWithinRange_spec splitPoint range)) in Hin.
      rewrite Hin in Hw. discriminate.
    + reflexivity.
    + reflexivity.
    + split; reflexivity.
Qed.

(** On the clip on [0 s, 10 s): a split at 10 s, the clip's end, throws
    and changes nothing. *)
Lemma splitClip_at_clip_end_throws :
  resultOf (TimelineManager.splitClip "uuid-2" (Examples.at_s 10)) Examples.withClip10
    = Throw "Split point must be within clip timeline range" /\
  snd (after (TimelineManager.splitClip "uuid-2" (Examples.at_s 10)) Examples.withClip10)
    = snd Examples.withClip10.
Proof.
  apply (splitClip_throws_unless_within_half_open "uuid-2" (Examples.at_s 10)
           (fst Examples.withClip10) (snd Examples.withClip10) 0%nat 0%nat).
  - reflexivity.
  - reflexivity.
  - reflexivity.
Defined.

(** C3 as stated fails: a split exactly at the start of the clip on
    [0 s, 10 s) does not throw; it returns two clips, the first on the
    empty range [0 s, 0 s). *)
Lemma splitClip_at_clip_start_succeeds :
  resultOf (TimelineManager.splitClip "uuid-2" (Examples.at_s 0)) Examples.withClip10
    = Normal (Some [1%nat; 2%nat]) /\
  map Clip.timelineRange
      (clipsOf (snd (after (TimelineManager.splitClip "uuid-2" (Examples.at_s 0))
                           Examples.withClip10)) 0%nat)
    = [Examples.range 0 0; Examples.range 0 10].
Proof. vm_compute. split; reflexivity. Qed.





(* ================================================================== *)
(** * Validation before mutation                                       *)
(* ================================================================== *)

Section MoreRules.
Context {S : Type}.

Lemma readonly_throw {A} e : readonly (@throw S A e).
Proof. intros w s; reflexivity. Qed.

Lemma readonly_forOf {A} (l : list A) (body : A -> M S unit) :
  (forall x, readonly (body x)) -> readonly (forOf l body).
Proof.
  intros Hb. induction l as [|x r IH]; simpl.
  - apply readonly_ret.
  - apply readonly_bind; [apply Hb | intros _; exact IH].
Qed.

End MoreRules.

Lemma executeCommand_nothrow command : nothrow (TimelineManager.executeCommand command).
Proof. intros w s. rewrite executeCommand_run. reflexivity. Qed.

Lemma updateTimeline_nothrow : nothrow TimelineManager.updateTimeline.
Proof. intros w s. reflexivity. Qed.

Lemma newClip_nothrow o : nothrow (TimelineManager.newClip o).
Proof. intros w s. reflexivity. Qed.

Ltac nothrow_step :=
  first
    [ apply nothrow_ret | apply nothrow_get | apply nothrow_uuidv4 | apply nothrow_newDate
    | apply executeCommand_nothrow | apply updateTimeline_nothrow | apply newClip_nothrow
    | apply nothrow_modify
    | apply nothrow_bind; [| intros ?]
    | match goal with
      | |- nothrow (match ?x with _ => _ end) => destruct x
      | |- nothrow (let _ := _ in _) => cbv zeta
      end ].

Ltac readonly_step :=
  first
    [ apply readonly_ret | apply readonly_get | apply readonly_uuidv4 | apply readonly_newDate
    | apply readonly_throw
    | apply readonly_bind; [| intros ?]
    | apply readonly_forOf; intros ?
    | match goal with
      | |- readonly (match ?x with _ => _ end) => destruct x
      | |- readonly (let _ := _ in _) => cbv zeta
      end ].

(** Validation first: a read-only prefix that may throw, then a suffix
    that cannot. *)
Ltac atomic_step :=
  first
    [ apply atomic_throw | apply atomic_ret
    | apply atomic_of_nothrow; solve [repeat nothrow_step]
    | apply atomic_bind; [solve [repeat readonly_step] | intros ?]
    | match goal with
      | |- atomic (match ?x with _ => _ end) => destruct x
      | |- atomic (let _ := _ in _) => cbv zeta
      end ].

Lemma addClip_atomic trackId clip : atomic (TimelineManager.addClip trackId clip).
Proof.
  unfold TimelineManager.addClip, TimelineManager.getTrack. repeat atomic_step.
Qed.

Lemma moveClip_atomic clipId newTrackId newTimelineStart :
  atomic (TimelineManager.moveClip clipId newTrackId newTimelineStart).
Proof.
  unfold TimelineManager.moveClip, TimelineManager.getTrack, TimelineManager.getClip,
    TimelineManager.modifyTrack, TimelineManager.modifyClip.
  repeat atomic_step.
Qed.

Lemma trimClip_atomic clipId newSourceRange newTimelineRange :
  atomic (TimelineManager.trimClip clipId newSourceRange newTimelineRange).
Proof.
  unfold TimelineManager.trimClip, TimelineManager.getTrack, TimelineManager.getClip,
    TimelineManager.modifyTrack, TimelineManager.modifyClip.
  repeat atomic_step.
Qed.

Lemma splitClip_atomic clipId splitPoint :
  atomic (TimelineManager.splitClip clipId splitPoint).
Proof.
  unfold TimelineManager.splitClip, TimelineManager.getTrack, TimelineManager.getClip,
    TimelineManager.modifyTrack, TimelineManager.modifyClip.
  repeat atomic_step.
Qed.

Lemma read_readonly this : readonly (FlowModel.read this).
Proof. intros w h; reflexivity. Qed.

Lemma validateSegmentTimeRange_readonly this range :
  readonly (FlowModel.validateSegmentTimeRange this range).
Proof.
  unfold FlowModel.validateSegmentTimeRange.
  apply readonly_bind; [apply read_readonly | intros self].
  repeat readonly_step.
Qed.

Lemma addSegment_atomic this segment : atomic (FlowModel.addSegment this segment).
Proof.
  unfold FlowModel.addSegment, FlowModel.write.
  apply atomic_bind; [apply read_readonly | intros self].
  apply atomic_bind; [apply readonly_newDate | intros c].
  apply atomic_bind; [apply readonly_newDate | intros u].
  cbv zeta.
  apply atomic_bind; [apply validateSegmentTimeRange_readonly | intros _].
  repeat atomic_step.
Qed.

(** C8.  [addSegment], [addClip], [moveClip], [trimClip] and
    [splitClip] validate before they write: whenever one of them throws
    -- the overlap errors and the invalid split point are their only
    throws -- the store of flows, respectively the manager with its
    tracks, clips, history, cursor and duration, is exactly the store
    the call was given. *)
Theorem failed_mutators_change_nothing :
  (forall this segment w h,
     isThrow (completionOf (FlowModel.addSegment this segment w h)) = true ->
     storeOf (FlowModel.addSegment this segment w h) = h) /\
  (forall trackId clip w s,
     isThrow (completionOf (TimelineManager.addClip trackId clip w s)) = true ->
     storeOf (TimelineManager.addClip trackId clip w s) = s) /\
  (forall clipId newTrackId newTimelineStart w s,
     isThrow (completionOf (TimelineManager.moveClip clipId newTrackId newTimelineStart w s))
       = true ->
     storeOf (TimelineManager.moveClip clipId newTrackId newTimelineStart w s) = s) /\
  (forall clipId newSourceRange newTimelineRange w s,
     isThrow (completionOf (TimelineManager.trimClip clipId newSourceRange newTimelineRange w s))
       = true ->
     storeOf (TimelineManager.trimClip clipId newSourceRange newTimelineRange w s) = s) /\
  (forall clipId splitPoint w s,
     isThrow (completionOf (TimelineManager.splitClip clipId splitPoint w s)) = true ->
     storeOf (TimelineManager.splitClip clipId splitPoint w s) = s).
Proof.
  repeat split; intros.
  - apply addSegment_atomic; assumption.
  - apply addClip_atomic; assumption.
  - apply moveClip_atomic; assumption.
  - apply trimClip_atomic; assumption.
  - apply splitClip_atomic; assumption.
Qed.

(** One failing call of each mutator: a segment on [5 s, 15 s) over
    one on [0 s, 10 s); a clip on [3 s, 8 s) over one on [0 s, 5 s); a
    move and a trim of the clip on [0 s, 5 s) onto the one on
    [5 s, 10 s); a split at 15 s of the clip on [0 s, 10 s). *)
Lemma failed_mutators_change_nothing_on_overlaps :
  (resultOf (FlowModel.addSegment 0%nat (Examples.segmentInput "seg-2" (Examples.range 5 15)))
            Examples.withSegment
     = Throw "Segment timerange 5:0...15:0 overlaps with existing segment 0:0...10:0" /\
   snd (after (FlowModel.addSegment 0%nat (Examples.segmentInput "seg-2" (Examples.range 5 15)))
              Examples.withSegment)
     = snd Examples.withSegment) /\
  (resultOf (TimelineManager.addClip "uuid-0"
               (Examples.clipInput (Examples.range 3 8) (Examples.range 0 5)))
            Examples.withClipA
     = Throw "Clip overlaps with existing clips" /\
   snd (after (TimelineManager.addClip "uuid-0"
                 (Examples.clipInput (Examples.range 3 8) (Examples.range 0 5)))
              Examples.withClipA)
     = snd Examples.withClipA) /\
  (resultOf (TimelineManager.moveClip "uuid-2" "uuid-0" (Examples.at_s 7)) Examples.withClipsAB
     = Throw "Cannot move clip: overlaps with existing clips" /\
   snd (after (TimelineManager.moveClip "uuid-2" "uuid-0" (Examples.at_s 7)) Examples.withClipsAB)
     = snd Examples.withClipsAB) /\
  (resultOf (TimelineManager.trimClip "uuid-2" None (Some (Examples.range 0 7)))
            Examples.withClipsAB
     = Throw "Cannot trim clip: overlaps with existing clips" /\
   snd (after (TimelineManager.trimClip "uuid-2" None (Some (Examples.range 0 7)))
              Examples.withClipsAB)
     = snd Examples.withClipsAB) /\
  (resultOf (TimelineManager.splitClip "uuid-2" (Examples.at_s 15)) Examples.withClip10
     = Throw "Split point must be within clip timeline range" /\
   snd (after (TimelineManager.splitClip "uuid-2" (Examples.at_s 15)) Examples.withClip10)
     = snd Examples.withClip10).
Proof.
  destruct failed_mutators_change_nothing as (H1 & H2 & H3 & H4 & H5).
  split; [|split; [|split; [|split]]].
  - split; [vm_compute; reflexivity | apply H1; vm_compute; reflexivity].
  - split; [vm_compute; reflexivity | apply H2; vm_compute; reflexivity].
  - split; [vm_compute; reflexivity | apply H3; vm_compute; reflexivity].
  - split; [vm_compute; reflexivity | apply H4; vm_compute; reflexivity].
  - split; [vm_compute; reflexivity | apply H5; vm_compute; reflexivity].
Defined.

(* ================================================================== *)
(** * The segment ledger: overlap and order                            *)
(* ================================================================== *)

(** ** [sort] returns the sorted permutation *)

Section Sorting.
Context {A : Type} (cmp : A -> A -> Z).
Hypothesis cmp_total : forall x y, cmp x y > 0 -> cmp y x <= 0.
Hypothesis cmp_trans : forall x y z, cmp x y <= 0 -> cmp y z <= 0 -> cmp x z <= 0.

Lemma insertSorted_perm x l : Permutation (JS.insertSorted cmp x l) (x :: l).
Proof.
  induction l as [|y r IH]; simpl.
  - apply Permutation_refl.
  - destruct (cmp x y <=? 0).
    + apply Permutation_refl.
    + eapply Permutation_trans; [apply perm_skip; exact IH | apply perm_swap].
Qed.

Lemma sort_perm l : Permutation (JS.sort cmp l) l.
Proof.
  induction l as [|x r IH]; simpl.
  - apply Permutation_refl.
  - eapply Permutation_trans; [apply insertSorted_perm | apply perm_skip; exact IH].
Qed.

Lemma insertSorted_sorted x l :
  StronglySorted (fun a b => cmp a b <= 0) l ->
  StronglySorted (fun a b => cmp a b <= 0) (JS.insertSorted cmp x l).
Proof.
  induction 1 as [|y r Hr IH Hy]; simpl.
  - constructor; constructor.
  - destruct (Z.leb_spec (cmp x y) 0) as [Hle|Hgt].
    + constructor; [constructor; assumption|].
      constructor; [exact Hle|].
      eapply Forall_impl; [|exact Hy].
      intros z Hz. exact (cmp_trans x y z Hle Hz).
    + constructor; [exact IH|].
      apply (Permutation_Forall (Permutation_sym (insertSorted_perm x r))).
      constructor; [apply cmp_total; lia | exact Hy].
Qed.

Lemma sort_sorted l : StronglySorted (fun a b => cmp a b <= 0) (JS.sort cmp l).
Proof.
  induction l as [|x r IH]; simpl.
  - constructor.
  - apply insertSorted_sorted. exact IH.
Qed.

End Sorting.

(** ** Pairwise properties under reordering *)

Section Pairwise.
Context {A : Type} (R : A -> A -> Prop).
Hypothesis R_sym : forall x y, R x y -> R y x.

Lemma pairwise_perm l l' :
  Permutation l l' -> ForallOrdPairs R l -> ForallOrdPairs R l'.
Proof.
  induction 1 as [|x l l' Hp IH|x y l|l l' l'' H1 IH1 H2 IH2]; intros H.
  - exact H.
  - inversion H as [|a r Hx Hr]; subst.
    constructor; [exact (Permutation_Forall Hp Hx) | apply IH; exact Hr].
  - inversion H as [|a r Hy Hr]; subst.
    inversion Hr as [|b r' Hx Hl]; subst.
    inversion Hy as [|c r'' Hyx Hyl]; subst.
    constructor; [constructor; [apply R_sym; exact Hyx | exact Hx]|].
    constructor; assumption.
  - apply IH2, IH1, H.
Qed.

Lemma pairwise_push l x :
  ForallOrdPairs R l -> Forall (fun e => R e x) l -> ForallOrdPairs R (l ++ [x]).
Proof.
  induction 1 as [|a r Ha Hr IH]; intros Hx; simpl.
  - constructor; constructor.
  - inversion Hx as [|b r' Hax Hrx]; subst.
    constructor; [|apply IH; exact Hrx].
    apply Forall_app. split; [exact Ha | constructor; [exact Hax | constructor]].
Qed.

End Pairwise.

(** ** [addSegment] *)

Lemma validateSegmentTimeRange_run this range w h :
  FlowModel.validateSegmentTimeRange this range w h =
  (w, h,
   match find (fun e => overlaps range (FlowSegment.timerange e))
              (FlowModel.segments (FlowModel.objects h this)) with
   | Some e => Throw (FlowModel.overlapMessage range (FlowSegment.timerange e))
   | None => Normal tt
   end).
Proof.
  unfold FlowModel.validateSegmentTimeRange, FlowModel.read.
  cbv [bind]. cbv beta iota.
  induction (FlowModel.segments (FlowModel.objects h this)) as [|e r IH]; simpl.
  - reflexivity.
  - unfold overlaps at 1.
    destruct ((TimestampUtils.compare (start range) (end_ (FlowSegment.timerange e)) <? 0) &&
              (TimestampUtils.compare (end_ range) (start (FlowSegment.timerange e)) >? 0)).
    + reflexivity.
    + cbv [bind ret]. cbv beta iota. exact IH.
Qed.

(** What a call of [addSegment] returns and writes. *)
Lemma addSegment_run this segment w h :
  let self := FlowModel.objects h this in
  let newSegment :=
    FlowSegment.mk (SegmentInput.id segment) (FlowModel.id self)
      (SegmentInput.timerange segment) (SegmentInput.objectIds segment)
      (SegmentInput.tsOffset segment) (SegmentInput.duration segment)
      (SegmentInput.mediaTimerange segment)
      (clockSource w (clockCount w)) (clockSource w (S (clockCount w))) in
  let h' := storeOf (FlowModel.addSegment this segment w h) in
  completionOf (FlowModel.addSegment this segment w h) =
    match find (fun e => overlaps (SegmentInput.timerange segment) (FlowSegment.timerange e))
               (FlowModel.segments self) with
    | Some e =>
        Throw (FlowModel.overlapMessage (SegmentInput.timerange segment)
                                        (FlowSegment.timerange e))
    | None => Normal newSegment
    end /\
  FlowModel.allocated h' = FlowModel.allocated h /\
  (forall r, r <> this -> FlowModel.objects h' r = FlowModel.objects h r) /\
  (find (fun e => overlaps (SegmentInput.timerange segment) (FlowSegment.timerange e))
        (FlowModel.segments self) = None ->
   FlowModel.objects h' this =
   FlowModel.set_generation (FlowModel.generation self + 1)
     (FlowModel.set_updated (clockSource w (S (S (clockCount w))))
        (FlowModel.set_segments
           (JS.sort FlowModel.byStart (JS.push newSegment (FlowModel.segments self)))
           self))).
Proof.
  intros self newSegment h'. subst h'.
  unfold FlowModel.addSegment.
  cbv [bind FlowModel.read newDate]. cbv beta iota zeta.
  rewrite validateSegmentTimeRange_run. simpl FlowSegment.timerange.
  fold self.
  destruct (find _ (FlowModel.segments self)) as [e|] eqn:Hf.
  - unfold completionOf, storeOf; simpl. repeat split. discriminate.
  - unfold completionOf, storeOf; simpl. repeat split.
    + intros r Hr. apply Nat.eqb_neq in Hr. rewrite Hr. reflexivity.
    + intros _. rewrite !Nat.eqb_refl. reflexivity.
Qed.

Lemma byStart_total a b : FlowModel.byStart a b > 0 -> FlowModel.byStart b a <= 0.
Proof. unfold FlowModel.byStart. intros H. apply notAfter_total. exact H. Qed.

Lemma byStart_trans a b c :
  FlowModel.byStart a b <= 0 -> FlowModel.byStart b c <= 0 -> FlowModel.byStart a c <= 0.
Proof. unfold FlowModel.byStart. apply notAfter_trans. Qed.

Lemma find_existsb {A} (f : A -> bool) (l : list A) :
  existsb f l = match find f l with Some _ => true | None => false end.
Proof.
  induction l as [|x r IH]; simpl; [reflexivity|].
  destruct (f x); [reflexivity | exact IH].
Qed.

(** A successful [addSegment] keeps the ledger sorted and free of
    overlaps. *)
Lemma addSegment_keeps_ledger this segment w h :
  ledgerInvariant (FlowModel.segments (FlowModel.objects h this)) ->
  isThrow (completionOf (FlowModel.addSegment this segment w h)) = false ->
  ledgerInvariant
    (FlowModel.segments (FlowModel.objects (storeOf (FlowModel.addSegment this segment w h)) this)).
Proof.
  intros [_ Hd] Hok.
  destruct (addSegment_run this segment w h) as (Hc & _ & _ & Hw).
  rewrite Hc in Hok.
  destruct (find _ (FlowModel.segments (FlowModel.objects h this))) as [e|] eqn:Hf;
    [discriminate Hok|].
  rewrite (Hw eq_refl). simpl.
  split.
  - apply (sort_sorted FlowModel.byStart byStart_total byStart_trans).
  - unfold segmentsDisjoint.
    eapply pairwise_perm.
    + intros x y Hxy. rewrite overlaps_sym. exact Hxy.
    + apply Permutation_sym. apply sort_perm.
    + unfold JS.push. apply pairwise_push; [exact Hd|].
      apply Forall_forall. intros x Hx. simpl.
      rewrite overlaps_sym. exact (find_none _ _ Hf x Hx).
Qed.

Lemma addSegments_keep_ledger this inputs : forall w h,
  ledgerInvariant (FlowModel.segments (FlowModel.objects h this)) ->
  completionOf (addSegments this inputs w h) = Normal tt ->
  ledgerInvariant
    (FlowModel.segments (FlowModel.objects (storeOf (addSegments this inputs w h)) this)).
Proof.
  unfold addSegments.
  induction inputs as [|segment rest IH]; intros w h Hinv Hok; simpl in *.
  - exact Hinv.
  - rewrite bind_run in *. rewrite bind_run in *.
    destruct (completionOf (FlowModel.addSegment this segment w h)) as [a|e] eqn:Hc.
    + simpl in *. apply IH; [|exact Hok].
      apply addSegment_keeps_ledger; [exact Hinv | rewrite Hc; reflexivity].
    + simpl in Hok. discriminate Hok.
Qed.

(** C4.  [addSegment] throws exactly when the new time range overlaps
    an existing segment under the half-open test -- naming the first
    such segment in its message -- and every sequence of successful
    [addSegment] calls on a Flow whose segments are sorted by start and
    pairwise free of overlaps, a new Flow in particular, leaves them
    so. *)
Theorem addSegment_rejects_overlaps_and_keeps_order :
  (forall this segment w h,
     isThrow (completionOf (FlowModel.addSegment this segment w h))
     = existsb (fun e => overlaps (SegmentInput.timerange segment) (FlowSegment.timerange e))
               (FlowModel.segments (FlowModel.objects h this))) /\
  (forall this segment w h message,
     completionOf (FlowModel.addSegment this segment w h) = Throw message ->
     exists e,
       In e (FlowModel.segments (FlowModel.objects h this)) /\
       overlaps (SegmentInput.timerange segment) (FlowSegment.timerange e) = true /\
       message = FlowModel.overlapMessage (SegmentInput.timerange segment)
                                          (FlowSegment.timerange e)) /\
  (forall this inputs w h,
     ledgerInvariant (FlowModel.segments (FlowModel.objects h this)) ->
     completionOf (addSegments this inputs w h) = Normal tt ->
     ledgerInvariant
       (FlowModel.segments (FlowModel.objects (storeOf (addSegments this inputs w h)) this))) /\
  (forall w h,
     completionOf (FlowModel.constructor FlowData.empty w h) = Normal (FlowModel.allocated h) /\
     FlowModel.segments
       (FlowModel.objects (storeOf (FlowModel.constructor FlowData.empty w h))
                          (FlowModel.allocated h)) = [] /\
     ledgerInvariant []).
Proof.
  split; [|split; [|split]].
  - intros this segment w h.
    destruct (addSegment_run this segment w h) as (Hc & _).
    rewrite Hc, find_existsb.
    destruct (find _ _); reflexivity.
  - intros this segment w h message Hm.
    destruct (addSegment_run this segment w h) as (Hc & _).
    rewrite Hc in Hm.
    destruct (find _ _) as [e|] eqn:Hf; [|discriminate Hm].
    exists e. apply find_some in Hf. destruct Hf as [Hin Ho].
    injection Hm as <-. repeat split; assumption.
  - intros this inputs w h. apply addSegments_keep_ledger.
  - intros w h. repeat split.
    + unfold completionOf, storeOf. simpl. rewrite Nat.eqb_refl. reflexivity.
    + constructor.
    + constructor.
Qed.

(** A new Flow after [addSegment] of [0 s, 10 s) and then of
    [10 s, 15 s). *)
Lemma addSegments_keep_order_on_two_segments :
  completionOf (addSegments 0%nat
      [Examples.segmentInput "seg-1" (Examples.range 0 10);
       Examples.segmentInput "seg-2" (Examples.range 10 15)]
      (fst Examples.withFlow) (snd Examples.withFlow)) = Normal tt /\
  ledgerInvariant
    (FlowModel.segments
       (FlowModel.objects
          (storeOf (addSegments 0%nat
             [Examples.segmentInput "seg-1" (Examples.range 0 10);
              Examples.segmentInput "seg-2" (Examples.range 10 15)]
             (fst Examples.withFlow) (snd Examples.withFlow)))
          0%nat)).
Proof.
  split; [vm_compute; reflexivity|].
  apply (proj1 (proj2 (proj2 addSegment_rejects_overlaps_and_keeps_order))).
  - vm_compute. split; constructor.
  - vm_compute. reflexivity.
Defined.

(* ================================================================== *)
(** * The segment ledger: copies leave the receiver alone              *)
(* ================================================================== *)

Section HoareRules.
Context {S : Type}.

Lemma hoare_bind (P : S -> Prop) {A B} (m : M S A) (k : A -> M S B)
    (Q : A -> S -> Prop) (R : B -> S -> Prop) (E : S -> Prop) :
  hoare P m Q E -> (forall a, hoare (Q a) (k a) R E) -> hoare P (bind m k) R E.
Proof.
  intros Hm Hk w s Hs. rewrite bind_run.
  specialize (Hm w s Hs).
  destruct (completionOf (m w s)) as [a|e].
  - apply Hk. exact Hm.
  - exact Hm.
Qed.

Lemma hoare_ret (P : S -> Prop) {A} (a : A) (Q : A -> S -> Prop) (E : S -> Prop) :
  (forall s, P s -> Q a s) -> hoare P (ret a) Q E.
Proof. intros H w s Hs. apply H. exact Hs. Qed.

Lemma hoare_of_preserves (P : S -> Prop) {A} (m : M S A) :
  preserves P m -> hoare P m (fun _ => P) P.
Proof.
  intros Hm w s Hs. specialize (Hm w s Hs).
  destruct (completionOf (m w s)); exact Hm.
Qed.

Lemma hoare_pure (F : Prop) (P : S -> Prop) {A} (m : M S A) Q E :
  (F -> hoare P m Q E) -> hoare (fun s => F /\ P s) m Q E.
Proof. intros H w s [HF Hs]. apply H; assumption. Qed.

End HoareRules.

(** ** Fresh objects and the receiver *)

Lemma constructor_run d w h :
  completionOf (FlowModel.constructor d w h) = Normal (FlowModel.allocated h) /\
  FlowModel.allocated (storeOf (FlowModel.constructor d w h)) = S (FlowModel.allocated h) /\
  forall r, r <> FlowModel.allocated h ->
    FlowModel.objects (storeOf (FlowModel.constructor d w h)) r = FlowModel.objects h r.
Proof.
  unfold FlowModel.constructor.
  destruct (JS.truthy (FlowData.id d)), (FlowData.created d), (FlowData.updated d);
    unfold completionOf, storeOf; simpl;
    (repeat split; intros r Hr; apply Nat.eqb_neq in Hr; rewrite Hr; reflexivity).
Qed.

(** [new FlowModel(...)] yields an object other than any live one, and
    leaves the live ones as they are. *)
Lemma constructor_fresh this o d :
  hoare (holds this o) (FlowModel.constructor d)
        (fun r h => r <> this /\ holds this o h) (holds this o).
Proof.
  intros w h [Hlive Ho].
  destruct (constructor_run d w h) as (Hc & Ha & Hr).
  rewrite Hc. unfold holds. rewrite Ha, Hr by lia.
  repeat split; try lia. exact Ho.
Qed.

Lemma addSegment_elsewhere this o other segment :
  other <> this -> preserves (holds this o) (FlowModel.addSegment other segment).
Proof.
  intros Hne w h [Hlive Ho].
  destruct (addSegment_run other segment w h) as (_ & Ha & Hr & _).
  unfold holds. rewrite Ha, Hr by congruence. split; assumption.
Qed.

Lemma getSegmentsInRange_readonly this range :
  readonly (FlowModel.getSegmentsInRange this range).
Proof. intros w h; reflexivity. Qed.

Ltac frame_step :=
  first
    [ apply preserves_ret | apply preserves_uuidv4 | apply preserves_newDate
    | apply readonly_preserves; first [apply read_readonly | apply getSegmentsInRange_readonly]
    | apply preserves_bind; [| intros ?]
    | match goal with
      | |- preserves _ (match ?x with _ => _ end) => destruct x
      | |- preserves _ (let _ := _ in _) => cbv zeta
      end ].

Lemma extractRange_frame this o range newId :
  hoare (holds this o) (FlowModel.extractRange this range newId)
        (fun r h => r <> this /\ holds this o h) (holds this o).
Proof.
  unfold FlowModel.extractRange.
  eapply hoare_bind; [apply hoare_of_preserves; repeat frame_step | intros self]. cbv zeta.
  eapply hoare_bind; [apply hoare_of_preserves; repeat frame_step | intros id0].
  eapply hoare_bind; [apply hoare_of_preserves; repeat frame_step | intros created0].
  eapply hoare_bind; [apply hoare_of_preserves; repeat frame_step | intros updated0].
  eapply hoare_bind; [apply constructor_fresh | intros newFlow].
  apply hoare_pure. intros Hne.
  eapply hoare_bind; [apply hoare_of_preserves; repeat frame_step | intros relevantSegments].
  eapply hoare_bind.
  - apply hoare_of_preserves. apply preserves_forOf. intros segment. cbv zeta.
    apply preserves_bind; [apply preserves_uuidv4 | intros id1].
    apply preserves_bind; [apply addSegment_elsewhere; exact Hne | intros ?].
    apply preserves_ret.
  - intros u. apply hoare_ret. intros h Hh. split; assumption.
Qed.

Lemma clone_frame this o newId :
  hoare (holds this o) (FlowModel.clone this newId)
        (fun r h => r <> this /\ holds this o h) (holds this o).
Proof.
  unfold FlowModel.clone.
  eapply hoare_bind; [apply hoare_of_preserves; repeat frame_step | intros cloneId].
  eapply hoare_bind; [apply hoare_of_preserves; repeat frame_step | intros self].
  eapply hoare_bind; [apply hoare_of_preserves; repeat frame_step | intros created0].
  eapply hoare_bind; [apply hoare_of_preserves; repeat frame_step | intros updated0].
  eapply hoare_bind.
  - apply hoare_of_preserves. apply preserves_mapM. intros segment. repeat frame_step.
  - intros segments0. cbv zeta. apply constructor_fresh.
Qed.

(** C10.  For a live Flow object [this], [extractRange] and [clone]
    leave the object behind [this] exactly as it was -- its id,
    generation and segments, each segment with its id, time range,
    object ids and media range -- whether they return or throw, and
    the Flow they return is another object. *)
Theorem extractRange_and_clone_leave_receiver_unchanged this w h :
  (this < FlowModel.allocated h)%nat ->
  (forall range newId,
     FlowModel.objects (storeOf (FlowModel.extractRange this range newId w h)) this
       = FlowModel.objects h this /\
     forall r, completionOf (FlowModel.extractRange this range newId w h) = Normal r ->
               r <> this) /\
  (forall newId,
     FlowModel.objects (storeOf (FlowModel.clone this newId w h)) this
       = FlowModel.objects h this /\
     forall r, completionOf (FlowModel.clone this newId w h) = Normal r -> r <> this).
Proof.
  intros Hlive.
  assert (Hh : holds this (FlowModel.objects h this) h) by (split; [exact Hlive | reflexivity]).
  split.
  - intros range newId.
    pose proof (extractRange_frame this (FlowModel.objects h this) range newId w h Hh) as H.
    destruct (completionOf (FlowModel.extractRange this range newId w h)) as [r|e].
    + destruct H as (Hne & _ & Ho). split; [exact Ho|].
      intros r' Hr'. injection Hr' as <-. exact Hne.
    + destruct H as (_ & Ho). split; [exact Ho | discriminate].
  - intros newId.
    pose proof (clone_frame this (FlowModel.objects h this) newId w h Hh) as H.
    destruct (completionOf (FlowModel.clone this newId w h)) as [r|e].
    + destruct H as (Hne & _ & Ho). split; [exact Ho|].
      intros r' Hr'. injection Hr' as <-. exact Hne.
    + destruct H as (_ & Ho). split; [exact Ho | discriminate].
Qed.

(** The Flow at reference 0 holding segments on [0 s, 10 s) and
    [10 s, 15 s): extracting [5 s, 12 s) and cloning leave it as it was. *)
Lemma extractRange_and_clone_on_two_segments :
  (0 < FlowModel.allocated (snd Examples.withSegments))%nat /\
  FlowModel.objects
    (storeOf (FlowModel.extractRange 0%nat (Examples.range 5 12) None
                (fst Examples.withSegments) (snd Examples.withSegments))) 0%nat
    = FlowModel.objects (snd Examples.withSegments) 0%nat /\
  FlowModel.objects
    (storeOf (FlowModel.clone 0%nat (Some "copy"%string)
                (fst Examples.withSegments) (snd Examples.withSegments))) 0%nat
    = FlowModel.objects (snd Examples.withSegments) 0%nat.
Proof.
  assert (Hlive : (0 < FlowModel.allocated (snd Examples.withSegments))%nat)
    by (vm_compute; lia).
  split; [exact Hlive|].
  split.
  - apply (proj1 (extractRange_and_clone_leave_receiver_unchanged 0%nat
             (fst Examples.withSegments) (snd Examples.withSegments) Hlive)).
  - apply (proj2 (extractRange_and_clone_leave_receiver_unchanged 0%nat
             (fst Examples.withSegments) (snd Examples.withSegments) Hlive)).
Defined.

(** On that Flow, [extractRange] of [5 s, 12 s) returns a new object
    whose segments are the trimmed ones, with their media ranges cut
    by the same offsets, while the receiver keeps its two segments. *)
Example extractRange_trims_only_the_copy :
  let r := FlowModel.extractRange 0%nat (Examples.range 5 12) None
             (fst Examples.withSegments) (snd Examples.withSegments) in
  completionOf r = Normal 1%nat /\
  map FlowSegment.timerange (FlowModel.segments (FlowModel.objects (storeOf r) 1%nat))
    = [Examples.range 5 10; Examples.range 10 12] /\
  map FlowSegment.mediaTimerange (FlowModel.segments (FlowModel.objects (storeOf r) 1%nat))
    = [Some (Examples.range 5 10); Some (Examples.range 10 12)] /\
  map FlowSegment.timerange (FlowModel.segments (FlowModel.objects (storeOf r) 0%nat))
    = [Examples.range 0 10; Examples.range 10 15] /\
  FlowModel.generation (FlowModel.objects (storeOf r) 0%nat) = 2.
Proof. vm_compute. repeat split. Qed.

(* ================================================================== *)
(** * Timestamp arithmetic                                             *)
(* ================================================================== *)

(** X1.  [compare] is the lexicographic order on (seconds, nanoseconds). *)
Theorem compare_is_lexicographic a b :
  (TimestampUtils.compare a b = -1 <->
     seconds a < seconds b \/ (seconds a = seconds b /\ nanoseconds a < nanoseconds b)) /\
  (TimestampUtils.compare a b = 0 <-> a = b) /\
  (TimestampUtils.compare a b = 1 <->
     seconds b < seconds a \/ (seconds a = seconds b /\ nanoseconds b < nanoseconds a)) /\
  TimestampUtils.compare a b = - TimestampUtils.compare b a.
Proof.
  split; [|split; [|split]].
  - compare_cases; split; intros; lia.
  - split; [apply compare_eq | intros ->; apply compare_refl].
  - compare_cases; split; intros; lia.
  - apply compare_antisym.
Qed.

(** X2.  Adding normalized timestamps carries into the seconds: the sum is
    normalized, its value in nanoseconds is the sum of the values, and
    the order of the operands does not matter. *)
Theorem add_normalized_carries a b :
  normalized a -> normalized b ->
  normalized (TimestampUtils.add a b) /\
  seconds (TimestampUtils.add a b) * TimestampUtils.NANOSECONDS_PER_SECOND
    + nanoseconds (TimestampUtils.add a b)
  = (seconds a * TimestampUtils.NANOSECONDS_PER_SECOND + nanoseconds a)
    + (seconds b * TimestampUtils.NANOSECONDS_PER_SECOND + nanoseconds b) /\
  TimestampUtils.add a b = TimestampUtils.add b a.
Proof.
  intros Ha Hb. rewrite (add_run a b Ha Hb), (add_run b a Hb Ha).
  unfold normalized, TimestampUtils.NANOSECONDS_PER_SECOND in *.
  rewrite (Z.add_comm (nanoseconds b)), (Z.add_comm (seconds b)).
  destruct (Z.ltb_spec (nanoseconds a + nanoseconds b) 1000000000); simpl;
    repeat split; lia.
Qed.

Ltac normalized_tac :=
  unfold normalized, TimestampUtils.NANOSECONDS_PER_SECOND; simpl; lia.

Lemma add_normalized_carries_example :
  normalized (TimestampUtils.add (mkTimestamp 10 800000000) (mkTimestamp 5 500000000)) /\
  TimestampUtils.add (mkTimestamp 10 800000000) (mkTimestamp 5 500000000)
    = TimestampUtils.add (mkTimestamp 5 500000000) (mkTimestamp 10 800000000).
Proof.
  destruct (add_normalized_carries (mkTimestamp 10 800000000) (mkTimestamp 5 500000000)
              ltac:(normalized_tac) ltac:(normalized_tac)) as (H1 & _ & H3).
  split; assumption.
Defined.

(** X3.  Subtracting normalized timestamps borrows from the seconds: the
    nanoseconds of the difference are never negative, its value is the
    difference of the values, and its seconds are non-negative exactly
    when the first operand is not earlier than the second. *)
Theorem subtract_normalized_borrows a b :
  normalized a -> normalized b ->
  normalized (TimestampUtils.subtract a b) /\
  seconds (TimestampUtils.subtract a b) * TimestampUtils.NANOSECONDS_PER_SECOND
    + nanoseconds (TimestampUtils.subtract a b)
  = (seconds a * TimestampUtils.NANOSECONDS_PER_SECOND + nanoseconds a)
    - (seconds b * TimestampUtils.NANOSECONDS_PER_SECOND + nanoseconds b) /\
  (0 <= seconds (TimestampUtils.subtract a b) <-> notAfter b a).
Proof.
  intros Ha Hb. rewrite subtract_run.
  unfold normalized, TimestampUtils.NANOSECONDS_PER_SECOND in *.
  destruct (Z.ltb_spec (nanoseconds a - nanoseconds b) 0); simpl;
    (split; [lia | split; [lia |]]); compare_cases; split; intros; lia.
Qed.

Lemma subtract_normalized_borrows_example :
  normalized (TimestampUtils.subtract (mkTimestamp 15 300000000) (mkTimestamp 5 800000000)) /\
  (0 <= seconds (TimestampUtils.subtract (mkTimestamp 15 300000000) (mkTimestamp 5 800000000))
   <-> notAfter (mkTimestamp 5 800000000) (mkTimestamp 15 300000000)).
Proof.
  destruct (subtract_normalized_borrows (mkTimestamp 15 300000000) (mkTimestamp 5 800000000)
              ltac:(normalized_tac) ltac:(normalized_tac)) as (H1 & _ & H3).
  split; assumption.
Defined.

(** X4.  On normalized timestamps [subtract] undoes [add], and [add] undoes
    [subtract]: [subtract (add a b) b = a] and [add b (subtract a b) = a];
    so the start of a range plus its [duration] is its end. *)
Theorem add_subtract_round_trip a b :
  normalized a -> normalized b ->
  TimestampUtils.subtract (TimestampUtils.add a b) b = a /\
  TimestampUtils.add b (TimestampUtils.subtract a b) = a /\
  TimestampUtils.add b (TimestampUtils.duration (mkTimeRange b a)) = a.
Proof.
  intros Ha Hb.
  assert (H2 : TimestampUtils.add b (TimestampUtils.subtract a b) = a).
  { pose proof (subtract_normalized a b Ha Hb) as Hn.
    rewrite (add_run b _ Hb Hn). rewrite subtract_run in *.
    destruct a as [sa na], b as [sb nb].
    unfold normalized, TimestampUtils.NANOSECONDS_PER_SECOND in *; simpl in *.
    destruct (Z.ltb_spec (na - nb) 0); simpl in *.
    - destruct (Z.ltb_spec (nb + (na - nb + 1000000000)) 1000000000); [lia|].
      f_equal; lia.
    - destruct (Z.ltb_spec (nb + (na - nb)) 1000000000); [|lia].
      f_equal; lia. }
  split; [|split; [exact H2 | exact H2]].
  rewrite (add_run a b Ha Hb). rewrite subtract_run.
  destruct a as [sa na], b as [sb nb].
  unfold normalized, TimestampUtils.NANOSECONDS_PER_SECOND in *; simpl in *.
  destruct (Z.ltb_spec (na + nb) 1000000000); simpl.
  - destruct (Z.ltb_spec (na + nb - nb) 0); [lia|]. f_equal; lia.
  - destruct (Z.ltb_spec (na + nb - 1000000000 - nb) 0); [|lia]. f_equal; lia.
Qed.

Lemma add_subtract_round_trip_example :
  TimestampUtils.subtract
    (TimestampUtils.add (mkTimestamp 10 800000000) (mkTimestamp 5 500000000))
    (mkTimestamp 5 500000000) = mkTimestamp 10 800000000.
Proof.
  apply (add_subtract_round_trip (mkTimestamp 10 800000000) (mkTimestamp 5 500000000)
           ltac:(normalized_tac) ltac:(normalized_tac)).
Defined.

(** ** Milliseconds *)

Lemma fromMilliseconds_normalized ms :
  0 <= ms -> normalized (TimestampUtils.fromMilliseconds ms).
Proof.
  intros Hms. unfold TimestampUtils.fromMilliseconds. cbv zeta.
  rewrite Z.rem_mod_nonneg by lia.
  pose proof (Z.mod_pos_bound ms 1000 ltac:(lia)) as Hb.
  rewrite normalized_create_small
    by (unfold TimestampUtils.NANOSECONDS_PER_SECOND; lia).
  unfold normalized, TimestampUtils.NANOSECONDS_PER_SECOND; simpl. lia.
Qed.

(** X5.  For a millisecond count that is not negative, [fromMilliseconds]
    gives a normalized timestamp and [toMilliseconds] gives the count
    back. *)
Theorem milliseconds_round_trip ms :
  0 <= ms ->
  normalized (TimestampUtils.fromMilliseconds ms) /\
  TimestampUtils.toMilliseconds (TimestampUtils.fromMilliseconds ms) = ms.
Proof.
  intros Hms. unfold TimestampUtils.fromMilliseconds. cbv zeta.
  rewrite Z.rem_mod_nonneg by lia.
  pose proof (Z.mod_pos_bound ms 1000 ltac:(lia)) as Hb.
  rewrite normalized_create_small
    by (unfold TimestampUtils.NANOSECONDS_PER_SECOND; lia).
  unfold normalized, TimestampUtils.toMilliseconds,
    TimestampUtils.NANOSECONDS_PER_SECOND; simpl.
  split; [lia|].
  rewrite Z.div_mul by lia.
  pose proof (Z.div_mod ms 1000 ltac:(lia)). lia.
Qed.

Lemma milliseconds_round_trip_example :
  normalized (TimestampUtils.fromMilliseconds 1234567890) /\
  TimestampUtils.toMilliseconds (TimestampUtils.fromMilliseconds 1234567890) = 1234567890.
Proof. apply (milliseconds_round_trip 1234567890). lia. Defined.

(** X6.  [toMilliseconds] drops what is below a millisecond: for a
    normalized timestamp at or after the epoch, converting to
    milliseconds and back keeps the seconds and rounds the nanoseconds
    down to a whole millisecond. *)
Theorem toMilliseconds_truncates ts :
  normalized ts -> 0 <= seconds ts ->
  TimestampUtils.fromMilliseconds (TimestampUtils.toMilliseconds ts)
  = mkTimestamp (seconds ts) (nanoseconds ts / 1000000 * 1000000).
Proof.
  destruct ts as [s ns].
  unfold normalized, TimestampUtils.NANOSECONDS_PER_SECOND; simpl. intros Hn Hs.
  unfold TimestampUtils.fromMilliseconds, TimestampUtils.toMilliseconds; simpl.
  assert (Hq : 0 <= ns / 1000000 < 1000).
  { split; [apply Z.div_pos; lia | apply Z.div_lt_upper_bound; lia]. }
  rewrite Z.rem_mod_nonneg by lia.
  assert (Hd : (s * 1000 + ns / 1000000) / 1000 = s).
  { symmetry. apply (Z.div_unique _ _ s (ns / 1000000)); lia. }
  assert (Hm : (s * 1000 + ns / 1000000) mod 1000 = ns / 1000000).
  { symmetry. apply (Z.mod_unique _ _ s); lia. }
  rewrite Hd, Hm.
  apply normalized_create_small. unfold TimestampUtils.NANOSECONDS_PER_SECOND. lia.
Qed.

Lemma toMilliseconds_truncates_example :
  TimestampUtils.fromMilliseconds (TimestampUtils.toMilliseconds (mkTimestamp 1 500999999))
  = mkTimestamp 1 500000000.
Proof.
  apply (toMilliseconds_truncates (mkTimestamp 1 500999999)); simpl; [normalized_tac | lia].
Defined.

(** X7.  Before the epoch the conversion is off: for a negative count that
    is not a whole number of seconds, [fromMilliseconds] returns
    negative nanoseconds and the round trip through [toMilliseconds]
    loses 2000 ms. *)
Theorem fromMilliseconds_negative_off_by_two_seconds ms :
  ms < 0 -> ms mod 1000 <> 0 ->
  nanoseconds (TimestampUtils.fromMilliseconds ms) < 0 /\
  TimestampUtils.toMilliseconds (TimestampUtils.fromMilliseconds ms) = ms - 2000.
Proof.
  intros Hneg Hrem.
  pose proof (Z.mod_pos_bound ms 1000 ltac:(lia)) as Hb.
  pose proof (Z.div_mod ms 1000 ltac:(lia)) as Hdm.
  assert (Hr : Z.rem ms 1000 = ms mod 1000 - 1000).
  { replace ms with (- - ms) at 1 by lia.
    rewrite Z.rem_opp_l by lia.
    rewrite Z.rem_mod_nonneg by lia.
    rewrite Z.mod_opp_l_nz by lia. lia. }
  unfold TimestampUtils.fromMilliseconds, TimestampUtils.create,
    TimestampUtils.toMilliseconds, TimestampUtils.NANOSECONDS_PER_SECOND. simpl.
  rewrite Hr.
  set (m := ms mod 1000) in *.
  assert (Hq : (m - 1000) * 1000000 / 1000000000 = -1).
  { symmetry. apply (Z.div_unique _ _ (-1) (m * 1000000)); lia. }
  assert (Hrem2 : Z.rem ((m - 1000) * 1000000) 1000000000 = (m - 1000) * 1000000).
  { replace ((m - 1000) * 1000000) with (- ((1000 - m) * 1000000)) by lia.
    rewrite Z.rem_opp_l by lia. rewrite Z.rem_small by lia. reflexivity. }
  rewrite Hq, Hrem2. split; [lia|].
  rewrite Z.div_mul by lia. lia.
Qed.

Lemma fromMilliseconds_negative_example :
  nanoseconds (TimestampUtils.fromMilliseconds (-1)) < 0 /\
  TimestampUtils.toMilliseconds (TimestampUtils.fromMilliseconds (-1)) = -1 - 2000.
Proof.
  apply (fromMilliseconds_negative_off_by_two_seconds (-1)); [lia | vm_compute; discriminate].
Defined.

(** ** Text forms *)

Lemma digits_pos d : forall p,
  JS.digits (Z.pos p) (NilEmpty.string_of_uint d) = Some (Z.pos (Pos.of_uint_acc d p)).
Proof.
  induction d; intros p; cbn [NilEmpty.string_of_uint JS.digits Pos.of_uint_acc];
    try reflexivity;
    match goal with
    | |- context [JS.digitValue ?c] =>
        let v := eval vm_compute in (JS.digitValue c) in
        change (JS.digitValue c) with v
    end;
    cbv beta iota; rewrite <- IHd; f_equal; lia.
Qed.

Lemma digits_zero d :
  JS.digits 0 (NilEmpty.string_of_uint d) = Some (Z.of_N (Pos.of_uint d)).
Proof.
  induction d; cbn [NilEmpty.string_of_uint JS.digits Pos.of_uint];
    try reflexivity;
    match goal with
    | |- context [JS.digitValue ?c] =>
        let v := eval vm_compute in (JS.digitValue c) in
        change (JS.digitValue c) with v
    end;
    cbv beta iota; try exact IHd;
    cbn [Z.of_N]; rewrite <- digits_pos; reflexivity.
Qed.

Lemma unsignedInteger_string_of_uint d :
  JS.unsignedInteger (NilZero.string_of_uint d) = Some (Z.of_uint d).
Proof.
  unfold Z.of_uint. rewrite <- digits_zero.
  destruct d; reflexivity.
Qed.

Lemma string_of_uint_head d :
  exists c r, NilZero.string_of_uint d = String c r /\ c <> "-"%char /\ c <> "+"%char.
Proof.
  destruct d; simpl; eexists; eexists; (split; [reflexivity | split; discriminate]).
Qed.

(** [Number] reads back the decimal rendering of every integer. *)
Lemma Number_showInt z : JS.Number (JS.showInt z) = Some z.
Proof.
  unfold JS.showInt.
  rewrite <- (DecimalZ.of_to z) at 2.
  destruct (Z.to_int z) as [d|d]; simpl NilZero.string_of_int; simpl Z.of_int.
  - destruct (string_of_uint_head d) as (c & r & E & Hm & Hp).
    pose proof (unsignedInteger_string_of_uint d) as Hu.
    rewrite E in *. unfold JS.Number.
    destruct c as [[|] [|] [|] [|] [|] [|] [|] [|]]; try exact Hu; congruence.
  - unfold JS.Number. rewrite unsignedInteger_string_of_uint. reflexivity.
Qed.

Lemma string_of_uint_chars d c :
  In c (list_ascii_of_string (NilEmpty.string_of_uint d)) ->
  (48 <= nat_of_ascii c <= 57)%nat.
Proof.
  induction d; simpl; intros H; try contradiction;
    (destruct H as [<-|H]; [vm_compute; lia | exact (IHd H)]).
Qed.

Lemma showInt_chars z c :
  In c (list_ascii_of_string (JS.showInt z)) ->
  c = "-"%char \/ (48 <= nat_of_ascii c <= 57)%nat.
Proof.
  unfold JS.showInt.
  assert (Hu : forall d, In c (list_ascii_of_string (NilZero.string_of_uint d)) ->
                         (48 <= nat_of_ascii c <= 57)%nat).
  { intros d. destruct d; try apply (string_of_uint_chars _ c).
    simpl. intros [<-|[]]. vm_compute. lia. }
  destruct (Z.to_int z) as [d|d]; simpl.
  - intros H. right. exact (Hu d H).
  - intros [<-|H]; [left; reflexivity | right; exact (Hu d H)].
Qed.

Lemma showInt_no_colon z : ~ In ":"%char (list_ascii_of_string (JS.showInt z)).
Proof.
  intros H. apply showInt_chars in H. destruct H as [H|H]; [discriminate H|].
  vm_compute in H. lia.
Qed.

Lemma showInt_no_dot z : ~ In "."%char (list_ascii_of_string (JS.showInt z)).
Proof.
  intros H. apply showInt_chars in H. destruct H as [H|H]; [discriminate H|].
  vm_compute in H. lia.
Qed.

(** ** Splitting at a separator that the parts do not contain *)

Lemma split_without c s :
  ~ In c (list_ascii_of_string s) -> JS.split c s = [s].
Proof.
  induction s as [|x r IH]; simpl; intros H; [reflexivity|].
  destruct (Ascii.eqb_spec x c) as [->|Hne]; [exfalso; apply H; left; reflexivity|].
  rewrite IH by (intros Hin; apply H; right; exact Hin). reflexivity.
Qed.

Lemma split_append c x y :
  ~ In c (list_ascii_of_string x) ->
  JS.split c (x ++ String c y) = x :: JS.split c y.
Proof.
  induction x as [|a r IH]; simpl; intros H.
  - rewrite Ascii.eqb_refl. reflexivity.
  - destruct (Ascii.eqb_spec a c) as [->|Hne]; [exfalso; apply H; left; reflexivity|].
    rewrite IH by (intros Hin; apply H; right; exact Hin). reflexivity.
Qed.

Lemma fromString_reads_toString ts :
  normalized ts ->
  TimestampUtils.fromString (TimestampUtils.toString ts) = Normal ts.
Proof.
  intros Hn. rewrite fromString_reads_two_components.
  unfold TimestampUtils.toString.
  change (JS.showInt (seconds ts) ++ ":" ++ JS.showInt (nanoseconds ts))%string
    with (JS.showInt (seconds ts) ++ String ":"%char (JS.showInt (nanoseconds ts)))%string.
  rewrite split_append by apply showInt_no_colon.
  rewrite split_without by apply showInt_no_colon.
  rewrite !Number_showInt.
  rewrite normalized_create_small by exact Hn.
  destruct ts; reflexivity.
Qed.

(** X8.  [fromString] reads back what [toString] writes, for every
    normalized timestamp, negative seconds included. *)
Theorem fromString_toString_round_trip ts :
  normalized ts ->
  TimestampUtils.fromString (TimestampUtils.toString ts) = Normal ts.
Proof. exact (fromString_reads_toString ts). Qed.

Lemma fromString_toString_round_trip_example :
  TimestampUtils.fromString (TimestampUtils.toString (mkTimestamp 123 456789000))
  = Normal (mkTimestamp 123 456789000).
Proof.
  apply (fromString_toString_round_trip (mkTimestamp 123 456789000)). normalized_tac.
Defined.

(** X9.  A string without a colon is never a timestamp: [fromString]
    throws, quoting the string. *)
Theorem fromString_throws_without_colon str :
  ~ In ":"%char (list_ascii_of_string str) ->
  TimestampUtils.fromString str = Throw ("Invalid timestamp string: " ++ str)%string.
Proof.
  intros H. rewrite fromString_reads_two_components, split_without by exact H.
  reflexivity.
Qed.

Lemma fromString_throws_without_colon_example :
  TimestampUtils.fromString "invalid" = Throw "Invalid timestamp string: invalid".
Proof.
  apply (fromString_throws_without_colon "invalid").
  simpl. intros H. repeat (destruct H as [H|H]; [discriminate H|]). exact H.
Defined.

Lemma In_append c a b :
  In c (list_ascii_of_string (a ++ b)) <->
  In c (list_ascii_of_string a) \/ In c (list_ascii_of_string b).
Proof.
  induction a as [|x r IH]; simpl.
  - tauto.
  - rewrite IH. tauto.
Qed.

Lemma toString_no_dot ts :
  ~ In "."%char (list_ascii_of_string (TimestampUtils.toString ts)).
Proof.
  unfold TimestampUtils.toString. rewrite !In_append. simpl.
  intros [H|[[H|[]]|H]].
  - exact (showInt_no_dot _ H).
  - discriminate H.
  - exact (showInt_no_dot _ H).
Qed.

Lemma splitOn_without s :
  ~ In "."%char (list_ascii_of_string s) -> JS.splitOn "..." s = [s].
Proof.
  unfold JS.splitOn.
  induction s as [|x r IH]; intros H; [reflexivity|].
  cbn [JS.splitOnFrom]. 
  assert (Hx : String.prefix "..." (String x r) = false).
  { cbn [String.prefix]. destruct (ascii_dec "." x) as [<-|Hne]; [|reflexivity].
    exfalso. apply H. left. reflexivity. }
  rewrite Hx, IH by (intros Hin; apply H; right; exact Hin). reflexivity.
Qed.

Lemma splitOn_append x y :
  ~ In "."%char (list_ascii_of_string x) ->
  JS.splitOn "..." (x ++ "..." ++ y) = x :: JS.splitOn "..." y.
Proof.
  unfold JS.splitOn.
  induction x as [|a r IH]; intros H.
  - destruct y; reflexivity.
  - change (String a r ++ "..." ++ y)%string with (String a (r ++ "..." ++ y)).
    cbn [JS.splitOnFrom].
    assert (Hx : String.prefix "..." (String a (r ++ "..." ++ y)) = false).
    { cbn [String.prefix]. destruct (ascii_dec "." a) as [<-|Hne]; [|reflexivity].
      exfalso. apply H. left. reflexivity. }
    rewrite Hx, IH by (intros Hin; apply H; right; exact Hin). reflexivity.
Qed.

(** X10.  [timeRangeFromString] reads back what [timeRangeToString] writes,
    for every range with normalized ends. *)
Theorem timeRange_text_round_trip r :
  normalized (start r) -> normalized (end_ r) ->
  TimestampUtils.timeRangeFromString (TimestampUtils.timeRangeToString r) = Normal r.
Proof.
  intros Hs He.
  unfold TimestampUtils.timeRangeFromString, TimestampUtils.timeRangeToString.
  rewrite splitOn_append by apply toString_no_dot.
  rewrite splitOn_without by apply toString_no_dot.
  cbv zeta. cbn [JS.len List.length Z.of_nat nth].
  change (negb (Z.pos (Pos.of_succ_nat 1) =? 2)) with false. cbv iota.
  rewrite !fromString_reads_toString by assumption.
  destruct r; reflexivity.
Qed.

Lemma timeRange_text_round_trip_example :
  TimestampUtils.timeRangeFromString
    (TimestampUtils.timeRangeToString
       (mkTimeRange (mkTimestamp 10 500000000) (mkTimestamp 15 800000000)))
  = Normal (mkTimeRange (mkTimestamp 10 500000000) (mkTimestamp 15 800000000)).
Proof.
  apply (timeRange_text_round_trip
           (mkTimeRange (mkTimestamp 10 500000000) (mkTimestamp 15 800000000)));
    normalized_tac.
Defined.

(** X11.  A string without a dot holds no ["..."] separator:
    [timeRangeFromString] throws, quoting the string, whatever else the
    string holds. *)
Theorem timeRangeFromString_throws_without_separator str :
  ~ In "."%char (list_ascii_of_string str) ->
  TimestampUtils.timeRangeFromString str
  = Throw ("Invalid timerange string: " ++ str)%string.
Proof.
  intros H. unfold TimestampUtils.timeRangeFromString.
  rewrite splitOn_without by exact H. reflexivity.
Qed.

Lemma timeRangeFromString_throws_example :
  TimestampUtils.timeRangeFromString "10:0-20:0"
  = Throw "Invalid timerange string: 10:0-20:0".
Proof.
  apply (timeRangeFromString_throws_without_separator "10:0-20:0").
  simpl. intros H. repeat (destruct H as [H|H]; [discriminate H|]). exact H.
Defined.

(** ** The clock *)

(** X12.  [nowTAI] is the reading of [now] moved 37 seconds ahead: for a
    clock at or after the epoch it has the seconds of [now] plus 37 and
    the same nanoseconds, and both are normalized. *)
Theorem nowTAI_is_now_plus_37 (S : Type) (w : World) (s : S) :
  0 <= clockSource w (clockCount w) ->
  exists t,
    completionOf (@TimestampUtils.now S w s) = Normal t /\
    normalized t /\
    completionOf (@TimestampUtils.nowTAI S w s)
      = Normal (mkTimestamp (seconds t + 37) (nanoseconds t)) /\
    storeOf (@TimestampUtils.nowTAI S w s) = s.
Proof.
  intros Hc.
  exists (TimestampUtils.fromMilliseconds (clockSource w (clockCount w))).
  pose proof (fromMilliseconds_normalized _ Hc) as Hn.
  split; [reflexivity|]. split; [exact Hn|]. split; [|reflexivity].
  unfold TimestampUtils.nowTAI, TimestampUtils.now, TimestampUtils.Date_now.
  cbv [bind newDate ret completionOf snd clockSource clockCount]. cbv beta iota zeta.
  f_equal.
  set (t := TimestampUtils.fromMilliseconds _) in *. clearbody t.
  change (TimestampUtils.create 37 0) with (mkTimestamp 37 0).
  rewrite add_run; [|exact Hn | normalized_tac].
  unfold normalized, TimestampUtils.NANOSECONDS_PER_SECOND in *.
  cbn [seconds nanoseconds].
  destruct (Z.ltb_spec (nanoseconds t + 0) 1000000000) as [_|Hge]; [|lia].
  f_equal; lia.
Qed.

Lemma nowTAI_is_now_plus_37_example :
  exists t,
    completionOf (@TimestampUtils.now unit Examples.world tt) = Normal t /\
    normalized t /\
    completionOf (@TimestampUtils.nowTAI unit Examples.world tt)
      = Normal (mkTimestamp (seconds t + 37) (nanoseconds t)) /\
    storeOf (@TimestampUtils.nowTAI unit Examples.world tt) = tt.
Proof.
  apply (nowTAI_is_now_plus_37 unit Examples.world tt). vm_compute. discriminate.
Defined.

(* ================================================================== *)
(** * The segment ledger: queries                                      *)
(* ================================================================== *)

(** X13.  A successful [addSegment] adds exactly the new segment: the
    segments afterwards are the old ones and the new one in some
    order, the new segment carries the Flow's id and the given range,
    and [generation] grows by one. *)
Theorem addSegment_adds_one_segment this segment w h added :
  completionOf (FlowModel.addSegment this segment w h) = Normal added ->
  let o := FlowModel.objects h this in
  let o' := FlowModel.objects (storeOf (FlowModel.addSegment this segment w h)) this in
  Permutation (FlowModel.segments o') (added :: FlowModel.segments o) /\
  FlowModel.generation o' = FlowModel.generation o + 1 /\
  FlowModel.id o' = FlowModel.id o /\
  FlowSegment.flowId added = FlowModel.id o /\
  FlowSegment.id added = SegmentInput.id segment /\
  FlowSegment.timerange added = SegmentInput.timerange segment /\
  FlowSegment.objectIds added = SegmentInput.objectIds segment.
Proof.
  intros Hok o o'.
  destruct (addSegment_run this segment w h) as (Hc & _ & _ & Hw).
  rewrite Hc in Hok.
  destruct (find _ (FlowModel.segments (FlowModel.objects h this))) as [e|] eqn:Hf;
    [discriminate Hok|].
  injection Hok as <-.
  subst o'. rewrite (Hw eq_refl). simpl.
  repeat split.
  eapply Permutation_trans; [apply sort_perm|].
  unfold JS.push. apply Permutation_sym, Permutation_cons_append.
Qed.

Lemma addSegment_adds_one_segment_example :
  Permutation
    (FlowModel.segments (FlowModel.objects (snd Examples.withSegments) 0%nat))
    (FlowSegment.mk "seg-2" "uuid-0" (Examples.range 10 15) ["cid-1"%string] None None
        (Some (Examples.range 10 15)) 5 6
     :: FlowModel.segments (FlowModel.objects (snd Examples.withSegment) 0%nat)).
Proof.
  apply (addSegment_adds_one_segment 0%nat
           (Examples.segmentInput "seg-2" (Examples.range 10 15))
           (fst Examples.withSegment) (snd Examples.withSegment)).
  vm_compute. reflexivity.
Defined.

Lemma filter_perm {A} (p : A -> bool) l l' :
  Permutation l l' -> Permutation (filter p l) (filter p l').
Proof.
  induction 1 as [|x l l' Hp IH|x y l|l l' l'' H1 IH1 H2 IH2]; simpl.
  - constructor.
  - destruct (p x); [constructor|]; exact IH.
  - destruct (p x), (p y); try apply Permutation_refl. apply perm_swap.
  - eapply Permutation_trans; eassumption.
Qed.

Lemma filter_none {A} (p : A -> bool) l :
  (forall x, In x l -> p x = false) -> filter p l = [].
Proof.
  induction l as [|x r IH]; intros H; simpl; [reflexivity|].
  rewrite (H x (or_introl eq_refl)). apply IH. intros y Hy. apply H. right. exact Hy.
Qed.

Lemma overlaps_self r : nonEmpty r -> overlaps r r = true.
Proof.
  unfold nonEmpty, earlier, overlaps. intros H.
  rewrite (compare_antisym (end_ r) (start r)).
  apply andb_true_iff. split; [apply Z.ltb_lt; exact H | apply Z.gtb_lt; lia].
Qed.

(** X14.  After a successful [addSegment] of a range that is not empty,
    [getSegmentsInRange] of that range returns the new segment and
    nothing else. *)
Theorem getSegmentsInRange_after_addSegment this segment w h added w' :
  nonEmpty (SegmentInput.timerange segment) ->
  completionOf (FlowModel.addSegment this segment w h) = Normal added ->
  completionOf
    (FlowModel.getSegmentsInRange this (SegmentInput.timerange segment) w'
       (storeOf (FlowModel.addSegment this segment w h)))
  = Normal [added].
Proof.
  intros Hne Hok.
  destruct (addSegment_run this segment w h) as (Hc & _ & _ & Hw).
  rewrite Hc in Hok.
  destruct (find _ (FlowModel.segments (FlowModel.objects h this))) as [e|] eqn:Hf;
    [discriminate Hok|].
  injection Hok as <-.
  unfold FlowModel.getSegmentsInRange, FlowModel.read.
  cbv [bind ret completionOf snd]. cbv beta iota zeta.
  rewrite (Hw eq_refl). simpl FlowModel.segments.
  f_equal.
  match goal with |- filter ?p (JS.sort ?c (JS.push ?n ?l)) = _ =>
    set (p0 := p); set (n0 := n); set (l0 := l);
    assert (Hp : Permutation (filter p0 (JS.sort c (JS.push n0 l0))) (filter p0 (l0 ++ [n0])))
      by (apply filter_perm, sort_perm)
  end.
  assert (Hold : forall x, In x l0 -> p0 x = false).
  { intros x Hx. pose proof (find_none _ _ Hf x Hx) as Hx'.
    subst p0. cbv beta zeta.
    change ((TimestampUtils.compare (start (FlowSegment.timerange x))
               (end_ (SegmentInput.timerange segment)) <? 0) &&
            (TimestampUtils.compare (end_ (FlowSegment.timerange x))
               (start (SegmentInput.timerange segment)) >? 0))
      with (overlaps (FlowSegment.timerange x) (SegmentInput.timerange segment)).
    rewrite overlaps_sym. exact Hx'. }
  assert (Hn : p0 n0 = true) by (apply (overlaps_self _ Hne)).
  assert (Hf2 : filter p0 (l0 ++ [n0]) = [n0]).
  { rewrite filter_app, (filter_none p0 l0 Hold). simpl. rewrite Hn. reflexivity. }
  rewrite Hf2 in Hp.
  apply Permutation_sym, Permutation_length_1_inv in Hp. exact Hp.
Qed.

Lemma getSegmentsInRange_after_addSegment_example :
  completionOf
    (FlowModel.getSegmentsInRange 0%nat (Examples.range 10 15) Examples.world
       (snd Examples.withSegments))
  = Normal [FlowSegment.mk "seg-2" "uuid-0" (Examples.range 10 15) ["cid-1"%string] None None
              (Some (Examples.range 10 15)) 5 6].
Proof.
  apply (getSegmentsInRange_after_addSegment 0%nat
           (Examples.segmentInput "seg-2" (Examples.range 10 15))
           (fst Examples.withSegment) (snd Examples.withSegment)).
  - vm_compute. reflexivity.
  - vm_compute. reflexivity.
Defined.

Lemma both_within_overlap ts a b :
  TimestampUtils.isWithinRange ts a = true ->
  TimestampUtils.isWithinRange ts b = true ->
  overlaps a b = true.
Proof.
  intros Ha Hb.
  apply isWithinRange_spec in Ha. apply isWithinRange_spec in Hb.
  destruct Ha as [Ha1 Ha2], Hb as [Hb1 Hb2].
  unfold overlaps. apply andb_true_iff.
  rewrite Z.ltb_lt, Z.gtb_lt.
  unfold notAfter, earlier in *.
  rewrite (compare_antisym (end_ a) (start b)).
  pose proof (earlier_notAfter_trans). 
  split.
  - revert Ha1 Hb2. generalize (start a) (end_ b). intros x y H1 H2.
    clear - H1 H2. compare_cases; lia.
  - revert Hb1 Ha2. generalize (start b) (end_ a). intros x y H1 H2.
    clear - H1 H2. compare_cases; lia.
Qed.

(** X15.  In a ledger without overlaps at most one segment holds a given
    instant, and [getSegmentAtTimestamp] returns it: the result is
    [seg] exactly when [seg] is a segment of the Flow whose half-open
    range holds the timestamp. *)
Theorem getSegmentAtTimestamp_unique this ts w h seg :
  segmentsDisjoint (FlowModel.segments (FlowModel.objects h this)) ->
  (completionOf (FlowModel.getSegmentAtTimestamp this ts w h) = Normal (Some seg) <->
   In seg (FlowModel.segments (FlowModel.objects h this)) /\
   TimestampUtils.isWithinRange ts (FlowSegment.timerange seg) = true).
Proof.
  unfold FlowModel.getSegmentAtTimestamp, FlowModel.read.
  cbv [bind ret completionOf snd]. cbv beta iota.
  unfold segmentsDisjoint.
  induction (FlowModel.segments (FlowModel.objects h this)) as [|x r IH]; intros Hd; simpl.
  - split; [discriminate | intros [[] _]].
  - inversion Hd as [|a l Hx Hr]; subst.
    destruct (TimestampUtils.isWithinRange ts (FlowSegment.timerange x)) eqn:Hin.
    + split.
      * intros [= <-]. split; [left; reflexivity | exact Hin].
      * intros [[->|Hrest] Hs]; [reflexivity|].
        exfalso. rewrite Forall_forall in Hx. specialize (Hx seg Hrest).
        rewrite (both_within_overlap ts _ _ Hin Hs) in Hx. discriminate.
    + rewrite (IH Hr). split.
      * intros [Hi Hs]. split; [right; exact Hi | exact Hs].
      * intros [[->|Hi] Hs]; [rewrite Hin in Hs; discriminate | split; assumption].
Qed.

Lemma getSegmentAtTimestamp_unique_example :
  completionOf (FlowModel.getSegmentAtTimestamp 0%nat (Examples.at_s 12) Examples.world
                  (snd Examples.withSegments))
  = Normal (Some (FlowSegment.mk "seg-2" "uuid-0" (Examples.range 10 15) ["cid-1"%string]
                    None None (Some (Examples.range 10 15)) 5 6)).
Proof.
  apply (getSegmentAtTimestamp_unique 0%nat (Examples.at_s 12) Examples.world
           (snd Examples.withSegments)).
  - vm_compute. repeat constructor.
  - split; [vm_compute; right; left; reflexivity | vm_compute; reflexivity].
Defined.

(** ** Gaps and coverage *)

Lemma getGaps_run this w h :
  completionOf (FlowModel.getGaps this w h)
  = Normal (FlowModel.gapsFrom (FlowModel.segments (FlowModel.objects h this))).
Proof. reflexivity. Qed.

Lemma hasContinuousCoverage_run this w h :
  completionOf (FlowModel.hasContinuousCoverage this w h)
  = Normal (FlowModel.coverageFrom (FlowModel.segments (FlowModel.objects h this))).
Proof.
  unfold FlowModel.hasContinuousCoverage, FlowModel.read.
  cbv [bind ret completionOf snd]. cbv beta iota.
  destruct (FlowModel.segments (FlowModel.objects h this)) as [|a [|b r]];
    try reflexivity.
  assert (E : (JS.len (a :: b :: r) <=? 1) = false)
    by (apply Z.leb_gt; unfold JS.len; simpl List.length; lia).
  rewrite E. reflexivity.
Qed.

(** In a sorted ledger without overlaps, a segment ends no later than
    any later segment that is not empty starts. *)
Lemma earlier_segment_ends_first a b :
  notAfter (start (FlowSegment.timerange a)) (start (FlowSegment.timerange b)) ->
  overlaps (FlowSegment.timerange a) (FlowSegment.timerange b) = false ->
  nonEmpty (FlowSegment.timerange b) ->
  notAfter (end_ (FlowSegment.timerange a)) (start (FlowSegment.timerange b)).
Proof.
  unfold overlaps, nonEmpty. intros Hs Ho Hb.
  apply andb_false_iff in Ho. rewrite Z.ltb_ge, Z.gtb_ltb, Z.ltb_ge in Ho.
  destruct Ho as [Ho|Ho]; [|exact Ho].
  exfalso.
  pose proof (compare_antisym (start (FlowSegment.timerange a)) (end_ (FlowSegment.timerange b))).
  revert Hs Hb Ho.
  generalize (start (FlowSegment.timerange a)) (start (FlowSegment.timerange b))
             (end_ (FlowSegment.timerange b)).
  intros x y z Hs Hb Ho. clear - Hs Hb Ho. compare_cases; lia.
Qed.

Lemma gapsFrom_ends l g :
  In g (FlowModel.gapsFrom l) ->
  nonEmpty g /\
  exists a b, In a l /\ In b l /\
    start g = end_ (FlowSegment.timerange a) /\ end_ g = start (FlowSegment.timerange b).
Proof.
  induction l as [|prev [|curr rest] IH]; simpl; try contradiction.
  destruct (Z.ltb_spec (TimestampUtils.compare (end_ (FlowSegment.timerange prev))
                          (start (FlowSegment.timerange curr))) 0) as [Hlt|Hge].
  - intros [<-|Hin].
    + split; [exact Hlt|]. exists prev, curr. simpl. auto.
    + destruct (IH Hin) as (Hn & a & b & Ha & Hb & E1 & E2).
      split; [exact Hn|]. exists a, b. simpl in *. auto.
  - intros Hin. destruct (IH Hin) as (Hn & a & b & Ha & Hb & E1 & E2).
    split; [exact Hn|]. exists a, b. simpl in *. auto.
Qed.

Lemma gapsFrom_clear l :
  ledgerInvariant l ->
  Forall (fun s => nonEmpty (FlowSegment.timerange s)) l ->
  forall g s, In g (FlowModel.gapsFrom l) -> In s l ->
    overlaps g (FlowSegment.timerange s) = false.
Proof.
  unfold ledgerInvariant, segmentsSorted, segmentsDisjoint.
  induction l as [|prev [|curr rest] IH]; intros [Hs Hd] Hne g s Hg Hin;
    try (simpl in Hg; contradiction).
  inversion Hs as [|? ? Hs' Hsp]; subst.
  inversion Hd as [|? ? Hdp Hd']; subst.
  inversion Hne as [|? ? Hnp Hne']; subst.
  assert (Hrest : forall g', In g' (FlowModel.gapsFrom (curr :: rest)) ->
            forall s', In s' (prev :: curr :: rest) ->
            overlaps g' (FlowSegment.timerange s') = false).
  { intros g' Hg' s' [<-|Hs'in]; [|apply IH; auto].
    destruct (gapsFrom_ends _ _ Hg') as (_ & a & _ & Ha & _ & E1 & _).
    rewrite Forall_forall in Hsp, Hdp, Hne'.
    pose proof (earlier_segment_ends_first prev a (Hsp a Ha) (Hdp a Ha) (Hne' a Ha)) as H1.
    pose proof (Hne' a Ha) as H2.
    unfold overlaps. rewrite E1. apply andb_false_iff. left. apply Z.ltb_ge.
    unfold nonEmpty, notAfter, earlier in *.
    rewrite (compare_antisym (end_ (FlowSegment.timerange a)) (end_ (FlowSegment.timerange prev))).
    revert H1 H2.
    generalize (end_ (FlowSegment.timerange prev)) (start (FlowSegment.timerange a))
               (end_ (FlowSegment.timerange a)).
    intros x y z H1 H2. clear - H1 H2. compare_cases; lia. }
  simpl in Hg.
  destruct (Z.ltb_spec (TimestampUtils.compare (end_ (FlowSegment.timerange prev))
                          (start (FlowSegment.timerange curr))) 0) as [Hlt|Hge];
    [|apply Hrest; assumption].
  destruct Hg as [<-|Hg]; [|apply Hrest; assumption].
  unfold overlaps; simpl.
  destruct Hin as [<-|Hin].
  - apply andb_false_iff. left. apply Z.ltb_ge. rewrite compare_refl. lia.
  - apply andb_false_iff. right. rewrite Z.gtb_ltb. apply Z.ltb_ge.
    inversion Hs' as [|? ? _ Hsc]; subst.
    destruct Hin as [<-|Hin]; [rewrite compare_refl; lia|].
    rewrite Forall_forall in Hsc. exact (Hsc s Hin).
Qed.

(** X16.  Every range [getGaps] returns is a real gap: it is not empty, and
    in a ledger that is sorted, free of overlaps and made of segments
    that are not empty, it overlaps no segment. *)
Theorem getGaps_overlap_no_segment this w h gaps :
  ledgerInvariant (FlowModel.segments (FlowModel.objects h this)) ->
  Forall (fun s => nonEmpty (FlowSegment.timerange s))
         (FlowModel.segments (FlowModel.objects h this)) ->
  completionOf (FlowModel.getGaps this w h) = Normal gaps ->
  forall g, In g gaps ->
    nonEmpty g /\
    forall s, In s (FlowModel.segments (FlowModel.objects h this)) ->
      overlaps g (FlowSegment.timerange s) = false.
Proof.
  intros Hinv Hne Hg g Hin. rewrite getGaps_run in Hg. injection Hg as <-.
  split.
  - apply (gapsFrom_ends _ _ Hin).
  - intros s Hs. exact (gapsFrom_clear _ Hinv Hne g s Hin Hs).
Qed.

Lemma getGaps_overlap_no_segment_example :
  let flows := after (FlowModel.addSegment 0%nat
                        (Examples.segmentInput "seg-3" (Examples.range 12 15)))
                     Examples.withSegment in
  completionOf (FlowModel.getGaps 0%nat (fst flows) (snd flows))
    = Normal [Examples.range 10 12] /\
  nonEmpty (Examples.range 10 12) /\
  forall s, In s (FlowModel.segments (FlowModel.objects (snd flows) 0%nat)) ->
    overlaps (Examples.range 10 12) (FlowSegment.timerange s) = false.
Proof.
  intros flows.
  assert (Hg : completionOf (FlowModel.getGaps 0%nat (fst flows) (snd flows))
               = Normal [Examples.range 10 12]) by (vm_compute; reflexivity).
  split; [exact Hg|].
  apply (getGaps_overlap_no_segment 0%nat (fst flows) (snd flows) [Examples.range 10 12]).
  - vm_compute. split; repeat constructor; discriminate.
  - vm_compute. repeat constructor.
  - exact Hg.
  - left. reflexivity.
Defined.

(** X17.  In a ledger that is sorted, free of overlaps and made of segments
    that are not empty, the two coverage queries agree:
    [hasContinuousCoverage] returns [true] exactly when [getGaps]
    returns no gap. *)
Theorem hasContinuousCoverage_iff_no_gaps this w h :
  ledgerInvariant (FlowModel.segments (FlowModel.objects h this)) ->
  Forall (fun s => nonEmpty (FlowSegment.timerange s))
         (FlowModel.segments (FlowModel.objects h this)) ->
  (completionOf (FlowModel.hasContinuousCoverage this w h) = Normal true <->
   completionOf (FlowModel.getGaps this w h) = Normal []).
Proof.
  rewrite hasContinuousCoverage_run, getGaps_run.
  unfold ledgerInvariant, segmentsSorted, segmentsDisjoint.
  induction (FlowModel.segments (FlowModel.objects h this)) as [|prev [|curr rest] IH];
    intros [Hs Hd] Hne; try (split; reflexivity).
  inversion Hs as [|? ? Hs' Hsp]; subst.
  inversion Hd as [|? ? Hdp Hd']; subst.
  inversion Hne as [|? ? Hnp Hne']; subst.
  specialize (IH (conj Hs' Hd') Hne').
  rewrite Forall_forall in Hsp, Hdp, Hne'.
  pose proof (earlier_segment_ends_first prev curr (Hsp curr (or_introl eq_refl))
                (Hdp curr (or_introl eq_refl)) (Hne' curr (or_introl eq_refl))) as Hle.
  unfold notAfter in Hle.
  cbn [FlowModel.coverageFrom FlowModel.gapsFrom]. cbv zeta.
  destruct (Z.eqb_spec (TimestampUtils.compare (end_ (FlowSegment.timerange prev))
                          (start (FlowSegment.timerange curr))) 0) as [E|N]; simpl negb; cbv iota.
  - rewrite E. simpl (0 <? 0). cbv iota. exact IH.
  - destruct (Z.ltb_spec (TimestampUtils.compare (end_ (FlowSegment.timerange prev))
                            (start (FlowSegment.timerange curr))) 0); [|lia].
    split; discriminate.
Qed.

Lemma hasContinuousCoverage_iff_no_gaps_example :
  completionOf (FlowModel.hasContinuousCoverage 0%nat Examples.world (snd Examples.withSegments))
    = Normal true <->
  completionOf (FlowModel.getGaps 0%nat Examples.world (snd Examples.withSegments)) = Normal [].
Proof.
  apply (hasContinuousCoverage_iff_no_gaps 0%nat Examples.world (snd Examples.withSegments)).
  - vm_compute. split; repeat constructor; discriminate.
  - vm_compute. repeat constructor.
Defined.

(** ** Extraction *)

Lemma intersection_within a range : 
  notAfter (start range) (start (intersection a range)) /\
  notAfter (end_ (intersection a range)) (end_ range) /\
  notAfter (start a) (start (intersection a range)) /\
  notAfter (end_ (intersection a range)) (end_ a).
Proof.
  unfold intersection, notAfter; simpl.
  rewrite Z.gtb_ltb.
  pose proof (compare_antisym (start a) (start range)).
  pose proof (compare_antisym (end_ a) (end_ range)).
  destruct (Z.ltb_spec 0 (TimestampUtils.compare (start a) (start range)));
  destruct (Z.ltb_spec (TimestampUtils.compare (end_ a) (end_ range)) 0);
    rewrite ?compare_refl; repeat split; lia.
Qed.

(** Ranges cut out of two ranges overlap only if the two ranges do. *)
Lemma overlaps_inside a a' b b' :
  notAfter (start a) (start a') -> notAfter (end_ a') (end_ a) ->
  notAfter (start b) (start b') -> notAfter (end_ b') (end_ b) ->
  overlaps a b = false -> overlaps a' b' = false.
Proof.
  unfold overlaps, notAfter. intros H1 H2 H3 H4 Ho.
  destruct ((TimestampUtils.compare (start a') (end_ b') <? 0) &&
            (TimestampUtils.compare (end_ a') (start b') >? 0)) eqn:E; [|reflexivity].
  exfalso.
  apply andb_true_iff in E. rewrite Z.ltb_lt, Z.gtb_ltb, Z.ltb_lt in E.
  apply andb_false_iff in Ho. rewrite Z.ltb_ge, Z.gtb_ltb, Z.ltb_ge in Ho.
  destruct E as [E1 E2].
  revert H1 H2 H3 H4 Ho E1 E2.
  generalize (start a) (end_ a) (start a') (end_ a') (start b) (end_ b) (start b') (end_ b').
  intros sa ea sa' ea' sb eb sb' eb' H1 H2 H3 H4 Ho E1 E2.
  assert (TimestampUtils.compare sa eb < 0).
  { clear - H1 E1 H4. compare_cases; lia. }
  assert (0 < TimestampUtils.compare ea sb).
  { clear - H2 E2 H3. compare_cases; lia. }
  lia.
Qed.

Lemma pairwise_app_inv {A} (R : A -> A -> Prop) l x r :
  ForallOrdPairs R (l ++ x :: r) -> Forall (fun d => R d x) l.
Proof.
  induction l as [|a l IH]; simpl; intros H; [constructor|].
  inversion H as [|? ? Ha Hr]; subst.
  constructor; [|apply IH; exact Hr].
  rewrite Forall_forall in Ha. apply Ha. apply in_or_app. right. left. reflexivity.
Qed.

(** The loop of [extractRange]: adding to [newFlow] the cut of each
    remaining segment, given that the cuts of the segments done so far
    are what [newFlow] holds and that all of them are pairwise free of
    overlaps. *)
Lemma extractRange_loop newFlow range (body : FlowSegment.t -> M FlowModel.Heap unit) :
  (forall segment, exists input : string -> SegmentInput.t,
     body segment =
       bind uuidv4 (fun id1 =>
         bind (FlowModel.addSegment newFlow (input id1)) (fun _ => ret tt)) /\
     forall id1,
       SegmentInput.timerange (input id1)
       = intersection (FlowSegment.timerange segment) range) ->
  forall todo done w h,
    ForallOrdPairs
      (fun a b => overlaps (FlowSegment.timerange a) (FlowSegment.timerange b) = false)
      (done ++ todo) ->
    Permutation (map FlowSegment.timerange (FlowModel.segments (FlowModel.objects h newFlow)))
                (map (fun s => intersection (FlowSegment.timerange s) range) done) ->
    ledgerInvariant (FlowModel.segments (FlowModel.objects h newFlow)) ->
    let h' := storeOf (forOf todo body w h) in
    completionOf (forOf todo body w h) = Normal tt /\
    Permutation (map FlowSegment.timerange (FlowModel.segments (FlowModel.objects h' newFlow)))
                (map (fun s => intersection (FlowSegment.timerange s) range) (done ++ todo)) /\
    ledgerInvariant (FlowModel.segments (FlowModel.objects h' newFlow)) /\
    FlowModel.generation (FlowModel.objects h' newFlow)
      = FlowModel.generation (FlowModel.objects h newFlow) + JS.len todo /\
    FlowModel.id (FlowModel.objects h' newFlow) = FlowModel.id (FlowModel.objects h newFlow) /\
    FlowModel.allocated h' = FlowModel.allocated h /\
    (forall r, r <> newFlow -> FlowModel.objects h' r = FlowModel.objects h r).
Proof.
  intros Hbody0.
  induction todo as [|seg rest IH]; intros done w h Hd Hp Hinv; cbn [forOf].
  - unfold completionOf, storeOf; simpl. rewrite app_nil_r.
    repeat split; try assumption; try apply Hinv. unfold JS.len; simpl; lia.
  - destruct (Hbody0 seg) as (input & Hbody & Hinput).
    set (w1 := mkWorld (uuidSource w) (clockSource w) (S (uuidCount w)) (clockCount w)).
    set (inp := input (uuidSource w (uuidCount w))).
    assert (Hstep : body seg w h =
              match completionOf (FlowModel.addSegment newFlow inp w1 h) with
              | Normal _ =>
                  (worldOf (FlowModel.addSegment newFlow inp w1 h),
                   storeOf (FlowModel.addSegment newFlow inp w1 h), Normal tt)
              | Throw e =>
                  (worldOf (FlowModel.addSegment newFlow inp w1 h),
                   storeOf (FlowModel.addSegment newFlow inp w1 h), Throw e)
              end).
    { rewrite Hbody. cbv [bind uuidv4 ret]. fold w1. fold inp.
      unfold completionOf, worldOf, storeOf.
      destruct (FlowModel.addSegment newFlow inp w1 h) as [[w' h'] [a|e]]; reflexivity. }
    destruct (addSegment_run newFlow inp w1 h) as (Hc & Ha & Hr & Hw).
    assert (Hnone : find (fun e => overlaps (SegmentInput.timerange inp) (FlowSegment.timerange e))
                      (FlowModel.segments (FlowModel.objects h newFlow)) = None).
    { destruct (find _ _) as [e|] eqn:Hf; [|reflexivity]. exfalso.
      apply find_some in Hf. destruct Hf as [Hin Ho].
      assert (Hin' : In (FlowSegment.timerange e)
                (map (fun s => intersection (FlowSegment.timerange s) range) done)).
      { eapply Permutation_in; [exact Hp|]. apply in_map. exact Hin. }
      apply in_map_iff in Hin'. destruct Hin' as (d & Ed & Hd').
      pose proof (pairwise_app_inv _ _ _ _ Hd) as Hall.
      rewrite Forall_forall in Hall. specialize (Hall d Hd').
      subst inp. rewrite Hinput, <- Ed in Ho.
      rewrite overlaps_sym in Ho.
      destruct (intersection_within (FlowSegment.timerange d) range) as (_ & _ & D1 & D2).
      destruct (intersection_within (FlowSegment.timerange seg) range) as (_ & _ & S1 & S2).
      rewrite (overlaps_inside _ _ _ _ D1 D2 S1 S2 Hall) in Ho. discriminate. }
    rewrite Hnone in Hc. specialize (Hw Hnone).
    rewrite Hc in Hstep.
    set (h1 := storeOf (FlowModel.addSegment newFlow inp w1 h)) in *.
    set (w2 := worldOf (FlowModel.addSegment newFlow inp w1 h)) in *.
    rewrite bind_run, Hstep.
    cbn [completionOf worldOf storeOf fst snd].
    assert (Hp1 : Permutation
              (map FlowSegment.timerange (FlowModel.segments (FlowModel.objects h1 newFlow)))
              (map (fun s => intersection (FlowSegment.timerange s) range) (done ++ [seg]))).
    { rewrite Hw. simpl FlowModel.segments.
      eapply Permutation_trans; [apply Permutation_map, sort_perm|].
      unfold JS.push. rewrite !map_app. simpl map.
      unfold inp. rewrite Hinput. apply Permutation_app_tail. exact Hp. }
    assert (Hinv1 : ledgerInvariant (FlowModel.segments (FlowModel.objects h1 newFlow))).
    { apply addSegment_keeps_ledger; [exact Hinv | rewrite Hc; reflexivity]. }
    assert (Hd1 : ForallOrdPairs
              (fun a b => overlaps (FlowSegment.timerange a) (FlowSegment.timerange b) = false)
              ((done ++ [seg]) ++ rest)).
    { rewrite <- app_assoc. exact Hd. }
    destruct (IH (done ++ [seg]) w2 h1 Hd1 Hp1 Hinv1) as (I1 & I2 & I3 & I4 & I5 & I6 & I7).
    split; [exact I1|]. split; [rewrite <- app_assoc in I2; exact I2|].
    split; [exact I3|].
    split; [rewrite I4, Hw; simpl; unfold JS.len; simpl List.length; lia|].
    split; [rewrite I5, Hw; reflexivity|].
    split; [rewrite I6; exact Ha|].
    intros r Hr'. rewrite I7 by exact Hr'. apply Hr. exact Hr'.
Qed.

Lemma constructor_object d w h :
  let o := FlowModel.objects (storeOf (FlowModel.constructor d w h)) (FlowModel.allocated h) in
  FlowModel.segments o = match FlowData.segments d with Some l => l | None => [] end /\
  FlowModel.generation o = match FlowData.generation d with Some g => g | None => 0 end /\
  FlowModel.sourceId o = FlowData.sourceId d /\
  FlowModel.label o = FlowData.label d /\
  (forall s, JS.truthy (FlowData.id d) = Some s -> FlowModel.id o = s).
Proof.
  unfold FlowModel.constructor.
  destruct (JS.truthy (FlowData.id d)) eqn:Et, (FlowData.created d), (FlowData.updated d);
    unfold completionOf, storeOf; simpl; rewrite Nat.eqb_refl; simpl;
    repeat split; try congruence; intros s0 [= <-]; reflexivity.
Qed.

Lemma extractRange_spec this range newId h :
  (this < FlowModel.allocated h)%nat ->
  segmentsDisjoint (FlowModel.segments (FlowModel.objects h this)) ->
  hoare (fun h0 => h0 = h) (FlowModel.extractRange this range newId)
    (fun r h' =>
       r = FlowModel.allocated h /\
       Permutation
         (map FlowSegment.timerange (FlowModel.segments (FlowModel.objects h' r)))
         (map (fun s => intersection (FlowSegment.timerange s) range)
              (filter (fun s => overlaps (FlowSegment.timerange s) range)
                      (FlowModel.segments (FlowModel.objects h this)))) /\
       ledgerInvariant (FlowModel.segments (FlowModel.objects h' r)) /\
       FlowModel.generation (FlowModel.objects h' r)
         = JS.len (filter (fun s => overlaps (FlowSegment.timerange s) range)
                          (FlowModel.segments (FlowModel.objects h this))) /\
       (forall s, JS.truthy newId = Some s -> FlowModel.id (FlowModel.objects h' r) = s))
    (fun _ => False).
Proof.
  intros Hlive Hdis.
  unfold FlowModel.extractRange.
  eapply hoare_bind with (Q := fun self h0 => self = FlowModel.objects h this /\ h0 = h).
  { intros w h0 ->. split; reflexivity. }
  intros self. cbv beta. apply hoare_pure. intros ->. cbv zeta.
  eapply hoare_bind with
    (Q := fun id0 h0 => (forall s, JS.truthy newId = Some s -> id0 = s) /\ h0 = h).
  { intros w h0 ->. destruct (JS.truthy newId); split; try reflexivity; congruence. }
  intros id0. cbv beta. apply hoare_pure. intros Hid.
  eapply hoare_bind with (Q := fun _ h0 => h0 = h).
  { intros w h0 ->. reflexivity. }
  intros created0. cbv beta.
  eapply hoare_bind with (Q := fun _ h0 => h0 = h).
  { intros w h0 ->. reflexivity. }
  intros updated0. cbv beta.
  set (relevant := filter (fun s => overlaps (FlowSegment.timerange s) range)
                          (FlowModel.segments (FlowModel.objects h this))).
  set (fresh := fun h1 =>
         FlowModel.allocated h1 = S (FlowModel.allocated h) /\
         (forall x, x <> FlowModel.allocated h -> FlowModel.objects h1 x = FlowModel.objects h x) /\
         FlowModel.segments (FlowModel.objects h1 (FlowModel.allocated h)) = [] /\
         FlowModel.generation (FlowModel.objects h1 (FlowModel.allocated h)) = 0 /\
         (forall s, JS.truthy newId = Some s ->
                    FlowModel.id (FlowModel.objects h1 (FlowModel.allocated h)) = s)).
  eapply hoare_bind with (Q := fun newFlow h1 => newFlow = FlowModel.allocated h /\ fresh h1).
  { intros w h0 ->.
    match goal with |- context [FlowModel.constructor ?d0] => set (d := d0) end.
    destruct (constructor_run d w h) as (Hc & Ha & Hr).
    destruct (constructor_object d w h) as (Hs & Hg & _ & _ & Hi).
    unfold FlowModel.Ref in *.
    rewrite Hc. split; [reflexivity|]. unfold fresh.
    repeat split; try assumption.
    intros s Hs'. specialize (Hid s Hs'). subst id0.
    apply Hi. subst d. simpl. unfold JS.truthy in Hs'.
    destruct newId as [[|c r]|]; try discriminate. injection Hs' as <-. reflexivity. }
  intros newFlow. cbv beta. apply hoare_pure. intros ->.
  eapply hoare_bind with (Q := fun rel h1 => rel = relevant /\ fresh h1).
  { intros w h1 Hf. split; [|exact Hf].
    destruct Hf as (_ & Hr & _).
    unfold FlowModel.getSegmentsInRange, FlowModel.read.
    cbv [bind ret completionOf snd]. cbv beta iota zeta.
    rewrite Hr by lia. reflexivity. }
  intros rel. cbv beta. apply hoare_pure. intros ->.
  eapply hoare_bind with
    (Q := fun _ h2 =>
       Permutation
         (map FlowSegment.timerange
              (FlowModel.segments (FlowModel.objects h2 (FlowModel.allocated h))))
         (map (fun s => intersection (FlowSegment.timerange s) range) relevant) /\
       ledgerInvariant (FlowModel.segments (FlowModel.objects h2 (FlowModel.allocated h))) /\
       FlowModel.generation (FlowModel.objects h2 (FlowModel.allocated h)) = JS.len relevant /\
       (forall s, JS.truthy newId = Some s ->
                  FlowModel.id (FlowModel.objects h2 (FlowModel.allocated h)) = s)).
  { intros w h1 (Ha & Hr & Hs & Hg & Hi).
    match goal with |- context [forOf relevant ?b] => set (body := b) end.
    assert (Hd : ForallOrdPairs
              (fun a b => overlaps (FlowSegment.timerange a) (FlowSegment.timerange b) = false)
              ([] ++ relevant)).
    { simpl. unfold relevant. clear - Hdis. unfold segmentsDisjoint in Hdis.
      induction Hdis as [|a l Hal Hl IH]; simpl; [constructor|].
      destruct (overlaps (FlowSegment.timerange a) range); [|exact IH].
      constructor; [|exact IH].
      apply Forall_forall. intros x Hx. apply filter_In in Hx.
      rewrite Forall_forall in Hal. apply Hal, Hx. }
    destruct (extractRange_loop (FlowModel.allocated h) range body) with
      (todo := relevant) (done := @nil FlowSegment.t) (w := w) (h := h1)
      as (L1 & L2 & L3 & L4 & L5 & _).
    - intros segment. eexists. split; [reflexivity | intros id1; reflexivity].
    - exact Hd.
    - rewrite Hs. constructor.
    - rewrite Hs. split; constructor.
    - rewrite L1. simpl in L2.
      split; [exact L2|]. split; [exact L3|]. split.
      + rewrite L4, Hg. apply Z.add_0_l.
      + rewrite L5. exact Hi. }
  intros u. apply hoare_ret. intros h2 H2. split; [reflexivity | exact H2].
Qed.

(** X18.  [extractRange] on a live Flow whose segments are pairwise free
    of overlap never throws: it returns a new Flow whose segments are
    the segments of the receiver that overlap [range], each cut down to
    its intersection with [range]; they are sorted by start, pairwise
    free of overlap, and each lies within [range]. *)
Theorem extractRange_cuts_segments_to_range this range newId w h :
  (this < FlowModel.allocated h)%nat ->
  segmentsDisjoint (FlowModel.segments (FlowModel.objects h this)) ->
  let relevant :=
    filter (fun s => overlaps (FlowSegment.timerange s) range)
           (FlowModel.segments (FlowModel.objects h this)) in
  let call := FlowModel.extractRange this range newId w h in
  let extracted :=
    FlowModel.segments (FlowModel.objects (storeOf call) (FlowModel.allocated h)) in
  completionOf call = Normal (FlowModel.allocated h) /\
  Permutation (map FlowSegment.timerange extracted)
              (map (fun s => intersection (FlowSegment.timerange s) range) relevant) /\
  ledgerInvariant extracted /\
  Forall (fun s => within (FlowSegment.timerange s) range) extracted.
Proof.
  intros Hlive Hdis relevant call extracted.
  pose proof (extractRange_spec this range newId h Hlive Hdis w h eq_refl) as H.
  fold call in H.
  destruct (completionOf call) as [r|e]; [|contradiction].
  destruct H as (-> & Hp & Hinv & _ & _).
  fold extracted in Hp, Hinv. fold relevant in Hp.
  repeat split; try assumption; try apply Hinv.
  apply Forall_forall. intros s Hs.
  assert (Hin : In (FlowSegment.timerange s) (map FlowSegment.timerange extracted))
    by (apply in_map; exact Hs).
  apply (Permutation_in _ Hp) in Hin.
  apply in_map_iff in Hin. destruct Hin as (o & <- & _).
  destruct (intersection_within (FlowSegment.timerange o) range) as (A & B & _).
  split; assumption.
Qed.

Lemma extractRange_cuts_segments_to_range_example :
  (0 < FlowModel.allocated (snd Examples.withSegments))%nat /\
  segmentsDisjoint (FlowModel.segments (FlowModel.objects (snd Examples.withSegments) 0%nat)) /\
  Forall (fun s => within (FlowSegment.timerange s) (Examples.range 5 12))
    (FlowModel.segments
       (FlowModel.objects
          (storeOf (FlowModel.extractRange 0%nat (Examples.range 5 12) None
                      (fst Examples.withSegments) (snd Examples.withSegments)))
          (FlowModel.allocated (snd Examples.withSegments)))).
Proof.
  assert (Hlive : (0 < FlowModel.allocated (snd Examples.withSegments))%nat)
    by (vm_compute; lia).
  assert (Hdis : segmentsDisjoint
            (FlowModel.segments (FlowModel.objects (snd Examples.withSegments) 0%nat)))
    by (vm_compute; repeat constructor).
  split; [exact Hlive|]. split; [exact Hdis|].
  apply (extractRange_cuts_segments_to_range 0%nat (Examples.range 5 12) None
           (fst Examples.withSegments) (snd Examples.withSegments) Hlive Hdis).
Defined.

(** ** Cloning *)

Lemma mapM_run {S A B} (R : A -> B -> Prop) (f : A -> M S B) :
  (forall x w s, exists w' y, f x w s = (w', s, Normal y) /\ R x y) ->
  forall l w s, exists w' ys, mapM f l w s = (w', s, Normal ys) /\ Forall2 R l ys.
Proof.
  intros Hf. induction l as [|x r IH]; intros w s; cbn [mapM].
  - exists w, []. split; [reflexivity | constructor].
  - destruct (Hf x w s) as (w1 & y & E1 & R1).
    destruct (IH w1 s) as (w2 & ys & E2 & R2).
    exists w2, (y :: ys). split; [|constructor; assumption].
    unfold bind. rewrite E1, E2. reflexivity.
Qed.

Lemma bind_normal {S A B} (m : M S A) (k : A -> M S B) w s w' s' a :
  m w s = (w', s', Normal a) -> bind m k w s = k a w' s'.
Proof. intros E. unfold bind. rewrite E. reflexivity. Qed.

(** X19.  Given that the next uuid is not the empty string, [clone] never
    throws.  It returns a new Flow at generation 0 whose id is [newId]
    when that is a non-empty string and the next uuid otherwise (an
    empty [newId] counts as none), and whose segments are those of the
    receiver in the same order, each with its time range, object ids,
    offset, duration and media range, and with the id of the clone as
    its [flowId]. *)
Theorem clone_copies_segments this newId w h :
  uuidSource w (uuidCount w) <> EmptyString ->
  let call := FlowModel.clone this newId w h in
  let copy := FlowModel.objects (storeOf call) (FlowModel.allocated h) in
  completionOf call = Normal (FlowModel.allocated h) /\
  FlowModel.id copy = match JS.truthy newId with
                      | Some s => s
                      | None => uuidSource w (uuidCount w)
                      end /\
  FlowModel.generation copy = 0 /\
  Forall2 (fun s y =>
             FlowSegment.flowId y = FlowModel.id copy /\
             FlowSegment.timerange y = FlowSegment.timerange s /\
             FlowSegment.objectIds y = FlowSegment.objectIds s /\
             FlowSegment.tsOffset y = FlowSegment.tsOffset s /\
             FlowSegment.duration y = FlowSegment.duration s /\
             FlowSegment.mediaTimerange y = FlowSegment.mediaTimerange s)
          (FlowModel.segments (FlowModel.objects h this))
          (FlowModel.segments copy).
Proof.
  intros Huuid call copy. subst copy call. unfold FlowModel.clone.
  destruct (JS.truthy newId) as [given|] eqn:Et.
  all: erewrite bind_normal by reflexivity.
  all: erewrite bind_normal by reflexivity.
  all: erewrite bind_normal by reflexivity.
  all: erewrite bind_normal by reflexivity.
  all: match goal with |- context [bind (mapM ?f ?segs) ?k ?w1 ?h1] =>
         match f with context [FlowSegment.mk _ ?cid] =>
         destruct (mapM_run
           (fun s y =>
              FlowSegment.flowId y = cid /\
              FlowSegment.timerange y = FlowSegment.timerange s /\
              FlowSegment.objectIds y = FlowSegment.objectIds s /\
              FlowSegment.tsOffset y = FlowSegment.tsOffset s /\
              FlowSegment.duration y = FlowSegment.duration s /\
              FlowSegment.mediaTimerange y = FlowSegment.mediaTimerange s) f) with
           (l := segs) (w := w1) (s := h1) as (w2 & ys & E & F);
         [ intros x w0 s0; eexists _, _; split; [reflexivity | cbn; repeat split]
         | rewrite (bind_normal _ k _ _ _ _ _ E) ]
         end
       end.
  all: match goal with |- context [FlowModel.constructor ?d0 ?w1 ?h1] =>
         set (d := d0);
         destruct (constructor_run d w1 h1) as (Hc & _);
         destruct (constructor_object d w1 h1) as (Hs & Hg & _ & _ & Hi)
       end.
  all: unfold FlowModel.Ref in *; rewrite Hc.
  all: cbn [FlowData.segments FlowData.generation FlowData.id d] in Hs, Hg, Hi.
  all: rewrite Hs, Hg.
  - assert (Hid : JS.truthy (Some given) = Some given).
    { destruct newId as [[|c r]|]; try discriminate. injection Et as <-. reflexivity. }
    rewrite (Hi _ Hid). repeat split. exact F.
  - assert (Hid : JS.truthy (Some (uuidSource w (uuidCount w)))
                  = Some (uuidSource w (uuidCount w))).
    { destruct (uuidSource w (uuidCount w)); [contradiction | reflexivity]. }
    rewrite (Hi _ Hid). repeat split. exact F.
Qed.

Lemma clone_copies_segments_example :
  uuidSource (fst Examples.withSegments) (uuidCount (fst Examples.withSegments))
    <> EmptyString /\
  let call := FlowModel.clone 0%nat (Some EmptyString)
                (fst Examples.withSegments) (snd Examples.withSegments) in
  completionOf call = Normal (FlowModel.allocated (snd Examples.withSegments)) /\
  FlowModel.generation
    (FlowModel.objects (storeOf call) (FlowModel.allocated (snd Examples.withSegments))) = 0.
Proof.
  assert (Huuid : uuidSource (fst Examples.withSegments)
                    (uuidCount (fst Examples.withSegments)) <> EmptyString)
    by (vm_compute; discriminate).
  split; [exact Huuid|].
  pose proof (clone_copies_segments 0%nat (Some EmptyString)
                (fst Examples.withSegments) (snd Examples.withSegments) Huuid) as H.
  split; [exact (proj1 H) | exact (proj1 (proj2 (proj2 H)))].
Defined.

(* ================================================================== *)
(** * The derived duration                                             *)
(* ================================================================== *)

Section MaxEnd.
Variable clipEnd : ClipRef -> Timestamp.

Lemma maxEnd_step init c :
  let m := if TimestampUtils.compare (clipEnd c) init >? 0 then clipEnd c else init in
  notAfter init m /\ notAfter (clipEnd c) m /\ (m = init \/ m = clipEnd c).
Proof.
  cbv zeta. rewrite Z.gtb_ltb.
  destruct (Z.ltb_spec 0 (TimestampUtils.compare (clipEnd c) init)).
  - split; [apply notAfter_total; lia|].
    split; [unfold notAfter; rewrite compare_refl; lia | right; reflexivity].
  - split; [unfold notAfter; rewrite compare_refl; lia|].
    split; [unfold notAfter; lia | left; reflexivity].
Qed.

Lemma maxEnd_clips l : forall init,
  let m := fold_left (fun maxEnd c =>
                        if TimestampUtils.compare (clipEnd c) maxEnd >? 0
                        then clipEnd c else maxEnd) l init in
  notAfter init m /\
  (forall c, In c l -> notAfter (clipEnd c) m) /\
  (m = init \/ exists c, In c l /\ m = clipEnd c).
Proof.
  induction l as [|c r IH]; intros init; cbn [fold_left].
  - split; [unfold notAfter; rewrite compare_refl; lia|].
    split; [intros c []|left; reflexivity].
  - destruct (maxEnd_step init c) as (Hi & Hc & Hm).
    cbv zeta in Hi, Hc, Hm.
    set (m0 := if TimestampUtils.compare (clipEnd c) init >? 0 then clipEnd c else init) in *.
    destruct (IH m0) as (H1 & H2 & H3).
    split; [exact (notAfter_trans _ _ _ Hi H1)|].
    split.
    + intros x [<-|Hx]; [exact (notAfter_trans _ _ _ Hc H1) | exact (H2 x Hx)].
    + destruct H3 as [H3|(x & Hx & H3)].
      * rewrite H3. destruct Hm as [Hm|Hm]; rewrite Hm;
          [left; reflexivity | right; exists c; split; [left; reflexivity | reflexivity]].
      * right. exists x. split; [right; exact Hx | exact H3].
Qed.

Lemma maxEnd_tracks l : forall init,
  let m := fold_left (fun maxEnd track =>
                        fold_left (fun maxEnd c =>
                                     if TimestampUtils.compare (clipEnd c) maxEnd >? 0
                                     then clipEnd c else maxEnd)
                                  (Track.clips track) maxEnd) l init in
  notAfter init m /\
  (forall track c, In track l -> In c (Track.clips track) -> notAfter (clipEnd c) m) /\
  (m = init \/ exists track c, In track l /\ In c (Track.clips track) /\ m = clipEnd c).
Proof.
  induction l as [|t r IH]; intros init; cbn [fold_left].
  - split; [unfold notAfter; rewrite compare_refl; lia|].
    split; [intros t c []|left; reflexivity].
  - destruct (maxEnd_clips (Track.clips t) init) as (G1 & G2 & G3).
    cbv zeta in G1, G2, G3.
    match type of G1 with notAfter _ ?m => set (m0 := m) in * end.
    destruct (IH m0) as (H1 & H2 & H3).
    split; [exact (notAfter_trans _ _ _ G1 H1)|].
    split.
    + intros x c [<-|Hx] Hc; [exact (notAfter_trans _ _ _ (G2 c Hc) H1) | exact (H2 x c Hx Hc)].
    + destruct H3 as [H3|(x & c & Hx & Hc & H3)].
      * rewrite H3. destruct G3 as [G3|(c & Hc & G3)]; [left; exact G3|].
        right. exists t, c. split; [left; reflexivity | split; assumption].
      * right. exists x, c. split; [right; exact Hx | split; assumption].
Qed.

End MaxEnd.

(** X20.  [updateTimeline] sets [duration] to the latest end among all
    clips of all tracks, and to 0 s when no clip ends after 0 s: the
    duration is at least 0 s and at least the end of every clip, and it
    is 0 s or the end of one of the clips. *)
Theorem updateTimeline_duration_is_latest_end w s :
  let s' := storeOf (TimelineManager.updateTimeline w s) in
  let clipEnd c := end_ (Clip.timelineRange (TimelineManager.clipObjects s' c)) in
  completionOf (TimelineManager.updateTimeline w s) = Normal tt /\
  notAfter (TimestampUtils.create 0 0) (TimelineManager.getDuration s') /\
  (forall track c, In track (TimelineManager.tracks s') -> In c (Track.clips track) ->
     notAfter (clipEnd c) (TimelineManager.getDuration s')) /\
  (TimelineManager.getDuration s' = TimestampUtils.create 0 0 \/
   exists track c, In track (TimelineManager.tracks s') /\ In c (Track.clips track) /\
     TimelineManager.getDuration s' = clipEnd c).
Proof.
  intros s' clipEnd. subst s' clipEnd. rewrite updateTimeline_run.
  unfold completionOf, storeOf, TimelineManager.getDuration, TimelineManager.tracks; simpl.
  split; [reflexivity|].
  exact (maxEnd_tracks (fun c => end_ (Clip.timelineRange (TimelineManager.clipObjects s c)))
           (Timeline.tracks (TimelineManager.timeline s)) (TimestampUtils.create 0 0)).
Qed.

(* ================================================================== *)
(** * Arrays: searching and inserting                                  *)
(* ================================================================== *)

Lemma findIndexFrom_spec {A} (p : A -> bool) (l : list A) : forall i,
  (JS.findIndexFrom p i l = -1 /\ (0 <= i -> forall x, In x l -> p x = false)) \/
  (exists l1 x l2, l = l1 ++ x :: l2 /\ JS.findIndexFrom p i l = i + JS.len l1 /\
                   p x = true /\ forall y, In y l1 -> p y = false).
Proof.
  induction l as [|a r IH]; intros i; cbn [JS.findIndexFrom].
  - left. split; [reflexivity | intros _ x []].
  - destruct (p a) eqn:Ha.
    + right. exists [], a, r. unfold JS.len; simpl.
      split; [reflexivity|]. split; [lia|]. split; [exact Ha|]. intros y [].
    + destruct (IH (i + 1)) as [[E H]|(l1 & x & l2 & -> & E & Hx & Hl)].
      * left. split; [exact E|]. intros Hi x [<-|Hx]; [exact Ha | apply H; [lia | exact Hx]].
      * right. exists (a :: l1), x, l2. unfold JS.len in *; cbn [Datatypes.length app].
        split; [reflexivity|]. split; [lia|]. split; [exact Hx|].
        intros y [<-|Hy]; [exact Ha | exact (Hl y Hy)].
Qed.

Lemma findIndex_spec {A} (p : A -> bool) (l : list A) :
  (JS.findIndex p l = -1 /\ forall x, In x l -> p x = false) \/
  (exists l1 x l2, l = l1 ++ x :: l2 /\ JS.findIndex p l = JS.len l1 /\
                   p x = true /\ forall y, In y l1 -> p y = false).
Proof.
  unfold JS.findIndex.
  destruct (findIndexFrom_spec p l 0) as [[E H]|(l1 & x & l2 & -> & E & Hx & Hl)].
  - left. split; [exact E | apply H; lia].
  - right. exists l1, x, l2. rewrite E.
    split; [reflexivity|]. split; [lia|]. split; assumption.
Qed.

Lemma splice_insert_at {A} (x : A) (l1 l2 : list A) :
  JS.splice (JS.len l1) 0 [x] (l1 ++ l2) = l1 ++ x :: l2.
Proof.
  unfold JS.splice, JS.relIndex, JS.len. rewrite length_app.
  destruct (Z.ltb_spec (Z.of_nat (List.length l1)) 0); [lia|].
  rewrite Z.min_l by lia.
  rewrite Z.max_l by lia. rewrite Z.min_l by lia.
  rewrite Z.add_0_r, Nat2Z.id.
  rewrite firstn_app, firstn_all, Nat.sub_diag, firstn_0, app_nil_r.
  rewrite skipn_app, skipn_all, Nat.sub_diag, skipn_0. reflexivity.
Qed.

(** Whatever the index, [splice(i, 0, x)] only inserts. *)
Lemma splice_insert_perm {A} (i : Z) (x : A) (l : list A) :
  exists l1 l2, l = l1 ++ l2 /\ JS.splice i 0 [x] l = l1 ++ x :: l2.
Proof.
  unfold JS.splice.
  set (from := JS.relIndex i l).
  assert (Hf : 0 <= from <= JS.len l).
  { unfold from, JS.relIndex. pose proof (len_nonneg l).
    destruct (Z.ltb_spec i 0); lia. }
  exists (firstn (Z.to_nat from) l), (skipn (Z.to_nat from) l).
  split; [symmetry; apply firstn_skipn|].
  rewrite Z.max_l by lia. rewrite Z.min_l by lia. rewrite Z.add_0_r. reflexivity.
Qed.

(* ================================================================== *)
(** * Markers                                                          *)
(* ================================================================== *)

Lemma addMarker_run marker w s :
  let newMarker :=
    Marker.mk (uuidSource w (uuidCount w)) (MarkerInput.timestamp marker)
      (MarkerInput.type marker) (MarkerInput.label marker)
      (MarkerInput.description marker) (MarkerInput.color marker)
      (MarkerInput.userId marker) in
  let markers := Timeline.markers (TimelineManager.timeline s) in
  let insertIndex :=
    JS.findIndex (fun m =>
        TimestampUtils.compare (Marker.timestamp m) (MarkerInput.timestamp marker) >? 0)
      markers in
  let r := TimelineManager.addMarker marker w s in
  completionOf r = Normal newMarker /\
  Timeline.markers (TimelineManager.timeline (storeOf r))
    = (if insertIndex =? -1 then JS.push newMarker markers
       else JS.splice insertIndex 0 [newMarker] markers) /\
  TimelineManager.tracks (storeOf r) = TimelineManager.tracks s /\
  TimelineManager.clipObjects (storeOf r) = TimelineManager.clipObjects s /\
  TimelineManager.getDuration (storeOf r) = TimelineManager.getDuration s.
Proof.
  unfold TimelineManager.addMarker.
  cbv [bind uuidv4 newDate get ret]. cbv beta iota zeta.
  destruct (JS.findIndex _ _ =? -1); cbv [modify]; cbv beta iota;
    rewrite executeCommand_run; unfold completionOf, storeOf; simpl; repeat split.
Qed.

(** X21.  [addMarker] never throws and keeps the markers in ascending
    order of timestamp: if they were ascending before the call they are
    ascending after it, and they are the markers from before together
    with the new one, which carries a fresh id and the given fields. *)
Theorem addMarker_keeps_markers_sorted marker w s :
  markersSorted (Timeline.markers (TimelineManager.timeline s)) ->
  let r := TimelineManager.addMarker marker w s in
  let markers' := Timeline.markers (TimelineManager.timeline (storeOf r)) in
  exists newMarker,
    completionOf r = Normal newMarker /\
    Marker.timestamp newMarker = MarkerInput.timestamp marker /\
    Marker.id newMarker = uuidSource w (uuidCount w) /\
    markersSorted markers' /\
    Permutation markers' (newMarker :: Timeline.markers (TimelineManager.timeline s)).
Proof.
  intros Hs r markers'. subst r markers'.
  destruct (addMarker_run marker w s) as (Hc & Hm & _).
  eexists. split; [exact Hc|]. split; [reflexivity|]. split; [reflexivity|].
  rewrite Hm. clear Hc Hm.
  set (newMarker := Marker.mk _ _ _ _ _ _ _).
  set (p := fun m => TimestampUtils.compare (Marker.timestamp m) (MarkerInput.timestamp marker) >? 0).
  unfold markersSorted in *.
  destruct (findIndex_spec p (Timeline.markers (TimelineManager.timeline s)))
    as [[E H]|(l1 & x & l2 & El & E & Hx & Hl)].
  - rewrite E. simpl (-1 =? -1). cbv iota. unfold JS.push. split.
    + clear E. induction Hs as [|a l Hl IH Ha]; simpl.
      * constructor; constructor.
      * constructor; [apply IH; intros y Hy; apply H; right; exact Hy|].
        apply Forall_app. split; [exact Ha|]. constructor; [|constructor].
        specialize (H a (or_introl eq_refl)). unfold p in H.
        rewrite Z.gtb_ltb in H. apply Z.ltb_ge in H. exact H.
    + apply Permutation_sym, Permutation_cons_append.
  - rewrite E, El in *.
    assert (Hn : (JS.len l1 =? -1) = false)
      by (apply Z.eqb_neq; pose proof (len_nonneg l1); lia).
    rewrite Hn. rewrite splice_insert_at. split.
    + clear E Hn El.
      assert (Hnx : earlier (MarkerInput.timestamp marker) (Marker.timestamp x)).
      { unfold p in Hx. rewrite Z.gtb_ltb in Hx. apply Z.ltb_lt in Hx.
        unfold earlier. rewrite compare_antisym. lia. }
      induction l1 as [|a l1 IH]; simpl in *.
      * constructor; [exact Hs|].
        inversion Hs as [|? ? Hs' Hx']; subst.
        constructor.
        -- unfold notAfter, earlier in *. simpl. lia.
        -- rewrite Forall_forall in *. intros y Hy. specialize (Hx' y Hy).
           apply (notAfter_trans _ (Marker.timestamp x)); [|exact Hx'].
           unfold notAfter, earlier in *. simpl. lia.
      * inversion Hs as [|? ? Hs' Ha]; subst.
        constructor; [apply IH; [exact Hs' | intros y Hy; apply Hl; right; exact Hy]|].
        apply Forall_app in Ha. destruct Ha as [Ha1 Ha2].
        apply Forall_app. split; [exact Ha1|].
        constructor; [|exact Ha2].
        specialize (Hl a (or_introl eq_refl)). unfold p in Hl.
        rewrite Z.gtb_ltb in Hl. apply Z.ltb_ge in Hl. exact Hl.
    + apply Permutation_sym, Permutation_middle.
Qed.

Lemma addMarker_keeps_markers_sorted_example :
  exists newMarker,
    resultOf (TimelineManager.addMarker (Examples.markerAt 3)) Examples.after150Markers
      = Normal newMarker /\
    Marker.timestamp newMarker = Examples.at_s 3 /\
    Marker.id newMarker
      = uuidSource (fst Examples.after150Markers) (uuidCount (fst Examples.after150Markers)) /\
    markersSorted
      (Timeline.markers
         (TimelineManager.timeline
            (snd (after (TimelineManager.addMarker (Examples.markerAt 3))
                        Examples.after150Markers)))) /\
    Permutation
      (Timeline.markers
         (TimelineManager.timeline
            (snd (after (TimelineManager.addMarker (Examples.markerAt 3))
                        Examples.after150Markers))))
      (newMarker :: Timeline.markers (TimelineManager.timeline (snd Examples.after150Markers))).
Proof.
  apply (addMarker_keeps_markers_sorted (Examples.markerAt 3)
           (fst Examples.after150Markers) (snd Examples.after150Markers)).
  unfold markersSorted.
  assert (H : forall l, ascending (map Marker.timestamp l) = true ->
              Sorted (fun a b => notAfter (Marker.timestamp a) (Marker.timestamp b)) l).
  { induction l as [|a [|b r] IH]; intros Ha; constructor.
    - constructor.
    - constructor.
    - apply IH. simpl in Ha. apply andb_true_iff in Ha. apply Ha.
    - constructor. simpl in Ha. apply andb_true_iff in Ha.
      apply Z.leb_le. apply Ha. }
  apply Sorted_StronglySorted.
  - intros a b c. apply notAfter_trans.
  - apply H. vm_compute. reflexivity.
Defined.

(* ================================================================== *)
(** * The undo cursor                                                  *)
(* ================================================================== *)

Lemma at_in_range {A} (l : list A) (i : Z) :
  0 <= i < JS.len l -> exists x, JS.at_ l i = Some x.
Proof.
  intros Hi. unfold JS.at_, JS.len in *.
  destruct (Z.ltb_spec i 0); [lia|].
  destruct (nth_error l (Z.to_nat i)) eqn:E; [eexists; reflexivity|].
  apply nth_error_None in E. lia.
Qed.

(** X22.  While the cursor points at a recorded command, [undo] returns
    [true] and moves the cursor one step back, and a [redo] right after
    it returns [true] and puts the cursor back: the history and the
    cursor are what they were before the two calls, and neither call
    touches a track, a clip or a marker. *)
Theorem undo_then_redo_restores_cursor cap w s :
  historyInvariant cap s ->
  TimelineManager.canUndo s = true ->
  let undone := after TimelineManager.undo (w, s) in
  let redone := after TimelineManager.redo undone in
  resultOf TimelineManager.undo (w, s) = Normal true /\
  TimelineManager.historyIndex (snd undone) = TimelineManager.historyIndex s - 1 /\
  TimelineManager.canRedo (snd undone) = true /\
  resultOf TimelineManager.redo undone = Normal true /\
  TimelineManager.historyIndex (snd redone) = TimelineManager.historyIndex s /\
  TimelineManager.history (snd redone) = TimelineManager.history s /\
  TimelineManager.tracks (snd redone) = TimelineManager.tracks s /\
  Timeline.markers (TimelineManager.timeline (snd redone))
    = Timeline.markers (TimelineManager.timeline s) /\
  TimelineManager.clipObjects (snd redone) = TimelineManager.clipObjects s.
Proof.
  intros (Hi & Hl & Hm & Hc) Hu undone redone.
  unfold TimelineManager.canUndo in Hu. apply Z.geb_le in Hu.
  destruct (at_in_range (TimelineManager.history s) (TimelineManager.historyIndex s))
    as (c & Hat); [lia|].
  assert (E1 : TimelineManager.undo w s =
               (worldOf (TimelineManager.updateTimeline w s),
                storeOf (TimelineManager.updateTimeline w
                  (TimelineManager.set_historyIndex (TimelineManager.historyIndex s - 1) s)),
                Normal true)).
  { rewrite undo_run. unfold TimelineManager.canUndo.
    destruct (Z.geb_spec (TimelineManager.historyIndex s) 0); [|lia].
    rewrite Hat. reflexivity. }
  subst redone undone. unfold after, resultOf. cbn [fst snd].
  rewrite E1. rewrite !updateTimeline_run.
  unfold worldOf, storeOf, completionOf. cbn [fst snd].
  set (s1 := TimelineManager.set_timeline _ _).
  set (w1 := mkWorld _ _ _ _).
  assert (Hh1 : TimelineManager.history s1 = TimelineManager.history s) by reflexivity.
  assert (Hi1 : TimelineManager.historyIndex s1 = TimelineManager.historyIndex s - 1)
    by reflexivity.
  assert (Hr : TimelineManager.canRedo s1 = true).
  { unfold TimelineManager.canRedo. rewrite Hh1, Hi1. apply Z.ltb_lt. lia. }
  assert (E2 : TimelineManager.redo w1 s1 =
               (worldOf (TimelineManager.updateTimeline w1 s1),
                storeOf (TimelineManager.updateTimeline w1
                  (TimelineManager.set_historyIndex (TimelineManager.historyIndex s1 + 1) s1)),
                Normal true)).
  { rewrite redo_run. rewrite Hr. rewrite Hh1, Hi1.
    replace (TimelineManager.historyIndex s - 1 + 1) with (TimelineManager.historyIndex s) by lia.
    rewrite Hat. reflexivity. }
  rewrite E2. rewrite !updateTimeline_run. cbn [fst snd].
  split; [reflexivity|]. split; [reflexivity|]. split; [exact Hr|].
  split; [reflexivity|].
  split; [cbn; lia|]. repeat split.
Qed.

Lemma undo_then_redo_restores_cursor_example :
  let undone := after TimelineManager.undo
                  (fst Examples.withClipsAB, snd Examples.withClipsAB) in
  resultOf TimelineManager.undo (fst Examples.withClipsAB, snd Examples.withClipsAB)
    = Normal true /\
  resultOf TimelineManager.redo undone = Normal true /\
  TimelineManager.historyIndex (snd (after TimelineManager.redo undone))
    = TimelineManager.historyIndex (snd Examples.withClipsAB).
Proof.
  assert (Hidx : TimelineManager.historyIndex (snd Examples.withClipsAB) = 2)
    by (vm_compute; reflexivity).
  assert (Hlen : JS.len (TimelineManager.history (snd Examples.withClipsAB)) = 3)
    by (vm_compute; reflexivity).
  assert (Hmax : TimelineManager.maxHistorySize (snd Examples.withClipsAB) = 100)
    by (vm_compute; reflexivity).
  assert (Hinv : historyInvariant 100 (snd Examples.withClipsAB)).
  { unfold historyInvariant. rewrite Hidx, Hlen, Hmax. lia. }
  assert (Hu : TimelineManager.canUndo (snd Examples.withClipsAB) = true).
  { unfold TimelineManager.canUndo. rewrite Hidx. reflexivity. }
  pose proof (undo_then_redo_restores_cursor 100 (fst Examples.withClipsAB)
                (snd Examples.withClipsAB) Hinv Hu) as H.
  cbv zeta in H. cbv zeta.
  split; [exact (proj1 H)|].
  split; [exact (proj1 (proj2 (proj2 (proj2 H))))|].
  exact (proj1 (proj2 (proj2 (proj2 (proj2 H))))).
Defined.

(** What one [undo()] returns and where it leaves the cursor. *)
Lemma undo_at_cursor cap w s :
  historyInvariant cap s ->
  resultOf TimelineManager.undo (w, s) = Normal (0 <=? TimelineManager.historyIndex s) /\
  historyInvariant cap (snd (after TimelineManager.undo (w, s))) /\
  TimelineManager.historyIndex (snd (after TimelineManager.undo (w, s)))
  = Z.max (-1) (TimelineManager.historyIndex s - 1).
Proof.
  intros Hs. pose proof Hs as (Hi & Hl & Hm & Hc).
  unfold resultOf, after. cbn [fst snd].
  rewrite undo_run. unfold TimelineManager.canUndo.
  destruct (Z.geb_spec (TimelineManager.historyIndex s) 0) as [Hge|Hlt].
  - destruct (at_in_range (TimelineManager.history s) (TimelineManager.historyIndex s))
      as (c & Hat); [lia|].
    rewrite Hat. rewrite updateTimeline_run.
    unfold completionOf, storeOf. cbn [fst snd].
    split; [f_equal; symmetry; apply Z.leb_le; lia|].
    split.
    + unfold historyInvariant. cbn. repeat split; try assumption; lia.
    + cbn. lia.
  - unfold completionOf, storeOf. cbn [fst snd].
    split; [f_equal; symmetry; apply Z.leb_gt; lia|].
    split; [exact Hs | lia].
Qed.

Lemma after_discard {S A} (m : M S A) (ws : World * S) : after (discard m) ws = after m ws.
Proof.
  unfold after, discard, worldOf, storeOf, bind, ret.
  destruct (m (fst ws) (snd ws)) as [[w' s'] [a|e]]; reflexivity.
Qed.

(** Where [k] consecutive [undo()] calls leave the cursor. *)
Lemma undo_repeated cap k : forall w s,
  historyInvariant cap s ->
  historyInvariant cap (snd (performAll (repeat CallUndo k) (w, s))) /\
  TimelineManager.historyIndex (snd (performAll (repeat CallUndo k) (w, s)))
  = Z.max (-1) (TimelineManager.historyIndex s - Z.of_nat k).
Proof.
  induction k as [|k IH]; intros w s Hs.
  - cbn [repeat performAll snd]. split; [exact Hs|].
    destruct Hs as (Hi & _). lia.
  - cbn [repeat performAll perform]. rewrite after_discard.
    destruct (undo_at_cursor cap w s Hs) as (_ & Hinv & Hidx).
    rewrite (surjective_pairing (after TimelineManager.undo (w, s))).
    destruct (IH (fst (after TimelineManager.undo (w, s)))
                 (snd (after TimelineManager.undo (w, s))) Hinv) as (H1 & H2).
    split; [exact H1|]. rewrite H2, Hidx. lia.
Qed.

Lemma undoSteps_exact cap fuel : forall w s,
  historyInvariant cap s ->
  undoSteps fuel (w, s) = Nat.min fuel (Z.to_nat (TimelineManager.historyIndex s + 1)).
Proof.
  induction fuel as [|f IH]; intros w s Hs; [reflexivity|].
  pose proof Hs as (Hi & Hl & Hm & Hc).
  cbn [undoSteps]. unfold resultOf, after. cbn [fst snd].
  rewrite undo_run. unfold TimelineManager.canUndo.
  destruct (Z.geb_spec (TimelineManager.historyIndex s) 0) as [Hge|Hlt].
  - destruct (at_in_range (TimelineManager.history s) (TimelineManager.historyIndex s))
      as (c & Hat); [lia|].
    rewrite Hat. unfold completionOf at 1. cbn [snd].
    unfold worldOf at 1, storeOf at 1. cbn [fst snd].
    rewrite IH.
    + rewrite updateTimeline_run. unfold storeOf. cbn [fst snd].
      change (TimelineManager.historyIndex (TimelineManager.set_timeline _ _))
        with (TimelineManager.historyIndex s - 1).
      replace (Z.to_nat (TimelineManager.historyIndex s + 1))
        with (S (Z.to_nat (TimelineManager.historyIndex s - 1 + 1))) by lia.
      reflexivity.
    + rewrite updateTimeline_run. unfold storeOf. cbn [fst snd].
      unfold historyInvariant. cbn. repeat split; try assumption; lia.
  - unfold completionOf. cbn [snd].
    replace (Z.to_nat (TimelineManager.historyIndex s + 1)) with O by lia.
    rewrite Nat.min_0_r. reflexivity.
Qed.

(** X23.  While the cursor points at a recorded command or just before
    the first, exactly [historyIndex + 1] consecutive [undo()] calls
    succeed and every later one returns [false]: after any [k]
    consecutive [undo()] calls the next one returns [true] when
    [k < historyIndex + 1] and returns [false] otherwise, so none of
    them throws; counted as the leading calls that return [true], that
    is [historyIndex + 1] of them. *)
Theorem undo_succeeds_once_per_recorded_command cap w s :
  historyInvariant cap s ->
  let available := Z.to_nat (TimelineManager.historyIndex s + 1) in
  (forall k,
     resultOf TimelineManager.undo (performAll (repeat CallUndo k) (w, s))
     = Normal (Nat.ltb k available)) /\
  (forall fuel, undoSteps fuel (w, s) = Nat.min fuel available).
Proof.
  intros Hs available. split.
  - intros k.
    destruct (undo_repeated cap k w s Hs) as (Hinv & Hidx).
    rewrite (surjective_pairing (performAll (repeat CallUndo k) (w, s))).
    destruct (undo_at_cursor cap (fst (performAll (repeat CallUndo k) (w, s)))
                (snd (performAll (repeat CallUndo k) (w, s))) Hinv) as (Hr & _).
    rewrite Hr, Hidx. f_equal.
    destruct Hs as (Hi & _). subst available.
    destruct (Nat.ltb_spec k (Z.to_nat (TimelineManager.historyIndex s + 1)));
      [apply Z.leb_le | apply Z.leb_gt]; lia.
  - intros fuel. exact (undoSteps_exact cap fuel w s Hs).
Qed.

(** After 150 [addMarker] calls on a new manager the history holds 100
    commands: the 100th [undo()] in a row returns [true], the 101st
    returns [false], and 100 leading calls succeed. *)
Lemma undo_succeeds_once_per_recorded_command_example :
  resultOf TimelineManager.undo
    (performAll (repeat CallUndo 99)
       (fst Examples.after150Markers, snd Examples.after150Markers)) = Normal true /\
  resultOf TimelineManager.undo
    (performAll (repeat CallUndo 100)
       (fst Examples.after150Markers, snd Examples.after150Markers)) = Normal false /\
  undoSteps 200 (fst Examples.after150Markers, snd Examples.after150Markers) = 100%nat.
Proof.
  assert (Hinv : historyInvariant 100 (snd Examples.after150Markers)).
  { apply performAll_preserves. apply constructor_history. }
  pose proof (undo_succeeds_once_per_recorded_command 100
                (fst Examples.after150Markers) (snd Examples.after150Markers) Hinv) as H.
  assert (Hidx : TimelineManager.historyIndex (snd Examples.after150Markers) = 99)
    by (vm_compute; reflexivity).
  cbv zeta in H. rewrite Hidx in H. destruct H as [H1 H2].
  split; [exact (H1 99%nat)|]. split; [exact (H1 100%nat) | exact (H2 200%nat)].
Defined.

(* ================================================================== *)
(** * Calls that name no clip or track                                 *)
(* ================================================================== *)

Lemma find_all_false {A} (p : A -> bool) (l : list A) :
  (forall x, In x l -> p x = false) -> find p l = None.
Proof.
  induction l as [|a r IH]; intros H; simpl; [reflexivity|].
  rewrite (H a (or_introl eq_refl)). apply IH. intros x Hx. apply H. right. exact Hx.
Qed.

Lemma findIndex_none_iff {A} (p : A -> bool) (l : list A) :
  JS.findIndex p l = -1 <-> find p l = None.
Proof.
  destruct (findIndex_spec p l) as [[E H]|(l1 & x & l2 & -> & E & Hx & Hl)].
  - split; [intros _; apply find_all_false; exact H | intros _; exact E].
  - split.
    + intros E'. pose proof (len_nonneg l1). lia.
    + intros Hf. pose proof (find_none _ _ Hf x) as Hn.
      rewrite Hn in Hx; [discriminate|]. apply in_or_app. right. left. reflexivity.
Qed.

Lemma removeClipSearch_none s clipId l : forall r,
  TimelineManager.getClipFrom s clipId l = None ->
  TimelineManager.removeClipSearch s clipId r l = None.
Proof.
  induction l as [|track rest IH]; intros r H; simpl in *; [reflexivity|].
  destruct (find _ (Track.clips track)) eqn:Hf; [discriminate|].
  apply findIndex_none_iff in Hf. rewrite Hf. simpl. apply IH. exact H.
Qed.

Lemma addClip_unknown_track trackId clip w s :
  TimelineManager.getTrackIn s trackId = None ->
  TimelineManager.addClip trackId clip w s = (w, s, Normal None).
Proof.
  intros Ht. unfold TimelineManager.addClip, TimelineManager.getTrack.
  cbv [bind get ret]. rewrite Ht. reflexivity.
Qed.

(** X24.  A call that names no clip of the timeline, or no track, is
    a no-op: [addClip] on an unknown track returns [null], and
    [removeClip], [moveClip], [trimClip] and [splitClip] on an unknown
    clip return [false] or [null]; none of them throws, draws an id,
    records a command or changes the store. *)
Theorem unknown_ids_change_nothing w s :
  (forall trackId clip,
     TimelineManager.getTrackIn s trackId = None ->
     TimelineManager.addClip trackId clip w s = (w, s, Normal None)) /\
  (forall clipId,
     TimelineManager.getClipIn s clipId = None ->
     TimelineManager.removeClip clipId w s = (w, s, Normal false) /\
     (forall newTrackId newTimelineStart,
        TimelineManager.moveClip clipId newTrackId newTimelineStart w s
          = (w, s, Normal false)) /\
     (forall newSourceRange newTimelineRange,
        TimelineManager.trimClip clipId newSourceRange newTimelineRange w s
          = (w, s, Normal false)) /\
     (forall splitPoint,
        TimelineManager.splitClip clipId splitPoint w s = (w, s, Normal None))).
Proof.
  split.
  - intros trackId clip Ht. exact (addClip_unknown_track trackId clip w s Ht).
  - intros clipId Hc. split; [|split; [|split]].
    + unfold TimelineManager.removeClip. cbv [bind get ret].
      rewrite (removeClipSearch_none s clipId _ O Hc). reflexivity.
    + intros newTrackId newTimelineStart.
      unfold TimelineManager.moveClip, TimelineManager.getClip.
      cbv [bind get ret]. rewrite Hc. reflexivity.
    + intros newSourceRange newTimelineRange.
      unfold TimelineManager.trimClip, TimelineManager.getClip.
      cbv [bind get ret]. rewrite Hc. reflexivity.
    + intros splitPoint.
      unfold TimelineManager.splitClip, TimelineManager.getClip.
      cbv [bind get ret]. rewrite Hc. reflexivity.
Qed.

Lemma unknown_ids_change_nothing_example :
  TimelineManager.addClip "no-such-track"
    (Examples.clipInput (Examples.range 0 5) (Examples.range 0 5))
    (fst Examples.withClipsAB) (snd Examples.withClipsAB)
  = (fst Examples.withClipsAB, snd Examples.withClipsAB, Normal None) /\
  TimelineManager.removeClip "no-such-clip"
    (fst Examples.withClipsAB) (snd Examples.withClipsAB)
  = (fst Examples.withClipsAB, snd Examples.withClipsAB, Normal false).
Proof.
  split.
  - apply (proj1 (unknown_ids_change_nothing (fst Examples.withClipsAB)
                    (snd Examples.withClipsAB))).
    vm_compute. reflexivity.
  - apply (proj2 (unknown_ids_change_nothing (fst Examples.withClipsAB)
                    (snd Examples.withClipsAB)) "no-such-clip"%string).
    vm_compute. reflexivity.
Defined.

(* ================================================================== *)
(** * Adding a clip                                                    *)
(* ================================================================== *)

Lemma getTrackIn_some s trackId track :
  TimelineManager.getTrackIn s trackId = Some track ->
  (track < List.length (TimelineManager.tracks s))%nat /\
  Track.id (TimelineManager.trackAt s track) = trackId.
Proof.
  unfold TimelineManager.getTrackIn, TimelineManager.trackAt.
  destruct (findIndex_spec (fun x => String.eqb (Track.id x) trackId) (TimelineManager.tracks s))
    as [[E H]|(l1 & x & l2 & El & E & Hx & Hl)]; rewrite E.
  - simpl. discriminate.
  - pose proof (len_nonneg l1).
    destruct (Z.ltb_spec (JS.len l1) 0); [lia|].
    intros [= <-]. rewrite El. unfold JS.len. rewrite Nat2Z.id.
    rewrite length_app. simpl. split; [lia|].
    rewrite app_nth2 by lia. rewrite Nat.sub_diag. simpl.
    apply String.eqb_eq. exact Hx.
Qed.

Lemma updateAt_nth {A} (f : A -> A) (d : A) (l : list A) : forall r,
  (r < List.length l)%nat -> nth r (TimelineManager.updateAt r f l) d = f (nth r l d).
Proof.
  induction l as [|a l IH]; intros [|r] Hr; simpl in *; try lia; [reflexivity|].
  apply IH. lia.
Qed.

Lemma updateAt_In {A} (f : A -> A) (d : A) (l : list A) : forall r x,
  In x (TimelineManager.updateAt r f l) ->
  In x l \/ ((r < List.length l)%nat /\ x = f (nth r l d)).
Proof.
  induction l as [|a l IH]; intros [|r] x Hx; simpl in *; try contradiction.
  - destruct Hx as [<-|Hx]; [right; split; [lia | reflexivity] | left; right; exact Hx].
  - destruct Hx as [<-|Hx]; [left; left; reflexivity|].
    destruct (IH r x Hx) as [H|[H1 H2]]; [left; right; exact H | right; split; [lia | exact H2]].
Qed.

Lemma updateAt_In_new {A} (f : A -> A) (d : A) (l : list A) : forall r,
  (r < List.length l)%nat -> In (f (nth r l d)) (TimelineManager.updateAt r f l).
Proof.
  induction l as [|a l IH]; intros [|r] Hr; simpl in *; try lia.
  - left. reflexivity.
  - right. apply IH. lia.
Qed.

Opaque JS.splice JS.findIndex JS.slice JS.sliceFrom TimelineManager.maxEndOf JS.len JS.push
       Z.gtb TimelineManager.updateAt.

(** What a successful [addClip] leaves behind. *)
Lemma addClip_success trackId clip w s track :
  TimelineManager.getTrackIn s trackId = Some track ->
  TimelineManager.hasOverlap s (TimelineManager.trackAt s track)
    (ClipInput.timelineRange clip) None = false ->
  let new := TimelineManager.allocated s in
  let object :=
    Clip.mk (uuidSource w (uuidCount w)) (ClipInput.sourceId clip) (ClipInput.flowId clip)
      trackId (ClipInput.timelineRange clip) (ClipInput.sourceRange clip)
      (ClipInput.speed clip) (ClipInput.transitions clip)
      (ClipInput.effects clip) (ClipInput.metadata clip) in
  let r := TimelineManager.addClip trackId clip w s in
  completionOf r = Normal (Some new) /\
  (exists insertIndex,
     TimelineManager.tracks (storeOf r)
     = TimelineManager.updateAt track
         (fun x => Track.set_clips (JS.splice insertIndex 0 [new] (Track.clips x)) x)
         (TimelineManager.tracks s)) /\
  (forall c, TimelineManager.clipObjects (storeOf r) c
             = if Nat.eqb c new then object else TimelineManager.clipObjects s c) /\
  TimelineManager.allocated (storeOf r) = S new /\
  Timeline.markers (TimelineManager.timeline (storeOf r))
    = Timeline.markers (TimelineManager.timeline s).
Proof.
  intros Ht Ho.
  unfold TimelineManager.addClip, TimelineManager.getTrack.
  cbv [bind get ret]. rewrite Ht. cbv beta iota. rewrite Ho. cbv beta iota zeta.
  simpl. rewrite executeCommand_run. simpl.
  unfold completionOf, storeOf. simpl.
  split; [reflexivity|]. split; [eexists; reflexivity|].
  split; [intros c; reflexivity|]. split; reflexivity.
Qed.

Transparent JS.splice JS.findIndex JS.slice JS.sliceFrom TimelineManager.maxEndOf JS.len JS.push
       Z.gtb TimelineManager.updateAt.

Lemma pairwise_ext {A} (R R' : A -> A -> Prop) (l : list A) :
  (forall a b, In a l -> In b l -> R a b -> R' a b) ->
  ForallOrdPairs R l -> ForallOrdPairs R' l.
Proof.
  intros H Hl. induction Hl as [|a l Ha Hl IH]; constructor.
  - rewrite Forall_forall in *. intros b Hb.
    apply H; [left; reflexivity | right; exact Hb | exact (Ha b Hb)].
  - apply IH. intros x y Hx Hy. apply H; right; assumption.
Qed.

Lemma existsb_false {A} (f : A -> bool) (l : list A) :
  existsb f l = false -> forall x, In x l -> f x = false.
Proof.
  intros H x Hx. destruct (f x) eqn:E; [|reflexivity].
  rewrite <- H. symmetry. apply existsb_exists. exists x. split; assumption.
Qed.

Lemma addClip_overlap trackId clip w s track :
  TimelineManager.getTrackIn s trackId = Some track ->
  TimelineManager.hasOverlap s (TimelineManager.trackAt s track)
    (ClipInput.timelineRange clip) None = true ->
  TimelineManager.addClip trackId clip w s
  = (w, s, Throw "Clip overlaps with existing clips").
Proof.
  intros Ht Ho.
  unfold TimelineManager.addClip, TimelineManager.getTrack.
  cbv [bind get ret]. rewrite Ht. cbv beta iota. rewrite Ho. reflexivity.
Qed.

(** X25.  [addClip] keeps every track free of overlapping clips.  If the
    clip references of the tracks are clip objects of the store and no
    two clips of one track overlap, the same holds after [addClip],
    whether it returns the new clip, returns [null] or throws. *)
Theorem addClip_keeps_tracks_free_of_overlap trackId clip w s :
  clipsLive s -> clipsDisjoint s ->
  let s' := storeOf (TimelineManager.addClip trackId clip w s) in
  clipsLive s' /\ clipsDisjoint s'.
Proof.
  intros Hlive Hdis s'. subst s'.
  destruct (TimelineManager.getTrackIn s trackId) as [track|] eqn:Ht.
  2:{ rewrite (addClip_unknown_track trackId clip w s Ht).
      split; assumption. }
  destruct (TimelineManager.hasOverlap s (TimelineManager.trackAt s track)
              (ClipInput.timelineRange clip) None) eqn:Ho.
  { rewrite (addClip_overlap trackId clip w s track Ht Ho). split; assumption. }
  destruct (addClip_success trackId clip w s track Ht Ho)
    as (_ & (insertIndex & Htr) & Hobj & Hal & _).
  destruct (getTrackIn_some s trackId track Ht) as (Hlt & _).
  set (s' := storeOf (TimelineManager.addClip trackId clip w s)) in *.
  set (new := TimelineManager.allocated s) in *.
  assert (Hold : forall c, (c < new)%nat ->
            TimelineManager.clipObjects s' c = TimelineManager.clipObjects s c).
  { intros c Hc. rewrite Hobj.
    destruct (Nat.eqb_spec c new); [lia | reflexivity]. }
  assert (Hin : In (TimelineManager.trackAt s track) (TimelineManager.tracks s))
    by (apply nth_In; exact Hlt).
  destruct (splice_insert_perm insertIndex new
              (Track.clips (TimelineManager.trackAt s track))) as (l1 & l2 & El & Es).
  assert (Hcases : forall x, In x (TimelineManager.tracks s') ->
            In x (TimelineManager.tracks s) \/ Track.clips x = l1 ++ new :: l2).
  { intros x Hx. rewrite Htr in Hx.
    destruct (updateAt_In _ Track.absent _ _ _ Hx) as [H|[_ ->]]; [left; exact H|].
    right. simpl. exact Es. }
  split.
  - intros x c Hx Hc. rewrite Hal.
    destruct (Hcases x Hx) as [H|H].
    + specialize (Hlive x c H Hc). fold new in Hlive. lia.
    + rewrite H in Hc. apply in_app_or in Hc.
      destruct Hc as [Hc|[<-|Hc]]; [|lia|];
        (assert (Hc' : In c (Track.clips (TimelineManager.trackAt s track)))
           by (rewrite El; apply in_or_app; tauto));
        specialize (Hlive _ c Hin Hc'); fold new in Hlive; lia.
  - intros x Hx.
    destruct (Hcases x Hx) as [H|H].
    + apply (pairwise_ext _ _ _ (fun a b Ha Hb Hab => eq_trans
               (f_equal2 (fun p q => overlaps (Clip.timelineRange p) (Clip.timelineRange q))
                         (Hold a (Hlive x a H Ha)) (Hold b (Hlive x b H Hb))) Hab)).
      exact (Hdis x H).
    + rewrite H.
      apply (pairwise_perm _ (fun a b Hab => eq_trans (overlaps_sym _ _) Hab)
               (new :: l1 ++ l2)); [apply Permutation_middle|].
      rewrite <- El.
      constructor.
      * apply Forall_forall. intros c Hc.
        pose proof (Hlive _ c Hin Hc) as Hcl. fold new in Hcl.
        rewrite (Hold c Hcl), Hobj, Nat.eqb_refl. simpl.
        unfold TimelineManager.hasOverlap in Ho.
        exact (existsb_false _ _ Ho c Hc).
      * apply (pairwise_ext _ _ _ (fun a b Ha Hb Hab => eq_trans
               (f_equal2 (fun p q => overlaps (Clip.timelineRange p) (Clip.timelineRange q))
                         (Hold a (Hlive _ a Hin Ha)) (Hold b (Hlive _ b Hin Hb))) Hab)).
        exact (Hdis _ Hin).
Qed.

Lemma addClip_keeps_tracks_free_of_overlap_example :
  let s' := storeOf (TimelineManager.addClip "uuid-0"
                       (Examples.clipInput (Examples.range 5 10) (Examples.range 0 5))
                       (fst Examples.withClipA) (snd Examples.withClipA)) in
  clipsLive s' /\ clipsDisjoint s'.
Proof.
  apply (addClip_keeps_tracks_free_of_overlap "uuid-0"
           (Examples.clipInput (Examples.range 5 10) (Examples.range 0 5))
           (fst Examples.withClipA) (snd Examples.withClipA)).
  - intros track c Hin Hc. vm_compute in Hin. destruct Hin as [<-|[]].
    vm_compute in Hc. destruct Hc as [<-|[]]. vm_compute. lia.
  - intros track Hin. vm_compute in Hin. destruct Hin as [<-|[]].
    cbn [Track.clips]. repeat constructor.
Defined.

(** ** Looking up the clip just added *)

Lemma updateAt_split {A} (f : A -> A) (d : A) (l : list A) : forall r,
  (r < List.length l)%nat ->
  TimelineManager.updateAt r f l = firstn r l ++ f (nth r l d) :: skipn (S r) l.
Proof.
  induction l as [|a l IH]; intros [|r] Hr; simpl in *; try lia; [reflexivity|].
  f_equal. apply IH. lia.
Qed.

Lemma getClipFrom_none s clipId l :
  TimelineManager.getClipFrom s clipId l = None ->
  forall track c, In track l -> In c (Track.clips track) ->
    String.eqb (Clip.id (TimelineManager.clipObjects s c)) clipId = false.
Proof.
  induction l as [|t r IH]; intros H track c Ht Hc; simpl in *; [contradiction|].
  destruct (find _ (Track.clips t)) eqn:Hf; [discriminate|].
  destruct Ht as [<-|Ht]; [exact (find_none _ _ Hf c Hc) | exact (IH H track c Ht Hc)].
Qed.

Lemma getClipFrom_skip s clipId l1 l2 :
  (forall track c, In track l1 -> In c (Track.clips track) ->
     String.eqb (Clip.id (TimelineManager.clipObjects s c)) clipId = false) ->
  TimelineManager.getClipFrom s clipId (l1 ++ l2) = TimelineManager.getClipFrom s clipId l2.
Proof.
  induction l1 as [|t r IH]; intros H; simpl; [reflexivity|].
  rewrite find_all_false by (intros c Hc; apply (H t c); [left; reflexivity | exact Hc]).
  apply IH. intros track c Ht Hc. apply (H track c); [right; exact Ht | exact Hc].
Qed.

Lemma find_first {A} (p : A -> bool) (l1 l2 : list A) (x : A) :
  (forall y, In y l1 -> p y = false) -> p x = true -> find p (l1 ++ x :: l2) = Some x.
Proof.
  induction l1 as [|a r IH]; intros H Hx; simpl.
  - rewrite Hx. reflexivity.
  - rewrite (H a (or_introl eq_refl)). apply IH; [|exact Hx].
    intros y Hy. apply H. right. exact Hy.
Qed.

(** X26.  A clip that [addClip] returns can be looked up.  When the
    clip references of the tracks are clip objects of the store and no
    clip of the timeline has the id drawn for the new clip, [getClip]
    of that id after a successful [addClip] returns the new clip, which
    carries the given track id, ranges and source. *)
Theorem getClip_finds_the_added_clip trackId clip w s new w' :
  clipsLive s ->
  TimelineManager.getClipIn s (uuidSource w (uuidCount w)) = None ->
  completionOf (TimelineManager.addClip trackId clip w s) = Normal (Some new) ->
  let s' := storeOf (TimelineManager.addClip trackId clip w s) in
  let added := TimelineManager.clipObjects s' new in
  completionOf (TimelineManager.getClip (uuidSource w (uuidCount w)) w' s')
    = Normal (Some new) /\
  Clip.id added = uuidSource w (uuidCount w) /\
  Clip.trackId added = trackId /\
  Clip.timelineRange added = ClipInput.timelineRange clip /\
  Clip.sourceRange added = ClipInput.sourceRange clip /\
  Clip.sourceId added = ClipInput.sourceId clip /\
  Clip.flowId added = ClipInput.flowId clip.
Proof.
  intros Hlive Hfresh Hok s' added. subst added s'.
  destruct (TimelineManager.getTrackIn s trackId) as [track|] eqn:Ht.
  2:{ rewrite (addClip_unknown_track trackId clip w s Ht) in Hok.
      discriminate Hok. }
  destruct (TimelineManager.hasOverlap s (TimelineManager.trackAt s track)
              (ClipInput.timelineRange clip) None) eqn:Ho.
  { rewrite (addClip_overlap trackId clip w s track Ht Ho) in Hok. discriminate Hok. }
  destruct (addClip_success trackId clip w s track Ht Ho)
    as (Hc & (insertIndex & Htr) & Hobj & Hal & _).
  rewrite Hc in Hok. injection Hok as <-.
  destruct (getTrackIn_some s trackId track Ht) as (Hlt & _).
  set (s' := storeOf (TimelineManager.addClip trackId clip w s)) in *.
  set (new := TimelineManager.allocated s) in *.
  set (id0 := uuidSource w (uuidCount w)) in *.
  rewrite (Hobj new), Nat.eqb_refl. cbn [Clip.id Clip.trackId Clip.timelineRange
    Clip.sourceRange Clip.sourceId Clip.flowId].
  split; [|repeat split].
  unfold TimelineManager.getClip. cbv [bind get ret completionOf snd].
  f_equal. unfold TimelineManager.getClipIn.
  assert (Hold : forall x c, In x (TimelineManager.tracks s) -> In c (Track.clips x) ->
            String.eqb (Clip.id (TimelineManager.clipObjects s' c)) id0 = false).
  { intros x c Hx Hcx. rewrite Hobj.
    pose proof (Hlive x c Hx Hcx) as Hcl. fold new in Hcl.
    destruct (Nat.eqb_spec c new); [lia|].
    exact (getClipFrom_none s id0 _ Hfresh x c Hx Hcx). }
  rewrite Htr. rewrite (updateAt_split _ Track.absent _ _ Hlt).
  rewrite getClipFrom_skip.
  2:{ intros x c Hx Hcx. apply (Hold x c); [|exact Hcx].
      rewrite <- (firstn_skipn track (TimelineManager.tracks s)).
      apply in_or_app. left. exact Hx. }
  cbn [TimelineManager.getClipFrom Track.clips Track.set_clips].
  destruct (splice_insert_perm insertIndex new
              (Track.clips (nth track (TimelineManager.tracks s) Track.absent)))
    as (l1 & l2 & El & Es).
  rewrite Es. rewrite (find_first _ l1 l2 new); [reflexivity| |].
  - intros c Hcx. apply (Hold (nth track (TimelineManager.tracks s) Track.absent) c).
    + apply nth_In. exact Hlt.
    + rewrite El. apply in_or_app. left. exact Hcx.
  - rewrite Hobj, Nat.eqb_refl. cbn [Clip.id]. apply String.eqb_refl.
Qed.

Lemma getClip_finds_the_added_clip_example :
  let call := TimelineManager.addClip "uuid-0"
                (Examples.clipInput (Examples.range 5 10) (Examples.range 0 5))
                (fst Examples.withClipA) (snd Examples.withClipA) in
  completionOf
    (TimelineManager.getClip
       (uuidSource (fst Examples.withClipA) (uuidCount (fst Examples.withClipA)))
       Examples.world (storeOf call))
  = Normal (Some 1%nat) /\
  Clip.timelineRange (TimelineManager.clipObjects (storeOf call) 1%nat)
  = Examples.range 5 10.
Proof.
  assert (Hlive : clipsLive (snd Examples.withClipA)).
  { intros track c Hin Hc. vm_compute in Hin. destruct Hin as [<-|[]].
    vm_compute in Hc. destruct Hc as [<-|[]]. vm_compute. lia. }
  assert (Hfresh : TimelineManager.getClipIn (snd Examples.withClipA)
                     (uuidSource (fst Examples.withClipA) (uuidCount (fst Examples.withClipA)))
                   = None) by (vm_compute; reflexivity).
  assert (Hok : completionOf
                  (TimelineManager.addClip "uuid-0"
                     (Examples.clipInput (Examples.range 5 10) (Examples.range 0 5))
                     (fst Examples.withClipA) (snd Examples.withClipA))
                = Normal (Some 1%nat)) by (vm_compute; reflexivity).
  pose proof (getClip_finds_the_added_clip "uuid-0"
                (Examples.clipInput (Examples.range 5 10) (Examples.range 0 5))
                (fst Examples.withClipA) (snd Examples.withClipA) 1%nat Examples.world
                Hlive Hfresh Hok) as H.
  cbv zeta in H. cbv zeta.
  split; [exact (proj1 H) | exact (proj1 (proj2 (proj2 (proj2 H))))].
Defined.

(* ================================================================== *)
(** * Adding a track                                                   *)
(* ================================================================== *)

Lemma reindexFrom_nth k l : forall i j,
  nth_error (TimelineManager.reindexFrom k i l) j
  = option_map (fun x => if k <=? i + Z.of_nat j then Track.set_index (i + Z.of_nat j) x else x)
               (nth_error l j).
Proof.
  induction l as [|a r IH]; intros i [|j]; cbn [TimelineManager.reindexFrom nth_error option_map];
    try reflexivity.
  - rewrite Z.add_0_r. reflexivity.
  - rewrite IH. replace (i + 1 + Z.of_nat j) with (i + Z.of_nat (S j)) by lia. reflexivity.
Qed.

Lemma reindexFrom_length k l : forall i,
  List.length (TimelineManager.reindexFrom k i l) = List.length l.
Proof. induction l as [|a r IH]; intros i; simpl; [reflexivity | rewrite IH; reflexivity]. Qed.

Opaque JS.splice JS.findIndex JS.slice JS.sliceFrom TimelineManager.maxEndOf JS.len JS.push
       Z.gtb TimelineManager.reindexFrom.

Lemma addTrack_run track w s :
  0 <= TrackInput.index track + 1 ->
  let newTrack :=
    Track.mk (uuidSource w (uuidCount w)) (TrackInput.name track) (TrackInput.type track)
      (TrackInput.index track) [] (TrackInput.muted track)
      (TrackInput.locked track) (TrackInput.visible track) (TrackInput.metadata track) in
  let r := TimelineManager.addTrack track w s in
  completionOf r = Normal newTrack /\
  TimelineManager.tracks (storeOf r)
  = TimelineManager.reindexFrom (TrackInput.index track + 1) 0
      (JS.splice (TrackInput.index track) 0 [newTrack] (TimelineManager.tracks s)) /\
  TimelineManager.clipObjects (storeOf r) = TimelineManager.clipObjects s.
Proof.
  intros Hi. unfold TimelineManager.addTrack.
  cbv [bind uuidv4 newDate get ret modify]. cbv beta iota zeta.
  destruct (Z.ltb_spec (TrackInput.index track + 1) 0); [lia|].
  cbv beta iota. rewrite executeCommand_run.
  unfold completionOf, storeOf. simpl. repeat split.
Qed.

Transparent JS.splice JS.findIndex JS.slice JS.sliceFrom TimelineManager.maxEndOf JS.len JS.push
       Z.gtb TimelineManager.reindexFrom.

(** X27.  [addTrack] at an index from 0 to the number of tracks keeps
    every track's [index] equal to its position: if that held before
    the call it holds after it, the new track sits at the position
    asked for with a fresh id and no clips, and there is one track
    more. *)
Theorem addTrack_keeps_indices track w s :
  tracksIndexed (TimelineManager.tracks s) ->
  0 <= TrackInput.index track <= JS.len (TimelineManager.tracks s) ->
  let r := TimelineManager.addTrack track w s in
  exists newTrack,
    completionOf r = Normal newTrack /\
    Track.id newTrack = uuidSource w (uuidCount w) /\
    Track.clips newTrack = [] /\
    tracksIndexed (TimelineManager.tracks (storeOf r)) /\
    JS.at_ (TimelineManager.tracks (storeOf r)) (TrackInput.index track) = Some newTrack /\
    JS.len (TimelineManager.tracks (storeOf r)) = JS.len (TimelineManager.tracks s) + 1.
Proof.
  intros Hidx Hi r. subst r.
  destruct (addTrack_run track w s) as (Hc & Ht & _); [lia|].
  eexists. split; [exact Hc|]. split; [reflexivity|]. split; [reflexivity|].
  rewrite Ht. clear Hc Ht.
  set (newTrack := Track.mk _ _ _ _ _ _ _ _ _).
  set (l := TimelineManager.tracks s) in *.
  set (n := Z.to_nat (TrackInput.index track)).
  assert (Hn : (n <= List.length l)%nat) by (unfold JS.len in Hi; lia).
  assert (Hlen : JS.len (firstn n l) = TrackInput.index track).
  { unfold JS.len. rewrite length_firstn. lia. }
  assert (Hs : JS.splice (TrackInput.index track) 0 [newTrack] l
               = firstn n l ++ newTrack :: skipn n l).
  { rewrite <- (firstn_skipn n l) at 1. rewrite <- Hlen. apply splice_insert_at. }
  rewrite Hs.
  assert (Hfl : List.length (firstn n l) = n) by (rewrite length_firstn; lia).
  split; [|split].
  - intros j x Hj. rewrite reindexFrom_nth in Hj.
    destruct (nth_error (firstn n l ++ newTrack :: skipn n l) j) as [y|] eqn:Ey;
      [|discriminate].
    cbn [option_map] in Hj. injection Hj as <-.
    match goal with |- context [?a <=? ?b] => destruct (Z.leb_spec a b) end;
      [cbn [Track.index Track.set_index]; lia|].
    destruct (Nat.lt_ge_cases j n) as [Hlt|Hge].
    + rewrite nth_error_app1 in Ey by lia.
      apply Hidx. rewrite <- (firstn_skipn n l). rewrite nth_error_app1 by lia. exact Ey.
    + assert (j = n) by lia. subst j.
      rewrite nth_error_app2 in Ey by lia.
      rewrite Hfl, Nat.sub_diag in Ey. injection Ey as <-.
      unfold newTrack. cbn [Track.index]. lia.
  - unfold JS.at_. destruct (Z.ltb_spec (TrackInput.index track) 0); [lia|].
    fold n. rewrite reindexFrom_nth.
    rewrite nth_error_app2 by lia. rewrite Hfl, Nat.sub_diag. cbn [nth_error option_map].
    match goal with |- context [?a <=? ?b] => destruct (Z.leb_spec a b) end;
      [lia | reflexivity].
  - unfold JS.len. rewrite reindexFrom_length, length_app. cbn [Datatypes.length].
    rewrite Hfl, length_skipn. lia.
Qed.

Lemma addTrack_keeps_indices_example :
  exists newTrack,
    completionOf (TimelineManager.addTrack Examples.videoTrack
                    (fst Examples.withTrack) (snd Examples.withTrack)) = Normal newTrack /\
    Track.id newTrack = uuidSource (fst Examples.withTrack) (uuidCount (fst Examples.withTrack)) /\
    Track.clips newTrack = [] /\
    tracksIndexed
      (TimelineManager.tracks
         (storeOf (TimelineManager.addTrack Examples.videoTrack
                     (fst Examples.withTrack) (snd Examples.withTrack)))) /\
    JS.at_ (TimelineManager.tracks
              (storeOf (TimelineManager.addTrack Examples.videoTrack
                          (fst Examples.withTrack) (snd Examples.withTrack))))
           (TrackInput.index Examples.videoTrack) = Some newTrack /\
    JS.len (TimelineManager.tracks
              (storeOf (TimelineManager.addTrack Examples.videoTrack
                          (fst Examples.withTrack) (snd Examples.withTrack))))
    = JS.len (TimelineManager.tracks (snd Examples.withTrack)) + 1.
Proof.
  apply (addTrack_keeps_indices Examples.videoTrack
           (fst Examples.withTrack) (snd Examples.withTrack)).
  - intros i x Hx.
    destruct i as [|[|i]]; vm_compute in Hx; try discriminate Hx.
    injection Hx as <-. reflexivity.
  - vm_compute. split; discriminate.
Defined.

(* ================================================================== *)
(** * Trimming a clip                                                  *)
(* ================================================================== *)

Lemma byTimelineStart_total s a b :
  TimelineManager.byTimelineStart s a b > 0 -> TimelineManager.byTimelineStart s b a <= 0.
Proof.
  unfold TimelineManager.byTimelineStart. intros H.
  rewrite compare_antisym. lia.
Qed.

Lemma byTimelineStart_trans s a b c :
  TimelineManager.byTimelineStart s a b <= 0 -> TimelineManager.byTimelineStart s b c <= 0 ->
  TimelineManager.byTimelineStart s a c <= 0.
Proof. unfold TimelineManager.byTimelineStart. apply notAfter_trans. Qed.

Opaque JS.splice JS.findIndex JS.slice JS.sliceFrom TimelineManager.maxEndOf JS.len JS.push
       Z.gtb TimelineManager.updateAt JS.sort.

Lemma trimClip_success clipId newSourceRange r w s clip track :
  TimelineManager.getClipIn s clipId = Some clip ->
  TimelineManager.getTrackIn s (Clip.trackId (TimelineManager.clipObjects s clip)) = Some track ->
  TimelineManager.hasOverlap s (TimelineManager.trackAt s track) r (Some clipId) = false ->
  let call := TimelineManager.trimClip clipId newSourceRange (Some r) w s in
  let s' := storeOf call in
  completionOf call = Normal true /\
  (forall c, TimelineManager.clipObjects s' c
     = if Nat.eqb c clip
       then Clip.set_timelineRange r
              (match newSourceRange with
               | Some sr => Clip.set_sourceRange sr (TimelineManager.clipObjects s clip)
               | None => TimelineManager.clipObjects s clip
               end)
       else TimelineManager.clipObjects s c) /\
  TimelineManager.tracks s'
  = TimelineManager.updateAt track
      (fun x => Track.set_clips
         (JS.sort (fun a b =>
                     TimestampUtils.compare
                       (start (Clip.timelineRange (TimelineManager.clipObjects s' a)))
                       (start (Clip.timelineRange (TimelineManager.clipObjects s' b))))
                  (Track.clips x)) x)
      (TimelineManager.tracks s).
Proof.
  intros Hc Ht Ho.
  unfold TimelineManager.trimClip, TimelineManager.getClip, TimelineManager.getTrack.
  cbv [bind get ret]. rewrite Hc. cbv beta iota. rewrite Ht. cbv beta iota zeta.
  rewrite Ho. cbv beta iota.
  destruct newSourceRange as [sr|]; simpl; rewrite executeCommand_run; simpl;
    unfold completionOf, storeOf; simpl; rewrite ?Nat.eqb_refl.
  all: split; [reflexivity|]; split; [|reflexivity].
  all: intros c; destruct (Nat.eqb c clip) eqn:E; try reflexivity.
  all: apply Nat.eqb_eq in E; subst c; reflexivity.
Qed.

Transparent JS.splice JS.findIndex JS.slice JS.sliceFrom TimelineManager.maxEndOf JS.len JS.push
       Z.gtb TimelineManager.updateAt JS.sort.

(** X28.  A successful [trimClip] with a new timeline range gives the
    clip that range and leaves the clips of its track in ascending
    order of timeline start, whatever their order was: the track holds
    the same clips as before, sorted. *)
Theorem trimClip_sorts_the_track clipId newSourceRange r w s clip track :
  TimelineManager.getClipIn s clipId = Some clip ->
  TimelineManager.getTrackIn s (Clip.trackId (TimelineManager.clipObjects s clip)) = Some track ->
  TimelineManager.hasOverlap s (TimelineManager.trackAt s track) r (Some clipId) = false ->
  let call := TimelineManager.trimClip clipId newSourceRange (Some r) w s in
  let s' := storeOf call in
  completionOf call = Normal true /\
  Clip.timelineRange (TimelineManager.clipObjects s' clip) = r /\
  StronglySorted
    (fun a b => notAfter (start (Clip.timelineRange (TimelineManager.clipObjects s' a)))
                         (start (Clip.timelineRange (TimelineManager.clipObjects s' b))))
    (Track.clips (TimelineManager.trackAt s' track)) /\
  Permutation (Track.clips (TimelineManager.trackAt s' track))
              (Track.clips (TimelineManager.trackAt s track)).
Proof.
  intros Hc Ht Ho call s'.
  destruct (trimClip_success clipId newSourceRange r w s clip track Hc Ht Ho)
    as (Hr & Hobj & Htr).
  fold call in Hr. fold call s' in Hobj, Htr.
  destruct (getTrackIn_some s _ track Ht) as (Hlt & _).
  split; [exact Hr|]. split.
  - rewrite Hobj, Nat.eqb_refl. reflexivity.
  - assert (Hclips : Track.clips (TimelineManager.trackAt s' track)
                     = JS.sort (TimelineManager.byTimelineStart s')
                               (Track.clips (TimelineManager.trackAt s track))).
    { unfold TimelineManager.trackAt. rewrite Htr.
      rewrite (updateAt_nth _ Track.absent _ _ Hlt). reflexivity. }
    rewrite Hclips. split.
    + apply (sort_sorted (TimelineManager.byTimelineStart s')).
      * apply byTimelineStart_total.
      * apply byTimelineStart_trans.
    + apply sort_perm.
Qed.

Lemma trimClip_sorts_the_track_example :
  let call := TimelineManager.trimClip "uuid-4" None (Some (Examples.range 6 10))
                (fst Examples.withClipsAB) (snd Examples.withClipsAB) in
  let s' := storeOf call in
  completionOf call = Normal true /\
  Clip.timelineRange (TimelineManager.clipObjects s' 1%nat) = Examples.range 6 10 /\
  StronglySorted
    (fun a b => notAfter (start (Clip.timelineRange (TimelineManager.clipObjects s' a)))
                         (start (Clip.timelineRange (TimelineManager.clipObjects s' b))))
    (Track.clips (TimelineManager.trackAt s' 0%nat)) /\
  Permutation (Track.clips (TimelineManager.trackAt s' 0%nat))
              (Track.clips (TimelineManager.trackAt (snd Examples.withClipsAB) 0%nat)).
Proof.
  apply (trimClip_sorts_the_track "uuid-4" None (Examples.range 6 10)
           (fst Examples.withClipsAB) (snd Examples.withClipsAB) 1%nat 0%nat).
  - vm_compute. reflexivity.
  - vm_compute. reflexivity.
  - vm_compute. reflexivity.
Defined.

(* ================================================================== *)
(** * Moving a clip                                                    *)
(* ================================================================== *)

Lemma updateAt_length {A} (f : A -> A) (l : list A) : forall r,
  List.length (TimelineManager.updateAt r f l) = List.length l.
Proof.
  induction l as [|a l IH]; intros [|r]; simpl; try reflexivity.
  rewrite IH. reflexivity.
Qed.

Opaque JS.splice JS.findIndex JS.slice JS.sliceFrom TimelineManager.maxEndOf JS.len JS.push
       Z.gtb TimelineManager.updateAt TimestampUtils.add TimestampUtils.subtract.

Lemma moveClip_success clipId newTrackId newTimelineStart w s clip sourceTrack targetTrack :
  TimelineManager.getClipIn s clipId = Some clip ->
  TimelineManager.getTrackIn s (Clip.trackId (TimelineManager.clipObjects s clip))
    = Some sourceTrack ->
  TimelineManager.getTrackIn s newTrackId = Some targetTrack ->
  let newTimelineRange :=
    mkTimeRange newTimelineStart
      (TimestampUtils.add newTimelineStart
         (TimestampUtils.duration (Clip.timelineRange (TimelineManager.clipObjects s clip)))) in
  TimelineManager.hasOverlap s (TimelineManager.trackAt s targetTrack) newTimelineRange
    (Some clipId) = false ->
  let call := TimelineManager.moveClip clipId newTrackId newTimelineStart w s in
  let s' := storeOf call in
  completionOf call = Normal true /\
  (forall c, TimelineManager.clipObjects s' c
     = if Nat.eqb c clip
       then Clip.set_timelineRange newTimelineRange
              (Clip.set_trackId newTrackId (TimelineManager.clipObjects s clip))
       else TimelineManager.clipObjects s c) /\
  exists insertIndex,
    TimelineManager.tracks s'
    = TimelineManager.updateAt targetTrack
        (fun x => Track.set_clips (JS.splice insertIndex 0 [clip] (Track.clips x)) x)
        (TimelineManager.updateAt sourceTrack
           (fun x => Track.set_clips
              (filter (fun c => negb (String.eqb (Clip.id (TimelineManager.clipObjects s c))
                                                 clipId))
                      (Track.clips x)) x)
           (TimelineManager.tracks s)).
Proof.
  intros Hc Hs Ht newTimelineRange Ho.
  unfold TimelineManager.moveClip, TimelineManager.getClip, TimelineManager.getTrack.
  cbv [bind get ret]. rewrite Hc. cbv beta iota. rewrite Hs, Ht. cbv beta iota zeta.
  fold newTimelineRange. rewrite Ho. cbv beta iota.
  simpl. rewrite executeCommand_run. simpl.
  unfold completionOf, storeOf. simpl. rewrite ?Nat.eqb_refl.
  split; [reflexivity|]. split; [|eexists; reflexivity].
  intros c. destruct (Nat.eqb c clip) eqn:E; try reflexivity.
Qed.

Transparent JS.splice JS.findIndex JS.slice JS.sliceFrom TimelineManager.maxEndOf JS.len JS.push
       Z.gtb TimelineManager.updateAt TimestampUtils.add TimestampUtils.subtract.

(** X29.  A successful [moveClip] keeps the clip's length.  For a clip
    whose timeline range and new start are normalized timestamps, the
    moved clip starts at the new start, lasts as long as before, keeps
    its source range, carries the target track's id and is among the
    clips of the target track. *)
Theorem moveClip_keeps_the_clip_duration
    clipId newTrackId newTimelineStart w s clip sourceTrack targetTrack :
  TimelineManager.getClipIn s clipId = Some clip ->
  TimelineManager.getTrackIn s (Clip.trackId (TimelineManager.clipObjects s clip))
    = Some sourceTrack ->
  TimelineManager.getTrackIn s newTrackId = Some targetTrack ->
  TimelineManager.hasOverlap s (TimelineManager.trackAt s targetTrack)
    (mkTimeRange newTimelineStart
       (TimestampUtils.add newTimelineStart
          (TimestampUtils.duration (Clip.timelineRange (TimelineManager.clipObjects s clip)))))
    (Some clipId) = false ->
  normalized newTimelineStart ->
  normalized (start (Clip.timelineRange (TimelineManager.clipObjects s clip))) ->
  normalized (end_ (Clip.timelineRange (TimelineManager.clipObjects s clip))) ->
  let call := TimelineManager.moveClip clipId newTrackId newTimelineStart w s in
  let moved := TimelineManager.clipObjects (storeOf call) clip in
  completionOf call = Normal true /\
  start (Clip.timelineRange moved) = newTimelineStart /\
  TimestampUtils.duration (Clip.timelineRange moved)
    = TimestampUtils.duration (Clip.timelineRange (TimelineManager.clipObjects s clip)) /\
  Clip.sourceRange moved = Clip.sourceRange (TimelineManager.clipObjects s clip) /\
  Clip.trackId moved = newTrackId /\
  In clip (Track.clips (TimelineManager.trackAt (storeOf call) targetTrack)).
Proof.
  intros Hc Hs Ht Ho Hn Hns Hne call moved.
  destruct (moveClip_success clipId newTrackId newTimelineStart w s clip sourceTrack targetTrack
              Hc Hs Ht Ho) as (Hr & Hobj & (insertIndex & Htr)).
  fold call in Hr, Hobj, Htr.
  subst moved. rewrite Hobj, Nat.eqb_refl.
  cbn [Clip.timelineRange Clip.set_timelineRange Clip.set_trackId Clip.sourceRange
       Clip.trackId start].
  split; [exact Hr|]. split; [reflexivity|]. split; [|split; [reflexivity|split; [reflexivity|]]].
  - unfold TimestampUtils.duration at 1. cbn [start end_].
    set (d := TimestampUtils.duration (Clip.timelineRange (TimelineManager.clipObjects s clip))).
    assert (Hd : normalized d).
    { unfold d, TimestampUtils.duration. exact (subtract_normalized _ _ Hne Hns). }
    exact (subtract_add_cancel_l newTimelineStart d Hn Hd).
  - destruct (getTrackIn_some s _ targetTrack Ht) as (Hlt & _).
    unfold TimelineManager.trackAt. rewrite Htr.
    rewrite (updateAt_nth _ Track.absent) by (rewrite updateAt_length; exact Hlt).
    cbn [Track.clips Track.set_clips].
    match goal with |- In clip (JS.splice _ 0 [clip] ?l) =>
      destruct (splice_insert_perm insertIndex clip l) as (l1 & l2 & _ & ->)
    end.
    apply in_or_app. right. left. reflexivity.
Qed.

Lemma moveClip_keeps_the_clip_duration_example :
  let call := TimelineManager.moveClip "uuid-4" "uuid-0" (Examples.at_s 20)
                (fst Examples.withClipsAB) (snd Examples.withClipsAB) in
  completionOf call = Normal true /\
  start (Clip.timelineRange (TimelineManager.clipObjects (storeOf call) 1%nat))
    = Examples.at_s 20 /\
  TimestampUtils.duration
    (Clip.timelineRange (TimelineManager.clipObjects (storeOf call) 1%nat))
  = TimestampUtils.duration
      (Clip.timelineRange (TimelineManager.clipObjects (snd Examples.withClipsAB) 1%nat)).
Proof.
  assert (Hc : TimelineManager.getClipIn (snd Examples.withClipsAB) "uuid-4" = Some 1%nat)
    by (vm_compute; reflexivity).
  assert (Hs : TimelineManager.getTrackIn (snd Examples.withClipsAB)
                 (Clip.trackId (TimelineManager.clipObjects (snd Examples.withClipsAB) 1%nat))
               = Some 0%nat) by (vm_compute; reflexivity).
  assert (Ht : TimelineManager.getTrackIn (snd Examples.withClipsAB) "uuid-0" = Some 0%nat)
    by (vm_compute; reflexivity).
  assert (Ho : TimelineManager.hasOverlap (snd Examples.withClipsAB)
                 (TimelineManager.trackAt (snd Examples.withClipsAB) 0%nat)
                 (mkTimeRange (Examples.at_s 20)
                    (TimestampUtils.add (Examples.at_s 20)
                       (TimestampUtils.duration
                          (Clip.timelineRange
                             (TimelineManager.clipObjects (snd Examples.withClipsAB) 1%nat)))))
                 (Some "uuid-4"%string) = false) by (vm_compute; reflexivity).
  assert (Hn : normalized (Examples.at_s 20)) by (vm_compute; split; [discriminate | reflexivity]).
  assert (Hns : normalized
                  (start (Clip.timelineRange
                            (TimelineManager.clipObjects (snd Examples.withClipsAB) 1%nat))))
    by (vm_compute; split; [discriminate | reflexivity]).
  assert (Hne : normalized
                  (end_ (Clip.timelineRange
                           (TimelineManager.clipObjects (snd Examples.withClipsAB) 1%nat))))
    by (vm_compute; split; [discriminate | reflexivity]).
  pose proof (moveClip_keeps_the_clip_duration "uuid-4" "uuid-0" (Examples.at_s 20)
                (fst Examples.withClipsAB) (snd Examples.withClipsAB) 1%nat 0%nat 0%nat
                Hc Hs Ht Ho Hn Hns Hne) as H.
  cbv zeta in H. cbv zeta.
  split; [exact (proj1 H)|].
  split; [exact (proj1 (proj2 H)) | exact (proj1 (proj2 (proj2 H)))].
Defined.

(* ================================================================== *)
(** * Removing a clip                                                  *)
(* ================================================================== *)

Lemma find_some_split {A} (p : A -> bool) (l : list A) (c : A) :
  find p l = Some c ->
  exists l1 l2, l = l1 ++ c :: l2 /\ JS.findIndex p l = JS.len l1.
Proof.
  intros Hf.
  destruct (findIndex_spec p l) as [[E H]|(l1 & x & l2 & -> & E & Hx & Hl)].
  - apply find_some in Hf. destruct Hf as [Hin Hp]. rewrite (H c Hin) in Hp. discriminate.
  - rewrite (find_first p l1 l2 x Hl Hx) in Hf. injection Hf as <-.
    exists l1, l2. split; [reflexivity | exact E].
Qed.

Lemma removeClipSearch_some s clipId clip l : forall r,
  TimelineManager.getClipFrom s clipId l = Some clip ->
  exists k l1 l2,
    (k < List.length l)%nat /\
    Track.clips (nth k l Track.absent) = l1 ++ clip :: l2 /\
    TimelineManager.removeClipSearch s clipId r l = Some ((r + k)%nat, JS.len l1).
Proof.
  induction l as [|t rest IH]; intros r H; simpl in *; [discriminate|].
  destruct (find _ (Track.clips t)) as [c|] eqn:Hf.
  - injection H as ->.
    destruct (find_some_split _ _ _ Hf) as (l1 & l2 & El & Ei).
    exists O, l1, l2. rewrite Ei.
    assert (Hn : (JS.len l1 =? -1) = false)
      by (apply Z.eqb_neq; pose proof (len_nonneg l1); lia).
    rewrite Hn. simpl. rewrite Nat.add_0_r.
    split; [lia|]. split; [exact El | reflexivity].
  - apply findIndex_none_iff in Hf. rewrite Hf. simpl.
    destruct (IH (S r) H) as (k & l1 & l2 & Hk & El & Es).
    exists (S k), l1, l2. rewrite Es.
    split; [lia|]. split; [exact El|]. f_equal. f_equal. lia.
Qed.

Lemma updateAt_other {A} (f : A -> A) (d : A) (l : list A) : forall r r',
  r <> r' -> nth r' (TimelineManager.updateAt r f l) d = nth r' l d.
Proof.
  induction l as [|a l IH]; intros [|r] [|r'] H; simpl; try reflexivity; try lia.
  apply IH. lia.
Qed.

Lemma splice_delete_at {A} (x : A) (l1 l2 : list A) :
  JS.splice (JS.len l1) 1 [] (l1 ++ x :: l2) = l1 ++ l2.
Proof.
  unfold JS.splice, JS.relIndex, JS.len. rewrite length_app. cbn [Datatypes.length].
  destruct (Z.ltb_spec (Z.of_nat (List.length l1)) 0); [lia|].
  rewrite Z.min_l by lia.
  rewrite Z.max_l by lia. rewrite Z.min_l by lia.
  rewrite Nat2Z.id.
  rewrite firstn_app, firstn_all, Nat.sub_diag, firstn_0, app_nil_r.
  replace (Z.to_nat (Z.of_nat (List.length l1) + 1)) with (S (List.length l1)) by lia.
  rewrite skipn_app, skipn_all2 by lia.
  replace (S (List.length l1) - List.length l1)%nat with 1%nat by lia.
  reflexivity.
Qed.

Opaque JS.splice JS.findIndex JS.slice JS.sliceFrom TimelineManager.maxEndOf JS.len JS.push
       Z.gtb TimelineManager.updateAt TimelineManager.removeClipSearch.

Lemma removeClip_success clipId w s track clipIndex :
  TimelineManager.removeClipSearch s clipId O (TimelineManager.tracks s)
    = Some (track, clipIndex) ->
  let call := TimelineManager.removeClip clipId w s in
  completionOf call = Normal true /\
  TimelineManager.tracks (storeOf call)
  = TimelineManager.updateAt track
      (fun x => Track.set_clips (JS.splice clipIndex 1 [] (Track.clips x)) x)
      (TimelineManager.tracks s) /\
  (forall c, TimelineManager.clipObjects (storeOf call) c = TimelineManager.clipObjects s c) /\
  Timeline.markers (TimelineManager.timeline (storeOf call))
    = Timeline.markers (TimelineManager.timeline s).
Proof.
  intros Hs. unfold TimelineManager.removeClip.
  cbv [bind get ret]. rewrite Hs. cbv beta iota zeta.
  simpl. rewrite executeCommand_run. simpl.
  unfold completionOf, storeOf. simpl. repeat split.
Qed.

Transparent JS.splice JS.findIndex JS.slice JS.sliceFrom TimelineManager.maxEndOf JS.len JS.push
       Z.gtb TimelineManager.updateAt TimelineManager.removeClipSearch.

(** X30.  [removeClip] of an id that [getClip] finds returns [true] and
    takes exactly that clip out of its track: the clips before and
    after it stay in their order, and every other track, every clip
    object and the markers are left as they were. *)
Theorem removeClip_removes_exactly_the_clip clipId w s clip :
  TimelineManager.getClipIn s clipId = Some clip ->
  let call := TimelineManager.removeClip clipId w s in
  let s' := storeOf call in
  completionOf call = Normal true /\
  exists track before later,
    Track.clips (TimelineManager.trackAt s track) = before ++ clip :: later /\
    Track.clips (TimelineManager.trackAt s' track) = before ++ later /\
    (forall other, other <> track ->
       TimelineManager.trackAt s' other = TimelineManager.trackAt s other) /\
    (forall c, TimelineManager.clipObjects s' c = TimelineManager.clipObjects s c) /\
    Timeline.markers (TimelineManager.timeline s') = Timeline.markers (TimelineManager.timeline s).
Proof.
  intros Hc call s'.
  destruct (removeClipSearch_some s clipId clip _ O Hc) as (k & l1 & l2 & Hk & El & Es).
  simpl in Es.
  destruct (removeClip_success clipId w s k (JS.len l1) Es) as (Hr & Htr & Hobj & Hm).
  fold call in Hr. fold call s' in Htr, Hobj, Hm.
  split; [exact Hr|].
  exists k, l1, l2.
  split; [exact El|]. split; [|split; [|split; assumption]].
  - unfold TimelineManager.trackAt. rewrite Htr.
    rewrite (updateAt_nth _ Track.absent _ _ Hk). cbn [Track.clips Track.set_clips].
    unfold TimelineManager.trackAt in El. rewrite El. apply splice_delete_at.
  - intros other Ho. unfold TimelineManager.trackAt. rewrite Htr.
    apply updateAt_other. congruence.
Qed.

Lemma removeClip_removes_exactly_the_clip_example :
  let call := TimelineManager.removeClip "uuid-2"
                (fst Examples.withClipsAB) (snd Examples.withClipsAB) in
  completionOf call = Normal true /\
  exists track before later,
    Track.clips (TimelineManager.trackAt (snd Examples.withClipsAB) track)
      = before ++ 0%nat :: later /\
    Track.clips (TimelineManager.trackAt (storeOf call) track) = before ++ later /\
    (forall other, other <> track ->
       TimelineManager.trackAt (storeOf call) other
       = TimelineManager.trackAt (snd Examples.withClipsAB) other) /\
    (forall c, TimelineManager.clipObjects (storeOf call) c
               = TimelineManager.clipObjects (snd Examples.withClipsAB) c) /\
    Timeline.markers (TimelineManager.timeline (storeOf call))
      = Timeline.markers (TimelineManager.timeline (snd Examples.withClipsAB)).
Proof.
  apply (removeClip_removes_exactly_the_clip "uuid-2"
           (fst Examples.withClipsAB) (snd Examples.withClipsAB) 0%nat).
  vm_compute. reflexivity.
Defined.
